(** * Neural State Machine notebook (NSM.py): model and properties

  The notebook computes with torch float tensors.  Tensors are modelled as
  nested lists of real numbers, the leading list being the batch axis;
  [exp] is the real exponential, so [softmax] and [elu] are the exact
  mathematical functions that torch approximates in floating point. *)

From Stdlib Require Import Reals Lra Lia String Bool Arith List.
Import ListNotations.
Open Scope R_scope.

(** ** Tensors as nested lists *)

Abbreviation vec := (list R).                 (* rank 1 *)
Abbreviation mat := (list (list R)).          (* rank 2, a list of rows *)
Abbreviation T3 := (list (list (list R))).    (* rank 3 *)
Abbreviation T4 := (list (list (list (list R)))).  (* rank 4 *)

(** Elementwise combination of two lists (torch raises on a shape mismatch;
  the model stops at the shorter list). *)
Fixpoint map2 {A B C : Type} (f : A -> B -> C) (xs : list A) (ys : list B) : list C :=
match xs, ys with
| x :: xs', y :: ys' => f x y :: map2 f xs' ys'
| _, _ => []
end.

Definition sumR (v : vec) : R := fold_right Rplus 0 v.
Definition vadd (a b : vec) : vec := map2 Rplus a b.
Definition vmul (a b : vec) : vec := map2 Rmult a b.
Definition vscale (c : R) (a : vec) : vec := map (Rmult c) a.
Definition dot (a b : vec) : R := sumR (vmul a b).
Definition zeros (d : nat) : vec := repeat 0 d.

(** [torch.sum] over an axis whose entries are vectors of width [d], and
  over an axis whose entries are [n] x [d] matrices. *)
Definition vsum (d : nat) (vs : list vec) : vec := fold_right vadd (zeros d) vs.
Definition madd (a b : mat) : mat := map2 vadd a b.
Definition msum (n d : nat) (ms : list mat) : mat :=
fold_right madd (repeat (zeros d) n) ms.

(** Column [c] of a matrix, the transpose of a [rows] x [cols] matrix, and
  the products [x @ W], [X @ W] for [W] with [cols] columns. *)
Definition col (c : nat) (M : mat) : vec := map (fun row => nth c row 0) M.
Definition transpose (cols : nat) (M : mat) : mat := map (fun c => col c M) (seq 0 cols).
Definition vecmat (cols : nat) (x : vec) (W : mat) : vec :=
map (fun c => dot x (col c W)) (seq 0 cols).
Definition matmul (cols : nat) (X W : mat) : mat := map (fun x => vecmat cols x W) X.

(** [torch.eye(d)] *)
Definition eye (d : nat) : mat :=
  map (fun i => map (fun j => if Nat.eqb i j then 1 else 0) (seq 0 d)) (seq 0 d).

(** [t.expand(BATCH, ...)] of a tensor without batch axis, and [torch.bmm]. *)
Definition expand {A : Type} (BATCH : nat) (t : A) : list A := repeat t BATCH.
Definition bmm (cols : nat) (Xs Ws : T3) : T3 := map2 (matmul cols) Xs Ws.

(** [t.view(rows, width, ...)] of a flat list of [rows * width] entries. *)
Definition view {A : Type} (rows width : nat) (l : list A) : list (list A) :=
map (fun i => firstn width (skipn (i * width) l)) (seq 0 rows).

(** [t[:, i]] on the second axis; out of range torch raises IndexError, the
  model yields the default. *)
Definition select {A : Type} (dflt : A) (i : nat) (t : list (list A)) : list A :=
map (fun row => nth i row dflt) t.

(** [F.elu] with the default alpha = 1, and [F.softmax] along one axis.
  Both are taken over the reals, with exact [exp] and division: an entry
  of this softmax is never exactly 0 or 1, while torch's float32 softmax
  rounds to 0 and 1 when the logits are far apart. *)
Definition elu (x : R) : R := if Rlt_dec 0 x then x else exp x - 1.
Definition softmax (v : vec) : vec := map (fun x => exp x / sumR (map exp v)) v.

(** [nn.Linear] with bias: [y = x W^T + b]; the weight has one row per
  output feature. *)
Record Linear := { weight : mat; bias : vec }.
Definition apply_linear (lin : Linear) (x : vec) : vec :=
map2 (fun w b => dot x w + b) (weight lin) (bias lin).

(** [t[b, i, j]] of a tensor with three leading axes. *)
Definition entry {A : Type} (dflt : A) (t : list (list (list A))) (b i j : nat) : A :=
  nth j (nth i (nth b t []) []) dflt.

(** ** Random draws and the construction cells

    [torch.rand] draws from a generator whose state advances with every
    scalar drawn.  [u k] is the k-th scalar of the stream; a computation
    that draws threads the count of scalars drawn so far, and fails on the
    errors Python raises (KeyError, torch.stack of an empty list). *)

Section Construction.

Variable u : nat -> R.
Variable EMBD_DIM : nat.

Definition Gen (A : Type) : Type := nat -> option (A * nat).

Definition ret {A : Type} (a : A) : Gen A := fun k => Some (a, k).

Definition bind {A B : Type} (m : Gen A) (f : A -> Gen B) : Gen B :=
  fun k => match m k with
           | Some (a, k') => f a k'
           | None => None
           end.

Definition raise {A : Type} : Gen A := fun _ => None.

Notation "x <- m ;; f" := (bind m (fun x => f))
  (at level 61, m at next level, right associativity).

Fixpoint mapM {A B : Type} (f : A -> Gen B) (l : list A) : Gen (list B) :=
  match l with
  | [] => ret []
  | a :: l' => b <- f a ;; bs <- mapM f l' ;; ret (b :: bs)
  end.

(** torch.rand(d) *)
Definition torch_rand (d : nat) : Gen vec :=
  fun k => Some (map u (seq k d), (k + d)%nat).

(** def to_glove(token): return torch.rand(EMBD_DIM) *)
Definition to_glove (token : string) : Gen vec := torch_rand EMBD_DIM.

(** The rows that n successive calls torch.rand(EMBD_DIM) return when the
    first of them starts at scalar k of the stream. *)
Definition rows_from (k n : nat) : mat :=
  map (fun t => map u (seq (k + t * EMBD_DIM) EMBD_DIM)) (seq 0 n).

(** torch.stack of a list of vectors along a new leading axis. *)
Definition stack (rows : list vec) : Gen mat :=
  match rows with
  | [] => raise
  | _ => ret rows
  end.

(** The dict [property_concepts]: lookups see the latest assignment to a key. *)
Definition dict : Type := list (string * list string).

Fixpoint dict_get (d : dict) (key : string) : option (list string) :=
  match d with
  | [] => None
  | (k, v) :: d' => if String.eqb k key then Some v else dict_get d' key
  end.

Definition dict_set (d : dict) (key : string) (v : list string) : dict := (key, v) :: d.

Definition getitem (d : dict) (key : string) : Gen (list string) :=
  match dict_get d key with
  | Some v => ret v
  | None => raise
  end.

(** The cells under "Concept Vocabulary / Preparation": the result is
    (L, property_types, D, ordered_C, c_prime, C). *)
Definition concept_vocabulary
    (property_types : list string) (property_concepts : dict)
    (state_identities relationships : list string)
  : Gen (nat * list string * mat * list mat * mat * mat) :=
  let L := length property_types in
  let property_types := "identity"%string :: property_types in
  let property_types := property_types ++ ["relations"%string] in
  let property_concepts := dict_set property_concepts "identity" state_identities in
  let property_concepts := dict_set property_concepts "relations" relationships in
  D <- (rows <- mapM to_glove property_types ;; stack rows) ;;
  ordered_C <- mapM (fun property =>
                       concepts <- getitem property_concepts property ;;
                       rows <- mapM to_glove concepts ;;
                       stack rows)
                    property_types ;;
  let C := concat ordered_C in
  c_row <- torch_rand EMBD_DIM ;;                   (* torch.rand(1, EMBD_DIM) *)
  let c_prime := [c_row] in
  let C := C ++ c_prime in
  ret (L, property_types, D, ordered_C, c_prime, C).

(** The dict after the two assignments of the preparation cell, the
    number of concepts over a list of property types, and "row is what a
    call to_glove(token) returned". *)
Definition prepared_concepts (property_concepts : dict)
    (state_identities relationships : list string) : dict :=
  dict_set (dict_set property_concepts "identity" state_identities)
           "relations" relationships.

Definition total_concepts (property_concepts : dict) (property_types : list string) : nat :=
  list_sum (map (fun property =>
                   match dict_get property_concepts property with
                   | Some concepts => length concepts
                   | None => 0%nat
                   end)
                property_types).

Definition embeds (token : string) (row : vec) : Prop :=
  exists k, to_glove token k = Some (row, (k + EMBD_DIM)%nat).

(** itertools.permutations(range(n), 2) *)
Definition permutations_2 (n : nat) : list (nat * nat) :=
  flat_map (fun i => map (fun j => (i, j))
                         (filter (fun j => negb (Nat.eqb j i)) (seq 0 n)))
           (seq 0 n).

(** The dict [relations], keyed by pairs of node names. *)
Definition relations_dict : Type := list ((string * string) * string).

(** pair in relations *)
Definition pair_in (pair : string * string) (relations : relations_dict) : bool :=
  existsb (fun kv => String.eqb (fst (fst kv)) (fst pair)
                     && String.eqb (snd (fst kv)) (snd pair)) relations.

(** l[i] = x (the indices used by the construction are always in range). *)
Fixpoint set_nth {A : Type} (i : nat) (x : A) (l : list A) : list A :=
  match l, i with
  | [], _ => []
  | _ :: l', O => x :: l'
  | a :: l', S i' => a :: set_nth i' x l'
  end.

(** t[:, i, j] = x *)
Definition assign_pair {A : Type} (i j : nat) (x : A) (t : list (list (list A)))
  : list (list (list A)) :=
  map (fun tb => set_nth i (set_nth j x (nth i tb [])) tb) t.

(** The cell building adjacency_mask and E; the state of the loop is
    (adjacency_mask, E, scalars drawn so far). *)
Definition scene_graph_step (nodes : list string) (relations : relations_dict)
    (st : T3 * T4 * nat) (idx_pair : nat * nat) : T3 * T4 * nat :=
  let '(adjacency_mask, E, k) := st in
  let pair := (nth (fst idx_pair) nodes ""%string, nth (snd idx_pair) nodes ""%string) in
  if pair_in pair relations then
    (assign_pair (fst idx_pair) (snd idx_pair) 1 adjacency_mask,
     assign_pair (fst idx_pair) (snd idx_pair) (map u (seq k EMBD_DIM)) E,
     (k + EMBD_DIM)%nat)
  else st.

Definition scene_graph (BATCH : nat) (nodes : list string) (relations : relations_dict)
    (k : nat) : T3 * T4 * nat :=
  let adjacency_mask := repeat (repeat (repeat 0 (length nodes)) (length nodes)) BATCH in
  let E := repeat (repeat (repeat (zeros EMBD_DIM) (length nodes)) (length nodes)) BATCH in
  fold_left (scene_graph_step nodes relations)
            (permutations_2 (length nodes))
            (adjacency_mask, E, k).

(** The test of the construction loops on an index pair, and the index
    pairs that pass it, in the order the loops visit them. *)
Definition related (nodes : list string) (relations : relations_dict)
    (idx_pair : nat * nat) : bool :=
  pair_in (nth (fst idx_pair) nodes ""%string, nth (snd idx_pair) nodes ""%string)
          relations.

Definition related_pairs (nodes : list string) (relations : relations_dict)
  : list (nat * nat) :=
  filter (related nodes relations) (permutations_2 (length nodes)).

(** torch.stack of a Python list along a new leading axis; it raises on the
    empty list. *)
Definition torch_stack {A : Type} (l : list A) : option (list A) :=
  match l with
  | [] => None
  | _ => Some l
  end.

(** A hybrid sparse tensor: the matrix of indices (one row per sparse
    axis), the dense values (one row per index) and the size. *)
Record SparseTensor := {
  sp_indices : list (list nat);
  sp_values : list (list R);
  sp_size : list nat
}.

(** The loop of the sparse cell; its state is (indices, values, scalars
    drawn so far). *)
Definition sparse_step (nodes : list string) (relations : relations_dict)
    (st : list (nat * nat) * list (list R) * nat) (idx_pair : nat * nat)
  : list (nat * nat) * list (list R) * nat :=
  let '(indices, values, k) := st in
  let pair := (nth (fst idx_pair) nodes ""%string, nth (snd idx_pair) nodes ""%string) in
  if pair_in pair relations then
    (indices ++ [idx_pair],                          (* indices.append(idx_pair) *)
     values ++ [map u (seq k EMBD_DIM)],             (* values.append(torch.rand(EMBD_DIM)) *)
     (k + EMBD_DIM)%nat)
  else st.

(** torch.LongTensor(indices).t() *)
Definition index_matrix (indices : list (nat * nat)) : list (list nat) :=
  [map fst indices; map snd indices].

(** The sparse cell: sparse_adj, then E_sparse = torch.stack of BATCH copies
    (the list of the copies along the new batch axis). *)
Definition sparse_scene_graph (BATCH : nat) (nodes : list string)
    (relations : relations_dict) (k : nat) : option (list SparseTensor * nat) :=
  let st := fold_left (sparse_step nodes relations)
                      (permutations_2 (length nodes)) ([], [], k) in
  let indices := fst (fst st) in
  let values := snd (fst st) in
  match torch_stack values with
  | None => None
  | Some stacked =>
      let sparse_adj := {| sp_indices := index_matrix indices;
                           sp_values := stacked;
                           sp_size := [length nodes; length nodes; EMBD_DIM] |} in
      match torch_stack (repeat sparse_adj BATCH) with
      | None => None
      | Some E_sparse => Some (E_sparse, snd st)
      end
  end.

(** E_sparse.shape *)
Definition sparse_shape (E_sparse : list SparseTensor) : list nat :=
  length E_sparse :: match E_sparse with
                     | [] => []
                     | t :: _ => sp_size t
                     end.

(** The cell embedding the questions:
    torch.stack([torch.stack([to_glove(word) for word in question])
                 for question in questions]);
    the outer torch.stack raises on the empty list and on tensors of
    different sizes. *)
Definition embed_questions (questions : list (list string)) : Gen (list (list (list R))) :=
  per_question <- mapM (fun question =>
                          rows <- mapM to_glove question ;; stack rows)
                       questions ;;
  match per_question with
  | [] => raise
  | first :: rest =>
      if forallb (fun t => Nat.eqb (length t) (length first)) rest
      then ret per_question
      else raise
  end.

End Construction.

(** ** A small instance

    One batch element, embeddings of width 1, two nodes without relation
    between them, no domain property type (L = 0, so D has the rows of
    identity and relations), N = 3 steps, and identity bilinear weights as
    the notebook initialises them.  It serves to run the cells by hand. *)

Definition ex_nodes : list string := ["kitten"%string; "shirt"%string].
Definition ex_relations : relations_dict := [].
Definition ex_D : mat := [[0]; [0]].
Definition ex_property_W : T3 := [[[1]]].
Definition ex_W : mat := [[1]].
Definition ex_W_r : vec := [1].
Definition ex_W_s : vec := [1].
Definition ex_C : mat := [[0]].
Definition ex_classifier_0 : Linear := {| weight := [[1; 0]; [0; 1]]; bias := [0; 0] |}.
Definition ex_classifier_2 : Linear := {| weight := [[1; 1]]; bias := [0] |}.
Definition ex_cell (x : vec) (hc : vec * vec) : vec * vec := (x, snd hc).

(** S: the kitten has state 1 for identity, the shirt 0. *)
Definition ex_S : T4 := [[[[1]]; [[0]]]].
(** E and adjacency_mask as the construction cell builds them here. *)
Definition ex_E : T4 := [[[[0]; [0]]; [[0]; [0]]]].
Definition ex_mask : T3 := [[[0; 0]; [0; 0]]].
(** E with the embedding of the absent pair (kitten, shirt) set to 1. *)
Definition ex_E_perturbed : T4 := [[[[0]; [1]]; [[0]; [0]]]].
(** E when (kitten, shirt) is a relation whose embedding is 1. *)
Definition ex_E_edge : T4 := [[[[0]; [1]]; [[0]; [0]]]].
(** Instructions r_0 .. r_3: the first has weight 1, the others none. *)
Definition ex_r : T3 := [[[1]; [0]; [0]; [0]]].
(** The same with r_1 and r_2 replaced. *)
Definition ex_r' : T3 := [[[1]; [1]; [1]; [0]]].
Definition ex_r_zero : mat := [[0]].
(** A one-token question. *)
Definition ex_question : T3 := [[[1]]].
(** The notebook's vocabulary. *)
Definition ex_property_types : list string := ["color"%string; "material"%string].
Definition ex_property_concepts : dict :=
  [("color"%string, ["red"%string; "green"%string; "blue"%string]);
   ("material"%string, ["cloth"%string; "rubber"%string])].
Definition ex_state_identities : list string := ["cat"%string; "shirt"%string].
Definition ex_relationships : list string := ["holding"%string; "behind"%string].
(** The relation (kitten, shirt), weights R_i over the single property
    type, node relevances, and a question of two words. *)
Definition ex_relations_edge : relations_dict :=
  [(("kitten"%string, "shirt"%string), "bite"%string)].
Definition ex_property_R_i : mat := [[1]].
Definition ex_gamma_s : T3 := [[[1]; [0]]].
Definition ex_questions : list (list string) := [["what"%string; "color"%string]].
(** A second instance, with embeddings of width 2: the pair (shirt, kitten)
    is an edge, the pair (kitten, shirt) is not; the same E with an entry
    stored at the absent pair where the instruction [1; 0] has no weight. *)
Definition ex2_W : mat := [[1; 0]; [0; 1]].
Definition ex2_W_r : vec := [1; 1].
Definition ex2_mask : T3 := [[[0; 0]; [1; 0]]].
Definition ex2_E : T4 := [[[[0; 0]; [0; 0]]; [[1 / 2; 1 / 4]; [0; 0]]]].
Definition ex2_E_perturbed : T4 := [[[[0; 0]; [0; 5]]; [[1 / 2; 1 / 4]; [0; 0]]]].
Definition ex2_r_i : mat := [[1; 0]].
(** C as the vocabulary cell draws it for one identity and one relationship
    when every scalar of the stream is 1. *)
Definition ex_C_drawn : mat := [[1]; [1]; [1]].

(** ** The model: instructions, simulation and classifier *)

Section NSM.

Set Default Proof Using "Type".

(** Hyperparameters and the globals the cells read. *)
Variables (EMBD_DIM N L : nat).
Variable nodes : list string.
Variable D : mat.                       (* [L+2, EMBD_DIM] *)
Variable property_W : T3.               (* [L+1, EMBD_DIM, EMBD_DIM] *)
Variable W_L_plus_1 : mat.              (* [EMBD_DIM, EMBD_DIM] *)
(** [W_r], [W_s] are [nn.Linear(EMBD_DIM, 1, bias=False)]: each is given by
    the single row of its 1 x EMBD_DIM weight, and the [squeeze(2)] after
    the call removes the unit output axis. *)
Variables (W_r W_s : vec).

(** p_i = torch.ones(BATCH, len(nodes)) / len(nodes) *)
Definition p_0 (BATCH : nat) : mat :=
  map (map (fun x => x / INR (length nodes))) (repeat (repeat 1 (length nodes)) BATCH).

(** r_i = r[:,i,:] *)
Definition r_i (i : nat) (r : T3) : mat := select [] i r.

(** R_i = F.softmax(torch.bmm(D.expand(BATCH, -1, EMBD_DIM), r_i.unsqueeze(2)),
    dim=1).squeeze(2): each batch element is the matrix-vector product
    D r_i; the unit axis added by unsqueeze is removed by squeeze. *)
Definition R_i (BATCH : nat) (r_i : mat) : mat :=
  map softmax (map2 (fun Db rb => map (fun row => dot row rb) Db) (expand BATCH D) r_i).

(** r_i_prime = R_i[:,-1].unsqueeze(1) *)
Definition r_i_prime (R_i : mat) : mat := map (fun Rb => [last Rb 0]) R_i.

(** property_R_i = R_i[:,:-1] *)
Definition property_R_i (R_i : mat) : mat := map (@removelast R) R_i.

(** S.transpose(2,1) on one batch element: [n, L+1, d] to [L+1, n, d]. *)
Definition transpose_2_1 (Sb : T3) : T3 :=
  map (fun j => map (fun props => nth j props []) Sb) (seq 0 (L + 1)).

(** The cell computing 𝛾_i_s (vectorised form). *)
Definition 𝛾_i_s (S_ : T4) (property_R_i r_i : mat) : T3 :=
  map (map (map elu))
    (map (msum (length nodes) EMBD_DIM)                              (* torch.sum(., dim=1) *)
      (map2 (fun Rb X => map2 (fun Rbj Xj => map (vscale Rbj) Xj) Rb X)  (* property_R_i.view(BATCH,-1,1,1) * . *)
        property_R_i
        (map2 (fun X rb => map (map (fun v => vmul v rb)) X)         (* . * r_i.view(BATCH,1,1,EMBD_DIM) *)
          (map (fun Sb => map2 (matmul EMBD_DIM) (transpose_2_1 Sb) property_W) S_)
          r_i))).

(** The cell computing 𝛾_i_e. *)
Definition 𝛾_i_e (BATCH : nat) (E : T4) (r_i : mat) : T4 :=
  map (view (length nodes) (length nodes))                           (* .view(BATCH, n, n, EMBD_DIM) *)
    (map (map (map elu))
      (map2 (fun X rb => map (fun v => vmul v rb) X)                 (* . * r_i.unsqueeze(1) *)
        (bmm EMBD_DIM (map (@concat vec) E)                          (* E.view(BATCH, -1, EMBD_DIM) *)
                      (expand BATCH W_L_plus_1))
        r_i)).

(** The cell computing p_i_r. *)
Definition p_i_r (gamma_e : T4) (p_i : mat) : mat :=
  map softmax
    (map (map (fun v => dot v W_r))                                  (* W_r(.).squeeze(2) *)
      (map (msum (length nodes) EMBD_DIM)                            (* torch.sum(., dim=1) *)
        (map2 (fun G pb => map2 (fun Gy py => map (map (fun g => g * py)) Gy) G pb)
              gamma_e p_i))).                                        (* 𝛾_i_e * p_i.view(BATCH,-1,1,1) *)

(** The cell computing p_i_s. *)
Definition p_i_s (gamma_s : T3) : mat :=
  map softmax (map (map (fun v => dot v W_s)) gamma_s).

(** Product of a [BATCH, 1] tensor with a [BATCH, n] tensor (broadcast
    along the second axis). *)
Definition bcast_mul (a b : mat) : mat :=
  map2 (fun ab bb => map (Rmult (hd 0 ab)) bb) a b.

(** p_i = r_i_prime * p_i_r + (1 - r_i_prime) * p_i_s *)
Definition blend (r_i_prime pr ps : mat) : mat :=
  map2 vadd (bcast_mul r_i_prime pr)
            (bcast_mul (map (map (fun x => 1 - x)) r_i_prime) ps).

(** One pass over the cells between "for the ith recurrent step" and the
    assignment to p_i: the new distribution from step index [i] and the
    previous distribution. *)
Definition simulation_step (BATCH : nat) (S_ E : T4) (r : T3) (i : nat) (p_i : mat) : mat :=
  let r_i := r_i i r in
  let R_i := R_i BATCH r_i in
  let r_i_prime := r_i_prime R_i in
  let property_R_i := property_R_i R_i in
  let g_s := 𝛾_i_s S_ property_R_i r_i in
  let g_e := 𝛾_i_e BATCH E r_i in
  blend r_i_prime (p_i_r g_e p_i) (p_i_s g_s).

(** The distribution the notebook holds when it reaches the final
    classifier: the script sets [i=0] and executes the cells once. *)
Definition p_final (BATCH : nat) (S_ E : T4) (r : T3) : mat :=
  let i := 0%nat in
  simulation_step BATCH S_ E r i (p_0 BATCH).

(** The recurrent loop announced by the notebook's text,
    [for i in range(N): MODEL SIMULATION]. *)
Definition p_loop (BATCH : nat) (S_ E : T4) (r : T3) : mat :=
  fold_left (fun p i => simulation_step BATCH S_ E r i p) (seq 0 N) (p_0 BATCH).

(** *** The alternative formulations kept in the commented-out cells *)

(** stacked_properties, torch.stack(., dim=2), torch.sum(., dim=2), F.elu. *)
Definition alt_𝛾_i_s (BATCH : nat) (S_ : T4) (property_R_i r_i : mat) : T3 :=
  let stacked_properties :=
    map (fun property_idx =>
           map2 (fun X Rrow => map (fun v => vmul v Rrow) X)
             (map2 (fun rb X => map (fun v => vmul rb v) X)          (* r_i.unsqueeze(1) * . *)
                r_i
                (bmm EMBD_DIM
                   (map (select [] property_idx) S_)                 (* S[:, :, property_idx, :] *)
                   (expand BATCH (nth property_idx property_W []))))
             (* property_R_i[:, property_idx].view(BATCH, 1, -1).expand(BATCH, 1, EMBD_DIM) *)
             (map (fun Rb => repeat (nth property_idx Rb 0) EMBD_DIM) property_R_i))
        (seq 0 (L + 1)) in
  map (fun b =>
         map (fun s =>
                map elu
                  (vsum EMBD_DIM
                     (map (fun T => nth s (nth b T []) []) stacked_properties)))
             (seq 0 (length nodes)))
      (seq 0 BATCH).

(** adj = 𝛾_i_e.sum(dim=3) > 0 *)
Definition adj (gamma_e : T4) : list (list (list bool)) :=
  map (map (map (fun v => if Rlt_dec 0 (sumR v) then true else false))) gamma_e.

(** The triple loop over batch_idx, x and y; [batch, height, width, dim]
    is the shape [BATCH, len(nodes), len(nodes), EMBD_DIM] of 𝛾_i_e. *)
Definition alt_p_i_r (BATCH : nat) (gamma_e : T4) (p_i : mat) : mat :=
  let height := length nodes in
  let width := length nodes in
  let dim := EMBD_DIM in
  let all_batch :=
    map (fun batch_idx =>
           map (fun x =>
                  let weighted_sum :=
                    fold_left
                      (fun ws y =>
                         if nth x (nth y (nth batch_idx (adj gamma_e) []) []) false
                         then vadd ws (vscale (nth y (nth batch_idx p_i []) 0)
                                              (nth x (nth y (nth batch_idx gamma_e []) []) []))
                         else ws)
                      (seq 0 height) (zeros dim) in
                  dot weighted_sum W_r)                               (* W_r(weighted_sum).squeeze(0) *)
               (seq 0 width))
        (seq 0 BATCH) in
  map softmax all_batch.

(** *** The relational update gated by the adjacency mask

    Follows the specification's reading of step 4: the contribution of
    a pair is multiplied by its adjacency flag before the sum. *)
Definition masked_gamma_e (adjacency_mask : T3) (gamma_e : T4) : T4 :=
  map2 (map2 (map2 (fun flag v => vscale flag v))) adjacency_mask gamma_e.

Definition p_i_r_masked (adjacency_mask : T3) (gamma_e : T4) (p_i : mat) : mat :=
  p_i_r (masked_gamma_e adjacency_mask gamma_e) p_i.

(** *** Final classifier *)

(** classifier = nn.Sequential(nn.Linear(2*EMBD_DIM, 2*EMBD_DIM), nn.ELU(),
    nn.Linear(2*EMBD_DIM, OUT_DIM)) *)
Variables (classifier_0 classifier_2 : Linear).

(** property_R_N = F.softmax(torch.bmm(D.expand(BATCH, -1, EMBD_DIM),
    r_N.unsqueeze(2)), dim=1).squeeze(2)[:,:-1] with r_N = r[:,N,:] *)
Definition property_R_N (BATCH : nat) (r : T3) : mat :=
  let r_N := r_i N r in
  map (@removelast R) (R_i BATCH r_N).

(** m = torch.bmm(p_i.unsqueeze(1),
                  torch.sum(property_R_N.view(BATCH, 1, L+1, 1) * S, dim=2)) *)
Definition m (p_i : mat) (prop_R_N : mat) (S_ : T4) : T3 :=
  bmm EMBD_DIM
    (map (fun pb => [pb]) p_i)                                        (* p_i.unsqueeze(1) *)
    (map (map (vsum EMBD_DIM))                                        (* torch.sum(., dim=2) *)
       (map2 (fun Rb Sb => map (fun props => map2 vscale Rb props) Sb)
             prop_R_N S_)).

Definition classifier (x : vec) : vec :=
  apply_linear classifier_2 (map elu (apply_linear classifier_0 x)).

(** pre_logits = classifier(torch.cat([m, q], dim=2).squeeze(1)) *)
Definition pre_logits (m q : T3) : mat :=
  map classifier
    (map (hd [])                                                      (* .squeeze(1) *)
       (map2 (map2 (@app R)) m q)).                                   (* torch.cat([m, q], dim=2) *)

(** *** Reasoning instructions *)

Variable C : mat.                       (* [totalConcepts + 1, EMBD_DIM] *)
Variable W : mat.                       (* [EMBD_DIM, EMBD_DIM] *)

(** [nn.LSTM(input_size=EMBD_DIM, hidden_size=EMBD_DIM, batch_first=True)]
    is a torch module: it runs one recurrent cell along each sequence of
    the batch.  The cell, from an input and a state (h, c) to the next
    state, is left abstract. *)
Variables (encoder_cell decoder_cell : vec -> vec * vec -> vec * vec).

Fixpoint lstm_seq (cell : vec -> vec * vec -> vec * vec)
    (xs : list vec) (hc : vec * vec) : list vec * (vec * vec) :=
  match xs with
  | [] => ([], hc)
  | x :: xs' =>
      let hc' := cell x hc in
      let out := lstm_seq cell xs' hc' in
      (fst hc' :: fst out, snd out)
  end.

(** output, (h_n, c_n) = lstm(input, (h_0, c_0)); the unit layer axis of
    h and c is left out. *)
Definition nn_LSTM (cell : vec -> vec * vec -> vec * vec)
    (input : T3) (hidden : mat * mat) : T3 * (mat * mat) :=
  let runs := map2 (lstm_seq cell) input (combine (fst hidden) (snd hidden)) in
  (map fst runs, (map (fun o => fst (snd o)) runs, map (fun o => snd (snd o)) runs)).

(** P_i = softmax(bmm(bmm(embd_questions, W.expand(BATCH, EMBD_DIM, EMBD_DIM)),
                     C.expand(BATCH, -1, EMBD_DIM).transpose(1,2)), dim=2) *)
Definition P_i (BATCH : nat) (embd_questions : T3) : T3 :=
  map (map softmax)
    (bmm (length C)
       (bmm EMBD_DIM embd_questions (expand BATCH W))
       (map (transpose EMBD_DIM) (expand BATCH C))).

(** V = (P_i[:, :, -1]).unsqueeze(2) * embd_questions
        + torch.bmm(P_i[:, :, :-1], C[:-1, :].expand(BATCH, -1, EMBD_DIM)) *)
Definition V (BATCH : nat) (embd_questions P : T3) : T3 :=
  map2 (map2 vadd)
    (map2 (map2 (fun Pt w => vscale (last Pt 0) w)) P embd_questions)
    (bmm EMBD_DIM (map (map (@removelast R)) P) (expand BATCH (removelast C))).

(** _, encoder_hidden = encoder_lstm(V): the initial state is zero. *)
Definition encoder_hidden (V : T3) : mat * mat :=
  let h_0 := repeat (zeros EMBD_DIM) (length V) in
  snd (nn_LSTM encoder_cell V (h_0, h_0)).

(** (q, _) = encoder_hidden; q = q.view(BATCH, 1, EMBD_DIM) *)
Definition q (V : T3) : T3 := map (fun h => [h]) (fst (encoder_hidden V)).

(** h, _ = decoder_lstm(q.expand(BATCH, N+1, EMBD_DIM), encoder_hidden) *)
Definition h (V : T3) : T3 :=
  fst (nn_LSTM decoder_cell
         (map (fun qb => repeat (hd [] qb) (N + 1)) (q V))
         (encoder_hidden V)).

(** r = torch.bmm(torch.softmax(torch.bmm(h, V.transpose(1, 2)), dim=2), V) *)
Definition r (V : T3) : T3 :=
  map2 (matmul EMBD_DIM)
    (map (map softmax)
       (map2 (fun hb Vb => matmul (length Vb) hb (transpose EMBD_DIM Vb)) (h V) V))
    V.

(** *** The whole notebook, from the embedded questions and the scene
    graph tensors to the logits *)
Definition forward (BATCH : nat) (embd_questions : T3) (S_ E : T4) : mat :=
  let V := V BATCH embd_questions (P_i BATCH embd_questions) in
  let q := q V in
  let r := r V in
  let p_i := p_final BATCH S_ E r in
  let m := m p_i (property_R_N BATCH r) S_ in
  pre_logits m q.


(** *** One batch element of the relevance and update cells *)

(** 𝛾_i_e at one pair of one batch element, from the instruction row
    and the pair's embedding. *)
Definition gamma_e_entry (rb e : vec) : vec :=
  map elu (vmul (vecmat EMBD_DIM e W_L_plus_1) rb).

(** p_i_r for one batch element. *)
Definition p_r_row (G : T3) (pb : vec) : vec :=
  softmax
    (map (fun v => dot v W_r)
       (msum (length nodes) EMBD_DIM
          (map2 (fun Gy py => map (map (fun g => g * py)) Gy) G pb))).

(** V for one word of one question: the word weighted by the last entry
    of its row of P_i, plus the rows of C but the last weighted by the
    other entries. *)
Definition V_word (w : vec) : vec :=
  let Pt := softmax (vecmat (length C) (vecmat EMBD_DIM w W) (transpose EMBD_DIM C)) in
  vadd (vscale (last Pt 0) w) (vecmat EMBD_DIM (removelast Pt) (removelast C)).

(** Weights rescaled to sum to 1 (a normalised average over the
    property types, which the classifier does not take). *)
Definition normalized (w : vec) : vec := map (fun x => x / sumR w) w.

(** *** Shapes and distributions *)

Definition shape2 {A : Type} (a b : nat) (t : list (list A)) : Prop :=
  length t = a /\ Forall (fun row => length row = b) t.
Definition shape3 {A : Type} (a b c : nat) (t : list (list (list A))) : Prop :=
  length t = a /\ Forall (shape2 b c) t.
Definition shape4 {A : Type} (a b c d : nat) (t : list (list (list (list A)))) : Prop :=
  length t = a /\ Forall (shape3 b c d) t.

(** What holds of (adjacency_mask, E) once the construction loop has gone
    through the index pairs [visited]: both tensors keep their shapes, a
    flag is 1, or it is 0 and the embedding beside it is the zero vector,
    and a pair not visited or without a relation still has flag 0 and the
    zero vector. *)
Definition scene_graph_inv (relations : relations_dict) (BATCH : nat)
    (visited : list (nat * nat)) (st : T3 * T4 * nat) : Prop :=
  let adjacency_mask := fst (fst st) in
  let E := snd (fst st) in
  shape3 BATCH (length nodes) (length nodes) adjacency_mask
  /\ shape4 BATCH (length nodes) (length nodes) EMBD_DIM E
  /\ forall b i j, (b < BATCH)%nat -> (i < length nodes)%nat -> (j < length nodes)%nat ->
       (entry 0 adjacency_mask b i j = 1
        \/ (entry 0 adjacency_mask b i j = 0 /\ entry [] E b i j = zeros EMBD_DIM))
       /\ (~ In (i, j) visited
           \/ pair_in (nth i nodes ""%string, nth j nodes ""%string) relations = false ->
           entry 0 adjacency_mask b i j = 0 /\ entry [] E b i j = zeros EMBD_DIM).

(** A probability distribution: entries >= 0 that sum to 1. *)
Definition is_distribution (v : vec) : Prop :=
  Forall (fun x => 0 <= x) v /\ sumR v = 1.

(** ** Lists and elementwise operations *)

Lemma length_map2 {A B Z : Type} (f : A -> B -> Z) xs ys :
  length (map2 f xs ys) = Nat.min (length xs) (length ys).
Proof.
  revert ys; induction xs as [|x xs IH]; intros [|y ys]; simpl; auto.
Qed.

Lemma map2_app {A B Z : Type} (f : A -> B -> Z) xs1 xs2 ys1 ys2 :
  length xs1 = length ys1 ->
  map2 f (xs1 ++ xs2) (ys1 ++ ys2) = map2 f xs1 ys1 ++ map2 f xs2 ys2.
Proof.
  revert ys1; induction xs1 as [|x xs1 IH]; intros [|y ys1] H; simpl in *;
    try discriminate; auto.
  f_equal; apply IH; lia.
Qed.

Lemma map2_map_l {A A' B Z : Type} (f : A' -> B -> Z) (g : A -> A') xs ys :
  map2 f (map g xs) ys = map2 (fun x y => f (g x) y) xs ys.
Proof.
  revert ys; induction xs as [|x xs IH]; intros [|y ys]; simpl; auto.
  f_equal; apply IH.
Qed.

Lemma map2_map_r {A B B' Z : Type} (f : A -> B' -> Z) (g : B -> B') xs ys :
  map2 f xs (map g ys) = map2 (fun x y => f x (g y)) xs ys.
Proof.
  revert ys; induction xs as [|x xs IH]; intros [|y ys]; simpl; auto.
  f_equal; apply IH.
Qed.

Lemma map_map2 {A B Z Z' : Type} (g : Z -> Z') (f : A -> B -> Z) xs ys :
  map g (map2 f xs ys) = map2 (fun x y => g (f x y)) xs ys.
Proof.
  revert ys; induction xs as [|x xs IH]; intros [|y ys]; simpl; auto.
  f_equal; apply IH.
Qed.

Lemma map2_ext {A B Z : Type} (f g : A -> B -> Z) xs ys :
  (forall x y, In x xs -> In y ys -> f x y = g x y) ->
  map2 f xs ys = map2 g xs ys.
Proof.
  revert ys; induction xs as [|x xs IH]; intros [|y ys] H; simpl; auto.
  f_equal; [apply H; simpl; auto | apply IH; intros; apply H; simpl; auto].
Qed.

Lemma map2_repeat_l {A B Z : Type} (f : A -> B -> Z) a n ys :
  (length ys <= n)%nat -> map2 f (repeat a n) ys = map (f a) ys.
Proof.
  revert n; induction ys as [|y ys IH]; intros [|n] H; simpl in *; auto; try lia.
  f_equal; apply IH; lia.
Qed.

Lemma map2_same {A Z : Type} (f : A -> A -> Z) xs :
  map2 f xs xs = map (fun x => f x x) xs.
Proof. induction xs; simpl; congruence. Qed.

Lemma nth_map2 {A B Z : Type} (f : A -> B -> Z) xs ys i da db dc :
  (i < length xs)%nat -> (i < length ys)%nat ->
  nth i (map2 f xs ys) dc = f (nth i xs da) (nth i ys db).
Proof.
  revert ys i; induction xs as [|x xs IH]; intros [|y ys] [|i] Hx Hy;
    simpl in *; try lia; auto.
  apply IH; lia.
Qed.

Lemma nth_map_lt {A B : Type} (f : A -> B) xs i da db :
  (i < length xs)%nat -> nth i (map f xs) db = f (nth i xs da).
Proof.
  revert i; induction xs as [|x xs IH]; intros [|i] H; simpl in *; try lia; auto.
  apply IH; lia.
Qed.

Lemma Forall_map2 {A B Z : Type} (P : A -> Prop) (Q : B -> Prop) (T : Z -> Prop)
    (f : A -> B -> Z) xs ys :
  (forall x y, P x -> Q y -> T (f x y)) ->
  Forall P xs -> Forall Q ys -> Forall T (map2 f xs ys).
Proof.
  intros Hf Hx; revert ys; induction Hx; intros ys Hy; destruct Hy; simpl;
    constructor; auto.
Qed.

Lemma Forall_nth_lt {A : Type} (P : A -> Prop) xs i d :
  Forall P xs -> (i < length xs)%nat -> P (nth i xs d).
Proof.
  intros H Hi. rewrite Forall_forall in H. apply H, nth_In, Hi.
Qed.

(** ** Sums, softmax and elu *)

Lemma sumR_app a b : sumR (a ++ b) = sumR a + sumR b.
Proof. induction a; simpl; lra. Qed.

Lemma sumR_map_scale c v : sumR (map (Rmult c) v) = c * sumR v.
Proof. induction v; simpl; lra. Qed.

Lemma sumR_map_div (f : R -> R) s v :
  sumR (map (fun x => f x / s) v) = sumR (map f v) / s.
Proof. induction v; simpl; [unfold Rdiv; ring | rewrite IHv; unfold Rdiv; ring]. Qed.

Lemma sumR_vadd a b :
  length a = length b -> sumR (vadd a b) = sumR a + sumR b.
Proof.
  revert b; induction a as [|x a IH]; intros [|y b] H; simpl in *;
    try discriminate; try lra.
  unfold vadd in IH. rewrite IH by lia. lra.
Qed.

Lemma sumR_exp_pos v : v <> [] -> 0 < sumR (map exp v).
Proof.
  destruct v as [|x v]; [congruence | intros _]. simpl.
  assert (0 <= sumR (map exp v)).
  { induction v as [|y v IH]; simpl; [lra | pose proof (exp_pos y); lra]. }
  pose proof (exp_pos x); lra.
Qed.

Lemma sumR_exp_ge v x : In x v -> exp x <= sumR (map exp v).
Proof.
  induction v as [|y v IH]; simpl; [intros []|].
  intros [->|H].
  - destruct v as [|z v]; simpl; [lra|].
    pose proof (sumR_exp_pos (z :: v)). simpl in H. assert (z :: v <> []) by congruence.
    specialize (H H0). lra.
  - specialize (IH H). pose proof (exp_pos y). lra.
Qed.

Lemma length_softmax v : length (softmax v) = length v.
Proof. unfold softmax; apply length_map. Qed.

Lemma softmax_sum v : v <> [] -> sumR (softmax v) = 1.
Proof.
  intros H. unfold softmax. rewrite sumR_map_div.
  pose proof (sumR_exp_pos v H). field. lra.
Qed.

Lemma softmax_entries v : Forall (fun x => 0 < x <= 1) (softmax v).
Proof.
  unfold softmax. rewrite Forall_map, Forall_forall. intros x Hx.
  assert (Hv : v <> []) by (intros ->; inversion Hx).
  pose proof (sumR_exp_pos v Hv). pose proof (sumR_exp_ge v x Hx).
  pose proof (exp_pos x). split.
  - apply Rdiv_lt_0_compat; assumption.
  - apply Rmult_le_reg_r with (sumR (map exp v)); [assumption|].
    unfold Rdiv. rewrite Rmult_assoc, Rinv_l by lra. lra.
Qed.

Lemma softmax_distribution v : v <> [] -> is_distribution (softmax v).
Proof.
  intros H; split; [|apply softmax_sum, H].
  eapply Forall_impl; [|apply softmax_entries]. simpl; intros; lra.
Qed.

Lemma elu_0 : elu 0 = 0.
Proof. unfold elu. destruct (Rlt_dec 0 0); [lra | rewrite exp_0; lra]. Qed.

(** ** One batch element at a time

    The cells act on every batch element separately; the lemmas below give
    each batched tensor as a map over the batch. *)

Lemma R_rows BATCH r_i :
  (length r_i <= BATCH)%nat ->
  R_i BATCH r_i = map (fun rb => softmax (map (fun row => dot row rb) D)) r_i.
Proof.
  intros H. unfold R_i, expand. rewrite map2_repeat_l by assumption.
  rewrite map_map. reflexivity.
Qed.

Lemma R_rows_softmax BATCH r_i :
  Forall (fun Rb => exists v, Rb = softmax v /\ length v = length D) (R_i BATCH r_i).
Proof.
  unfold R_i, expand. rewrite Forall_map.
  apply Forall_map2 with (P := fun Db => Db = D) (Q := fun _ => True).
  - intros x y -> _. eexists; split; [reflexivity|]. apply length_map.
  - apply Forall_forall. intros x Hx. apply repeat_spec in Hx. assumption.
  - apply Forall_forall; auto.
Qed.

Lemma last_softmax_bounds v : 0 <= last (softmax v) 0 <= 1.
Proof.
  destruct (softmax v) as [|x l] eqn:E; [simpl; lra|].
  pose proof (softmax_entries v) as H. rewrite E in H.
  assert (Hin : In (last (x :: l) 0) (x :: l)).
  { destruct (exists_last (l := x :: l)) as (l' & a & ->); [congruence|].
    rewrite last_last. apply in_or_app; right; simpl; auto. }
  rewrite Forall_forall in H. specialize (H _ Hin). lra.
Qed.

Lemma r_prime_bounds BATCH r_i :
  Forall (fun rp => exists a, rp = [a] /\ 0 <= a <= 1) (r_i_prime (R_i BATCH r_i)).
Proof.
  unfold r_i_prime. rewrite Forall_map.
  eapply Forall_impl; [|apply R_rows_softmax].
  intros Rb (v & -> & _). eexists; split; [reflexivity|]. apply last_softmax_bounds.
Qed.


(** Fuse nested maps into one traversal. *)
Ltac fuse_maps :=
  repeat (rewrite map_map || rewrite map2_map_l || rewrite map2_map_r
          || rewrite map_map2).

Lemma map2_repeat_r {A B Z : Type} (f : A -> B -> Z) xs b n :
  (length xs <= n)%nat -> map2 f xs (repeat b n) = map (fun x => f x b) xs.
Proof.
  revert n; induction xs as [|x xs IH]; intros [|n] H; simpl in *; auto; try lia.
  f_equal; apply IH; lia.
Qed.

Lemma length_view {A : Type} rows width (l : list A) :
  length (view rows width l) = rows.
Proof. unfold view. rewrite length_map, length_seq. reflexivity. Qed.

Lemma view_concat {A : Type} rows width (t : list (list A)) :
  shape2 rows width t -> view rows width (concat t) = t.
Proof.
  unfold view. intros [Hlen Hrows]. subst rows.
  induction Hrows as [|row t Hrow Hrows IH]; [reflexivity|].
  change (length (row :: t)) with (S (length t)).
  rewrite <- cons_seq, <- seq_shift. cbn [map concat Nat.mul skipn].
  rewrite map_map.
  rewrite firstn_app, Hrow, Nat.sub_diag, firstn_all2 by lia.
  simpl. rewrite app_nil_r. f_equal.
  rewrite <- IH at 2. apply map_ext. intros i.
  replace (width + i * width)%nat with (length row + i * width)%nat by lia.
  rewrite skipn_app, skipn_all2 by lia. simpl.
  replace (length row + i * width - length row)%nat with (i * width)%nat by lia.
  reflexivity.
Qed.

Lemma shape2_map {A B : Type} (g : A -> B) a b (t : list (list A)) :
  shape2 a b t -> shape2 a b (map (map g) t).
Proof.
  intros [H1 H2]; split; [rewrite length_map; assumption|].
  rewrite Forall_map. eapply Forall_impl; [|exact H2].
  simpl; intros row Hrow. rewrite length_map; assumption.
Qed.

Lemma view_map_concat {A B : Type} (g : A -> B) rows width (t : list (list A)) :
  shape2 rows width t -> view rows width (map g (concat t)) = map (map g) t.
Proof.
  intros H. rewrite concat_map. apply view_concat, shape2_map, H.
Qed.

Lemma length_concat_shape2 {A : Type} rows width (t : list (list A)) :
  shape2 rows width t -> length (concat t) = (rows * width)%nat.
Proof.
  intros [H1 H2]. subst rows.
  induction H2 as [|row t Hrow _ IH]; simpl; [reflexivity|].
  rewrite length_app, IH, Hrow. reflexivity.
Qed.

Lemma length_msum n d Ms :
  Forall (fun M => length M = n) Ms -> length (msum n d Ms) = n.
Proof.
  unfold msum. induction 1 as [|M Ms HM _ IH]; simpl.
  - apply repeat_length.
  - unfold madd at 1. rewrite length_map2, IH, HM. apply Nat.min_id.
Qed.

Lemma gamma_i_e_rows BATCH E r_i :
  (length E <= BATCH)%nat ->
  Forall (shape2 (length nodes) (length nodes)) E ->
  𝛾_i_e BATCH E r_i = map2 (fun Eb rb => map (map (gamma_e_entry rb)) Eb) E r_i.
Proof.
  intros HB HE. unfold 𝛾_i_e, bmm, expand.
  rewrite map2_repeat_r by (rewrite length_map; assumption).
  fuse_maps.
  apply map2_ext. intros Eb rb HEb _.
  rewrite Forall_forall in HE. specialize (HE _ HEb).
  unfold matmul. rewrite !map_map.
  apply (view_map_concat (gamma_e_entry rb)), HE.
Qed.


Lemma p_i_r_rows gamma_e p_i :
  p_i_r gamma_e p_i = map2 p_r_row gamma_e p_i.
Proof. unfold p_i_r. fuse_maps. reflexivity. Qed.

Lemma length_p_r_row (G : T3) pb :
  Forall (fun Gy => length Gy = length nodes) G ->
  length (p_r_row G pb) = length nodes.
Proof.
  intros HG. unfold p_r_row. rewrite length_softmax, length_map.
  apply length_msum.
  apply Forall_map2 with (P := fun Gy : mat => length Gy = length nodes)
                         (Q := fun _ : R => True);
    [|assumption|apply Forall_forall; auto].
  intros Gy py HGy _. rewrite length_map. assumption.
Qed.

Lemma gamma_i_e_shape BATCH E r_i :
  Forall (shape2 (length nodes) (length nodes)) E ->
  Forall (shape2 (length nodes) (length nodes)) (𝛾_i_e BATCH E r_i).
Proof.
  intros HE. unfold 𝛾_i_e, bmm, expand. fuse_maps.
  apply Forall_map2 with (P := fun X : mat => length X = (length nodes * length nodes)%nat)
                         (Q := fun _ : vec => True);
    [| |apply Forall_forall; auto].
  - intros X rb HX _. split; [apply length_view|].
    unfold view. rewrite Forall_map, Forall_forall. intros i Hi.
    apply in_seq in Hi. rewrite length_firstn, length_skipn, !length_map, HX. nia.
  - apply Forall_map2 with (P := shape2 (length nodes) (length nodes))
                           (Q := fun _ : mat => True);
      [|exact HE|apply Forall_forall; auto].
    intros Eb Wb HEb _. unfold matmul. rewrite length_map.
    apply length_concat_shape2, HEb.
Qed.

Lemma p_i_r_distribution BATCH E r_i p_i :
  nodes <> [] ->
  Forall (shape2 (length nodes) (length nodes)) E ->
  Forall (fun row => is_distribution row /\ length row = length nodes)
         (p_i_r (𝛾_i_e BATCH E r_i) p_i).
Proof.
  intros Hn HE. rewrite p_i_r_rows.
  apply Forall_map2 with (P := shape2 (length nodes) (length nodes))
                         (Q := fun _ : vec => True);
    [|apply gamma_i_e_shape, HE|apply Forall_forall; auto].
  intros G pb [HG1 HG2] _.
  assert (Hlen : length (p_r_row G pb) = length nodes) by (apply length_p_r_row, HG2).
  split; [|assumption].
  unfold p_r_row in *. apply softmax_distribution.
  rewrite length_softmax in Hlen. intros Hnil. rewrite Hnil in Hlen.
  destruct nodes; [congruence|discriminate].
Qed.

Lemma gamma_i_s_shape (S_ : T4) property_R_i r_i :
  Forall (fun Sb => length Sb = length nodes) S_ ->
  Forall (fun Gs => length Gs = length nodes) (𝛾_i_s S_ property_R_i r_i).
Proof.
  intros HS. unfold 𝛾_i_s. rewrite !Forall_map.
  apply Forall_map2 with
    (P := fun _ : vec => True)
    (Q := fun X : T3 => Forall (fun Xj => length Xj = length nodes) X);
    [|apply Forall_forall; auto|].
  - intros Rb X _ HX. rewrite length_map. apply length_msum.
    apply Forall_map2 with (P := fun _ : R => True)
                           (Q := fun Xj : mat => length Xj = length nodes);
      [|apply Forall_forall; auto|assumption].
    intros Rbj Xj _ HXj. rewrite length_map. assumption.
  - apply Forall_map2 with
      (P := fun X : T3 => Forall (fun Xj => length Xj = length nodes) X)
      (Q := fun _ : vec => True);
      [| |apply Forall_forall; auto].
    + intros X rb HX _. rewrite Forall_map. eapply Forall_impl; [|exact HX].
      simpl. intros Xj HXj. rewrite length_map. assumption.
    + rewrite Forall_map. eapply Forall_impl; [|exact HS].
      simpl. intros Sb HSb.
      apply Forall_map2 with (P := fun T : mat => length T = length nodes)
                             (Q := fun _ : mat => True);
        [| |apply Forall_forall; auto].
      * intros T Wj HT _. unfold matmul. rewrite length_map. assumption.
      * unfold transpose_2_1. rewrite Forall_map. apply Forall_forall.
        intros j _. rewrite length_map. assumption.
Qed.

Lemma p_i_s_distribution (S_ : T4) property_R_i r_i :
  nodes <> [] ->
  Forall (fun Sb => length Sb = length nodes) S_ ->
  Forall (fun row => is_distribution row /\ length row = length nodes)
         (p_i_s (𝛾_i_s S_ property_R_i r_i)).
Proof.
  intros Hn HS. unfold p_i_s. fuse_maps. rewrite Forall_map.
  eapply Forall_impl; [|apply gamma_i_s_shape, HS].
  simpl. intros Gs HGs.
  assert (Hlen : length (map (fun v => dot v W_s) Gs) = length nodes)
    by (rewrite length_map; assumption).
  split; [|rewrite length_softmax; assumption].
  apply softmax_distribution. intros Hnil. rewrite Hnil in Hlen.
  destruct nodes; [congruence|discriminate].
Qed.


Lemma sumR_repeat c n : sumR (repeat c n) = INR n * c.
Proof.
  induction n as [|n IH]; [simpl; lra|].
  rewrite S_INR. simpl. rewrite IH. lra.
Qed.

Lemma p_0_distribution BATCH :
  nodes <> [] ->
  Forall (fun row => is_distribution row /\ length row = length nodes) (p_0 BATCH).
Proof.
  intros Hn. unfold p_0. rewrite Forall_map. apply Forall_forall.
  intros row Hrow. apply repeat_spec in Hrow. subst row.
  assert (Hpos : 0 < INR (length nodes)).
  { apply lt_0_INR. destruct nodes; [congruence|simpl; lia]. }
  split; [split|rewrite length_map, repeat_length; reflexivity].
  - rewrite Forall_map. apply Forall_forall. intros x Hx.
    apply repeat_spec in Hx. subst x.
    apply Rlt_le, Rdiv_lt_0_compat; lra.
  - rewrite sumR_map_div, map_id, sumR_repeat. field. lra.
Qed.

Lemma blend_row_distribution a (x y : vec) :
  0 <= a <= 1 -> length x = length y ->
  is_distribution x -> is_distribution y ->
  is_distribution (vadd (map (Rmult a) x) (map (Rmult (1 - a)) y)).
Proof.
  intros Ha Hlen [Hx1 Hx2] [Hy1 Hy2]. split.
  - unfold vadd. fuse_maps.
    eapply Forall_map2; [|exact Hx1|exact Hy1].
    simpl. intros u v Hu Hv. nra.
  - rewrite sumR_vadd by (rewrite !length_map; assumption).
    rewrite !sumR_map_scale, Hx2, Hy2. lra.
Qed.

Lemma blend_distribution (r_i_prime pr ps : mat) n :
  Forall (fun rp => exists a, rp = [a] /\ 0 <= a <= 1) r_i_prime ->
  Forall (fun row => is_distribution row /\ length row = n) pr ->
  Forall (fun row => is_distribution row /\ length row = n) ps ->
  Forall (fun row => is_distribution row /\ length row = n) (blend r_i_prime pr ps).
Proof.
  intros Hr. revert pr ps.
  induction Hr as [|rp rps (a & -> & Ha) _ IH]; intros pr ps Hpr Hps;
    [destruct pr; constructor|].
  destruct Hpr as [|x pr [Hx Hxl] Hpr]; [constructor|].
  destruct Hps as [|y ps [Hy Hyl] Hps]; [constructor|].
  unfold blend, bcast_mul in *. simpl. constructor.
  - split.
    + apply blend_row_distribution; auto; congruence.
    + unfold vadd. rewrite length_map2, !length_map. lia.
  - apply IH; assumption.
Qed.

Lemma simulation_step_distribution BATCH (S_ E : T4) r i p_i :
  nodes <> [] ->
  Forall (shape2 (length nodes) (length nodes)) E ->
  Forall (fun Sb => length Sb = length nodes) S_ ->
  Forall (fun row => is_distribution row /\ length row = length nodes)
         (simulation_step BATCH S_ E r i p_i).
Proof.
  intros Hn HE HS. unfold simulation_step.
  apply blend_distribution.
  - apply r_prime_bounds.
  - apply p_i_r_distribution; assumption.
  - apply p_i_s_distribution; assumption.
Qed.

Lemma length_R_ BATCH r_i : length (R_i BATCH r_i) = Nat.min BATCH (length r_i).
Proof. unfold R_i, expand. rewrite length_map, length_map2, repeat_length. reflexivity. Qed.

Lemma length_gamma_i_e BATCH (E : T4) r_i :
  length (𝛾_i_e BATCH E r_i)
  = Nat.min (Nat.min (length E) BATCH) (length r_i).
Proof.
  unfold 𝛾_i_e, bmm, expand.
  rewrite !length_map, !length_map2, length_map, repeat_length. reflexivity.
Qed.

Lemma length_gamma_i_s (S_ : T4) property_R_i r_i :
  length (𝛾_i_s S_ property_R_i r_i)
  = Nat.min (length property_R_i) (Nat.min (length S_) (length r_i)).
Proof.
  unfold 𝛾_i_s. rewrite !length_map, !length_map2, length_map. reflexivity.
Qed.

Lemma length_blend (a pr ps : mat) :
  length (blend a pr ps)
  = Nat.min (Nat.min (length a) (length pr)) (Nat.min (length a) (length ps)).
Proof.
  unfold blend, bcast_mul. rewrite !length_map2, length_map. reflexivity.
Qed.

Lemma length_simulation_step BATCH (S_ E : T4) r i p_i :
  length S_ = BATCH -> length E = BATCH -> length r = BATCH -> length p_i = BATCH ->
  length (simulation_step BATCH S_ E r i p_i) = BATCH.
Proof.
  intros HS HE Hr Hp. unfold simulation_step.
  rewrite length_blend. unfold r_i_prime, p_i_r, p_i_s, property_R_i, r_i, select.
  rewrite !length_map, length_map2, length_gamma_i_e, length_gamma_i_s.
  rewrite !length_map, length_R_, !length_map. lia.
Qed.

Lemma length_p_0 BATCH : length (p_0 BATCH) = BATCH.
Proof. unfold p_0. rewrite length_map, repeat_length. reflexivity. Qed.

(** C2: for every valid input the node distribution is a probability
    distribution for every batch element: the uniform p_0, the result of
    a simulation step for every step index and every previous p_i, hence
    the distribution the notebook ends with and the one after each of the
    N steps of the loop; entries are >= 0 and sum to 1, and there is one
    row of len(nodes) entries per batch element. *)
Theorem p_i_is_distribution BATCH (S_ E : T4) (r : T3) :
  nodes <> [] ->
  shape3 BATCH (length nodes) (length nodes) E ->
  shape2 BATCH (length nodes) S_ ->
  length r = BATCH ->
  shape2 BATCH (length nodes) (p_0 BATCH) /\ Forall is_distribution (p_0 BATCH)
  /\ (forall i p_i, length p_i = BATCH ->
        shape2 BATCH (length nodes) (simulation_step BATCH S_ E r i p_i)
        /\ Forall is_distribution (simulation_step BATCH S_ E r i p_i))
  /\ Forall is_distribution (p_final BATCH S_ E r)
  /\ (forall k, (k <= N)%nat ->
        Forall is_distribution
          (fold_left (fun p i => simulation_step BATCH S_ E r i p) (seq 0 k) (p_0 BATCH)))
  /\ Forall is_distribution (p_loop BATCH S_ E r).
Proof.
  intros Hn [HE1 HE2] [HS1 HS2] Hr.
  assert (H0 : Forall (fun row => is_distribution row /\ length row = length nodes)
                      (p_0 BATCH)) by (apply p_0_distribution, Hn).
  assert (Hstep : forall i p_i,
             Forall (fun row => is_distribution row /\ length row = length nodes)
                    (simulation_step BATCH S_ E r i p_i))
    by (intros; apply simulation_step_distribution; assumption).
  assert (Hfold : forall l,
             Forall is_distribution
               (fold_left (fun p i => simulation_step BATCH S_ E r i p) l (p_0 BATCH))).
  { intros l. destruct l as [|i l] using rev_ind.
    - simpl. eapply Forall_impl; [|exact H0]. simpl; intros ? [? ?]; assumption.
    - rewrite fold_left_app. simpl.
      eapply Forall_impl; [|apply Hstep]. simpl; intros ? [? ?]; assumption. }
  repeat split.
  - apply length_p_0.
  - eapply Forall_impl; [|exact H0]. simpl; intros ? [? ?]; assumption.
  - eapply Forall_impl; [|exact H0]. simpl; intros ? [? ?]; assumption.
  - apply length_simulation_step; assumption.
  - eapply Forall_impl; [|apply Hstep]. simpl; intros ? [? ?]; assumption.
  - eapply Forall_impl; [|apply Hstep]. simpl; intros ? [? ?]; assumption.
  - unfold p_final. eapply Forall_impl; [|apply Hstep]. simpl; intros ? [? ?]; assumption.
  - intros k _. apply Hfold.
  - apply Hfold.
Qed.


Lemma blend_nth (a pr ps : mat) b s :
  (b < length a)%nat -> (b < length pr)%nat -> (b < length ps)%nat ->
  (s < length (nth b pr []))%nat -> (s < length (nth b ps []))%nat ->
  nth b a [] <> [] ->
  nth s (nth b (blend a pr ps) []) 0
  = hd 0 (nth b a []) * nth s (nth b pr []) 0
    + (1 - hd 0 (nth b a [])) * nth s (nth b ps []) 0.
Proof.
  intros Ha Hpr Hps Hs1 Hs2 Hne. unfold blend, bcast_mul.
  rewrite (nth_map2 _ _ _ _ [] [] []) by (rewrite length_map2, ?length_map; lia).
  rewrite !(nth_map2 _ _ _ _ [] [] []) by (rewrite ?length_map; lia).
  rewrite (nth_map_lt _ _ _ [] []) by lia.
  unfold vadd. rewrite (nth_map2 _ _ _ _ 0 0 0) by (rewrite length_map; lia).
  rewrite !(nth_map_lt _ _ _ 0 0) by lia.
  destruct (nth b a []) as [|x l]; [congruence|reflexivity].
Qed.

Lemma blend_zero (a pr ps : mat) :
  Forall (fun rp => rp = [0]) a -> length a = length ps ->
  Forall2 (fun x y : vec => length x = length y) pr ps ->
  blend a pr ps = ps.
Proof.
  intros Ha. revert pr ps.
  induction Ha as [|rp a -> _ IH]; intros pr ps Hlen H2;
    destruct H2 as [|x y pr ps Hxy H2]; simpl in *; try discriminate; auto.
  unfold blend, bcast_mul in *. simpl. f_equal; [|apply IH; auto; lia].
  clear - Hxy. revert y Hxy. unfold vadd.
  induction x as [|u x IH]; intros [|v y] H; simpl in *; try discriminate; auto.
  f_equal; [lra|apply IH; lia].
Qed.

Lemma blend_one (a pr ps : mat) :
  Forall (fun rp => rp = [1]) a -> length a = length pr ->
  Forall2 (fun x y : vec => length x = length y) pr ps ->
  blend a pr ps = pr.
Proof.
  intros Ha. revert pr ps.
  induction Ha as [|rp a -> _ IH]; intros pr ps Hlen H2;
    destruct H2 as [|x y pr ps Hxy H2]; simpl in *; try discriminate; auto.
  unfold blend, bcast_mul in *. simpl. f_equal; [|apply IH; auto; lia].
  clear - Hxy. revert y Hxy. unfold vadd.
  induction x as [|u x IH]; intros [|v y] H; simpl in *; try discriminate; auto.
  f_equal; [lra|apply IH; lia].
Qed.

(** C4: at every simulation step the new distribution is, entry by entry
    and per batch element, r_i' * p_i^r + (1 - r_i') * p_i^s, where r_i' is
    the last entry of R_i; and the blend of any two equally shaped tensors
    with r_i' = 0 everywhere is p_i^s itself, with r_i' = 1 everywhere
    p_i^r itself. *)
Theorem blend_property BATCH (S_ E : T4) (r : T3) (i : nat) (p_i : mat) :
  shape3 BATCH (length nodes) (length nodes) E ->
  shape2 BATCH (length nodes) S_ ->
  length r = BATCH ->
  length p_i = BATCH ->
  let r_i := r_i i r in
  let R_i := R_i BATCH r_i in
  let pr := p_i_r (𝛾_i_e BATCH E r_i) p_i in
  let ps := p_i_s (𝛾_i_s S_ (property_R_i R_i) r_i) in
  (forall b s, (b < BATCH)%nat -> (s < length nodes)%nat ->
     nth s (nth b (simulation_step BATCH S_ E r i p_i) []) 0
     = last (nth b R_i []) 0 * nth s (nth b pr []) 0
       + (1 - last (nth b R_i []) 0) * nth s (nth b ps []) 0)
  /\ (forall (a pr' ps' : mat),
        Forall (fun rp => rp = [0]) a -> length a = length ps' ->
        Forall2 (fun x y : vec => length x = length y) pr' ps' ->
        blend a pr' ps' = ps')
  /\ (forall (a pr' ps' : mat),
        Forall (fun rp => rp = [1]) a -> length a = length pr' ->
        Forall2 (fun x y : vec => length x = length y) pr' ps' ->
        blend a pr' ps' = pr').
Proof.
  intros [HE1 HE2] [HS1 HS2] Hr Hp ri Ri pr ps.
  split; [|split; intros; [apply blend_zero|apply blend_one]; assumption].
  intros b s Hb Hs.
  assert (HlenR : length Ri = BATCH).
  { unfold Ri, ri, r_i, select. rewrite length_R_, length_map. lia. }
  assert (Hlpr : length pr = BATCH).
  { unfold pr, p_i_r, ri, r_i, select.
    rewrite !length_map, length_map2, length_gamma_i_e, length_map. lia. }
  assert (Hlps : length ps = BATCH).
  { unfold ps, p_i_s, property_R_i, ri, r_i, select.
    rewrite !length_map, length_gamma_i_s, !length_map. lia. }
  destruct nodes as [|nd nds] eqn:Hnodes; [simpl in Hs; lia|].
  assert (Hn : nodes <> []) by (rewrite Hnodes; discriminate).
  rewrite <- Hnodes in *.
  pose proof (p_i_r_distribution BATCH E ri p_i Hn HE2) as Hpr.
  pose proof (p_i_s_distribution S_ (property_R_i Ri) ri Hn HS2) as Hps.
  fold pr in Hpr. fold ps in Hps.
  assert (Hb1 : (b < length pr)%nat) by lia.
  assert (Hb2 : (b < length ps)%nat) by lia.
  destruct (Forall_nth_lt _ _ b [] Hpr Hb1) as [_ Hl1].
  destruct (Forall_nth_lt _ _ b [] Hps Hb2) as [_ Hl2].
  unfold simulation_step. fold ri. fold Ri. fold pr. fold ps.
  rewrite blend_nth; unfold r_i_prime; rewrite ?length_map; try lia;
    rewrite (nth_map_lt _ _ _ [] []) by lia; [reflexivity|discriminate].
Qed.


(** ** The classifier's pooling weights *)

Lemma sumR_removelast v : v <> [] -> sumR (removelast v) = sumR v - last v 0.
Proof.
  intros H. destruct (exists_last H) as (l & a & ->).
  rewrite removelast_last, last_last, sumR_app. simpl. lra.
Qed.

Lemma last_softmax_pos v : v <> [] -> 0 < last (softmax v) 0.
Proof.
  intros H.
  assert (Hs : softmax v <> []).
  { intros Hnil. apply (f_equal (@length R)) in Hnil.
    rewrite length_softmax in Hnil. destruct v; [congruence|discriminate]. }
  destruct (exists_last Hs) as (l & a & Hl).
  pose proof (softmax_entries v) as He. rewrite Hl in *.
  rewrite last_last. rewrite Forall_forall in He.
  apply He, in_or_app. right; simpl; auto.
Qed.

Lemma vscale_zeros c d : vscale c (zeros d) = zeros d.
Proof.
  unfold vscale, zeros. induction d as [|d IH]; simpl; [reflexivity|].
  rewrite IH. f_equal. lra.
Qed.

Lemma vscale_vadd c a b : vscale c (vadd a b) = vadd (vscale c a) (vscale c b).
Proof.
  unfold vscale, vadd. revert b.
  induction a as [|x a IH]; intros [|y b]; simpl; auto.
  rewrite IH. f_equal. lra.
Qed.

Lemma vscale_vscale c e a : vscale c (vscale e a) = vscale (c * e) a.
Proof.
  unfold vscale. rewrite map_map. apply map_ext. intros; lra.
Qed.

Lemma vsum_scaled_weights d c (w : vec) (props : mat) :
  vsum d (map2 vscale (vscale c w) props) = vscale c (vsum d (map2 vscale w props)).
Proof.
  unfold vsum. revert props.
  induction w as [|x w IH]; intros [|v props]; simpl;
    try (rewrite vscale_zeros; reflexivity).
  rewrite IH, vscale_vadd, vscale_vscale. reflexivity.
Qed.

Lemma dot_vscale_r c a b : dot a (vscale c b) = c * dot a b.
Proof.
  unfold dot, vmul, vscale. revert b.
  induction a as [|x a IH]; intros [|y b]; simpl; try lra.
  rewrite IH. lra.
Qed.

Lemma col_map_vscale k c (X : mat) : col k (map (vscale c) X) = vscale c (col k X).
Proof.
  unfold col, vscale. rewrite !map_map. apply map_ext. intros row.
  replace 0 with (c * 0) at 1 by lra. apply map_nth.
Qed.

Lemma vecmat_map_vscale d c x (X : mat) :
  vecmat d x (map (vscale c) X) = vscale c (vecmat d x X).
Proof.
  unfold vecmat. unfold vscale at 2. rewrite map_map. apply map_ext.
  intros k. rewrite col_map_vscale. apply dot_vscale_r.
Qed.

Lemma normalized_scale (w : vec) : sumR w <> 0 -> vscale (sumR w) (normalized w) = w.
Proof.
  intros H. unfold vscale, normalized. rewrite map_map.
  transitivity (map (fun x : R => x) w); [|apply map_id].
  apply map_ext. intros x. field. assumption.
Qed.

Lemma m_scaled (p_i w : mat) (S_ : T4) :
  Forall (fun wb => sumR wb <> 0) w ->
  m p_i w S_
  = map2 (fun wb mb => map (vscale (sumR wb)) mb) w (m p_i (map normalized w) S_).
Proof.
  unfold m, bmm. intros Hw. revert p_i S_.
  induction Hw as [|wb w Hwb _ IH]; intros [|pb p_i] [|Sb S_]; simpl; auto.
  f_equal; [|apply IH].
  f_equal. rewrite <- vecmat_map_vscale. f_equal.
  rewrite !map_map. apply map_ext. intros props.
  rewrite <- vsum_scaled_weights, normalized_scale by assumption. reflexivity.
Qed.

(** The pooling weights in exact arithmetic: property_R_N keeps the first
    entries of the softmax over all rows of D and drops the last
    (relations) one; over the reals the weights are positive, there are
    L+1 of them, and they sum to 1 minus the dropped entry, which is
    positive.  The summary m is that sum times the summary a normalised
    average would give.  (In float32 the dropped entry can round to 0;
    rounding is outside this model.) *)
Theorem property_R_N_mass BATCH (r : T3) :
  length D = (L + 2)%nat ->
  property_R_N BATCH r = map (@removelast R) (R_i BATCH (r_i N r))
  /\ Forall (fun Rb => length Rb = (L + 2)%nat /\ sumR Rb = 1 /\ 0 < last Rb 0)
            (R_i BATCH (r_i N r))
  /\ Forall (fun w => length w = (L + 1)%nat /\ Forall (fun x => 0 < x) w
                      /\ 0 < sumR w < 1)
            (property_R_N BATCH r)
  /\ Forall (fun w => sumR (normalized w) = 1) (property_R_N BATCH r)
  /\ (forall (p_i : mat) (S_ : T4),
        m p_i (property_R_N BATCH r) S_
        = map2 (fun w mb => map (vscale (sumR w)) mb)
               (property_R_N BATCH r)
               (m p_i (map normalized (property_R_N BATCH r)) S_)).
Proof.
  intros HD.
  assert (HR : Forall (fun Rb => length Rb = (L + 2)%nat /\ sumR Rb = 1 /\ 0 < last Rb 0
                                 /\ Forall (fun x => 0 < x) Rb)
                      (R_i BATCH (r_i N r))).
  { eapply Forall_impl; [|apply R_rows_softmax].
    intros Rb (v & -> & Hv).
    assert (v <> []) by (intros ->; simpl in Hv; lia).
    rewrite length_softmax. repeat split; try lia.
    - apply softmax_sum; assumption.
    - apply last_softmax_pos; assumption.
    - eapply Forall_impl; [|apply softmax_entries]. simpl; intros; lra. }
  assert (Hw : Forall (fun w => length w = (L + 1)%nat /\ Forall (fun x => 0 < x) w
                               /\ 0 < sumR w < 1)
                      (property_R_N BATCH r)).
  { unfold property_R_N. rewrite Forall_map.
    eapply Forall_impl; [|exact HR].
    intros Rb (Hlen & Hsum & Hlast & Hpos).
    assert (Hne : Rb <> []) by (intros ->; simpl in Hlen; lia).
    destruct (exists_last Hne) as (l & a & ->).
    rewrite removelast_last. rewrite last_last in Hlast.
    rewrite length_app in Hlen. simpl in Hlen.
    rewrite sumR_app in Hsum. simpl in Hsum.
    apply Forall_app in Hpos. destruct Hpos as [Hpos _].
    repeat split; try lia; try assumption; try lra.
    destruct l as [|x l]; [simpl in Hlen; lia|].
    inversion Hpos as [|x' l' Hx Hl]; subst. simpl.
    assert (0 <= sumR l).
    { clear - Hl. induction Hl; simpl; lra. }
    simpl in Hsum. lra. }
  split; [reflexivity|]. split.
  { eapply Forall_impl; [|exact HR]. simpl. intros ? (? & ? & ? & ?). repeat split; assumption. }
  split; [exact Hw|]. split.
  - eapply Forall_impl; [|exact Hw]. intros w (_ & _ & Hs).
    unfold normalized. rewrite sumR_map_div, map_id. field. lra.
  - intros p_i S_. apply m_scaled.
    eapply Forall_impl; [|exact Hw]. intros w (_ & _ & Hs). lra.
Qed.


(** ** Batch elements are independent *)

Ltac list_len :=
  repeat (rewrite ?length_map, ?length_map2, ?repeat_length, ?length_app,
            ?length_combine, ?length_seq in * );
  lia.

Lemma combine_split_app {A B : Type} (a1 a2 : list A) (b1 b2 : list B) :
  length a1 = length b1 ->
  combine (a1 ++ a2) (b1 ++ b2) = combine a1 b1 ++ combine a2 b2.
Proof.
  revert b1; induction a1 as [|x a1 IH]; intros [|y b1] H; simpl in *;
    try discriminate; auto.
  f_equal; apply IH; lia.
Qed.

Ltac split_batch :=
  unfold expand;
  repeat first
    [ rewrite repeat_app
    | rewrite map_app
    | rewrite map2_app by list_len
    | rewrite combine_split_app by list_len ].

Lemma P_i_app B1 B2 (Q1 Q2 : T3) :
  length Q1 = B1 ->
  P_i (B1 + B2) (Q1 ++ Q2) = P_i B1 Q1 ++ P_i B2 Q2.
Proof. intros H. unfold P_i, bmm. split_batch. reflexivity. Qed.

Lemma length_P_i BATCH (Q : T3) : length Q = BATCH -> length (P_i BATCH Q) = BATCH.
Proof. intros H. unfold P_i, bmm, expand. list_len. Qed.

Lemma V_app B1 B2 (Q1 Q2 P1 P2 : T3) :
  length Q1 = B1 -> length P1 = B1 ->
  V (B1 + B2) (Q1 ++ Q2) (P1 ++ P2) = V B1 Q1 P1 ++ V B2 Q2 P2.
Proof. intros H1 H2. unfold V, bmm. split_batch. reflexivity. Qed.

Lemma length_V_ BATCH (Q P : T3) :
  length Q = BATCH -> length P = BATCH -> length (V BATCH Q P) = BATCH.
Proof. intros H1 H2. unfold V, bmm, expand. list_len. Qed.

Lemma nn_LSTM_app cell (X1 X2 : T3) (h1 h2 c1 c2 : mat) :
  length X1 = length h1 -> length h1 = length c1 ->
  nn_LSTM cell (X1 ++ X2) (h1 ++ h2, c1 ++ c2)
  = (fst (nn_LSTM cell X1 (h1, c1)) ++ fst (nn_LSTM cell X2 (h2, c2)),
     (fst (snd (nn_LSTM cell X1 (h1, c1))) ++ fst (snd (nn_LSTM cell X2 (h2, c2))),
      snd (snd (nn_LSTM cell X1 (h1, c1))) ++ snd (snd (nn_LSTM cell X2 (h2, c2))))).
Proof. intros H1 H2. unfold nn_LSTM. simpl. split_batch. reflexivity. Qed.

Lemma length_nn_LSTM cell (X : T3) (h c : mat) :
  length h = length X -> length c = length X ->
  length (fst (nn_LSTM cell X (h, c))) = length X
  /\ length (fst (snd (nn_LSTM cell X (h, c)))) = length X
  /\ length (snd (snd (nn_LSTM cell X (h, c)))) = length X.
Proof. intros H1 H2. unfold nn_LSTM. simpl. repeat split; list_len. Qed.

Lemma encoder_hidden_app (V1 V2 : T3) :
  encoder_hidden (V1 ++ V2)
  = (fst (encoder_hidden V1) ++ fst (encoder_hidden V2),
     snd (encoder_hidden V1) ++ snd (encoder_hidden V2)).
Proof.
  unfold encoder_hidden. rewrite length_app, repeat_app.
  rewrite nn_LSTM_app by (rewrite ?repeat_length; reflexivity). reflexivity.
Qed.

Lemma length_encoder_hidden (V : T3) :
  length (fst (encoder_hidden V)) = length V
  /\ length (snd (encoder_hidden V)) = length V.
Proof.
  unfold encoder_hidden.
  destruct (length_nn_LSTM encoder_cell V (repeat (zeros EMBD_DIM) (length V))
              (repeat (zeros EMBD_DIM) (length V))) as (_ & H2 & H3);
    try apply repeat_length.
  split; assumption.
Qed.

Lemma q_app (V1 V2 : T3) : q (V1 ++ V2) = q V1 ++ q V2.
Proof. unfold q. rewrite encoder_hidden_app. simpl. apply map_app. Qed.

Lemma length_q_ (V : T3) : length (q V) = length V.
Proof. unfold q. rewrite length_map. apply length_encoder_hidden. Qed.

Lemma h_app (V1 V2 : T3) : h (V1 ++ V2) = h V1 ++ h V2.
Proof.
  unfold h. rewrite q_app, map_app, encoder_hidden_app.
  destruct (length_encoder_hidden V1) as [H1 H2].
  rewrite nn_LSTM_app by (rewrite ?length_map, ?length_q_; congruence).
  unfold nn_LSTM. cbn [fst snd]. reflexivity.
Qed.

Lemma length_h_ (V : T3) : length (h V) = length V.
Proof.
  unfold h. destruct (length_encoder_hidden V) as [H1 H2].
  rewrite (surjective_pairing (encoder_hidden V)).
  destruct (length_nn_LSTM decoder_cell
              (map (fun qb => repeat (hd [] qb) (N + 1)) (q V))
              (fst (encoder_hidden V)) (snd (encoder_hidden V))) as (H & _);
    rewrite ?length_map, ?length_q_ in *; congruence.
Qed.

Lemma r_app (V1 V2 : T3) : r (V1 ++ V2) = r V1 ++ r V2.
Proof.
  unfold r. rewrite h_app.
  pose proof (length_h_ V1). split_batch. reflexivity.
Qed.

Lemma length_r_ (V : T3) : length (r V) = length V.
Proof. unfold r. pose proof (length_h_ V). list_len. Qed.


Lemma p_0_app B1 B2 : p_0 (B1 + B2) = p_0 B1 ++ p_0 B2.
Proof. unfold p_0. split_batch. reflexivity. Qed.

Lemma simulation_step_app B1 B2 (S1 S2 E1 E2 : T4) (r1 r2 : T3) i (p1 p2 : mat) :
  length S1 = B1 -> length E1 = B1 -> length r1 = B1 -> length p1 = B1 ->
  simulation_step (B1 + B2) (S1 ++ S2) (E1 ++ E2) (r1 ++ r2) i (p1 ++ p2)
  = simulation_step B1 S1 E1 r1 i p1 ++ simulation_step B2 S2 E2 r2 i p2.
Proof.
  intros HS HE Hr Hp.
  unfold simulation_step, blend, bcast_mul, r_i_prime, property_R_i, p_i_r, p_i_s,
    𝛾_i_s, 𝛾_i_e, R_i, r_i, select, bmm.
  split_batch. reflexivity.
Qed.

Lemma p_final_app B1 B2 (S1 S2 E1 E2 : T4) (r1 r2 : T3) :
  length S1 = B1 -> length E1 = B1 -> length r1 = B1 ->
  p_final (B1 + B2) (S1 ++ S2) (E1 ++ E2) (r1 ++ r2)
  = p_final B1 S1 E1 r1 ++ p_final B2 S2 E2 r2.
Proof.
  intros HS HE Hr. unfold p_final. rewrite p_0_app.
  apply simulation_step_app; auto using length_p_0.
Qed.

Lemma property_R_N_app B1 B2 (r1 r2 : T3) :
  length r1 = B1 ->
  property_R_N (B1 + B2) (r1 ++ r2) = property_R_N B1 r1 ++ property_R_N B2 r2.
Proof.
  intros Hr. unfold property_R_N, R_i, r_i, select. split_batch. reflexivity.
Qed.

Lemma length_property_R_N BATCH (r : T3) :
  length r = BATCH -> length (property_R_N BATCH r) = BATCH.
Proof. intros H. unfold property_R_N. rewrite length_map, length_R_. unfold r_i, select. list_len. Qed.

Lemma m_app (p1 p2 w1 w2 : mat) (S1 S2 : T4) :
  length p1 = length w1 -> length w1 = length S1 ->
  m (p1 ++ p2) (w1 ++ w2) (S1 ++ S2) = m p1 w1 S1 ++ m p2 w2 S2.
Proof. intros H1 H2. unfold m, bmm. split_batch. reflexivity. Qed.

Lemma length_m_ (p_i w : mat) (S_ : T4) :
  length (m p_i w S_) = Nat.min (length p_i) (Nat.min (length w) (length S_)).
Proof. unfold m, bmm. list_len. Qed.

Lemma pre_logits_app (m1 m2 q1 q2 : T3) :
  length m1 = length q1 ->
  pre_logits (m1 ++ m2) (q1 ++ q2) = pre_logits m1 q1 ++ pre_logits m2 q2.
Proof. intros H. unfold pre_logits. split_batch. reflexivity. Qed.

Lemma length_p_final BATCH (S_ E : T4) (r : T3) :
  length S_ = BATCH -> length E = BATCH -> length r = BATCH ->
  length (p_final BATCH S_ E r) = BATCH.
Proof.
  intros. unfold p_final. apply length_simulation_step; auto using length_p_0.
Qed.

Lemma forward_app B1 B2 (Q1 Q2 : T3) (S1 S2 E1 E2 : T4) :
  length Q1 = B1 -> length S1 = B1 -> length E1 = B1 ->
  forward (B1 + B2) (Q1 ++ Q2) (S1 ++ S2) (E1 ++ E2)
  = forward B1 Q1 S1 E1 ++ forward B2 Q2 S2 E2.
Proof.
  intros HQ HS HE. unfold forward.
  assert (HP : length (P_i B1 Q1) = B1) by (apply length_P_i, HQ).
  assert (HV : length (V B1 Q1 (P_i B1 Q1)) = B1) by (apply length_V_; assumption).
  rewrite P_i_app, V_app, q_app, r_app by assumption.
  assert (Hr : length (r (V B1 Q1 (P_i B1 Q1))) = B1) by (rewrite length_r_; exact HV).
  rewrite p_final_app, property_R_N_app by assumption.
  rewrite m_app.
  - apply pre_logits_app.
    rewrite length_m_, length_p_final, length_property_R_N, length_q_ by assumption. lia.
  - rewrite length_p_final, length_property_R_N by assumption. reflexivity.
  - rewrite length_property_R_N by assumption. congruence.
Qed.

Lemma length_forward BATCH (Q : T3) (S_ E : T4) :
  length Q = BATCH -> length S_ = BATCH -> length E = BATCH ->
  length (forward BATCH Q S_ E) = BATCH.
Proof.
  intros HQ HS HE. unfold forward, pre_logits.
  assert (HV : length (V BATCH Q (P_i BATCH Q)) = BATCH)
    by (apply length_V_; auto using length_P_i).
  rewrite !length_map, length_map2, length_m_, length_q_.
  rewrite length_p_final, length_property_R_N; rewrite ?length_r_; auto. lia.
Qed.


Lemma split_at {A : Type} (l : list A) b d :
  (b < length l)%nat -> l = firstn b l ++ [nth b l d] ++ skipn (S b) l.
Proof.
  revert b; induction l as [|x l IH]; intros [|b] H; simpl in *; try lia; auto.
  f_equal. apply IH. lia.
Qed.

Lemma forward_element BATCH (Q : T3) (S_ E : T4) b :
  length Q = BATCH -> length S_ = BATCH -> length E = BATCH -> (b < BATCH)%nat ->
  nth b (forward BATCH Q S_ E) []
  = hd [] (forward 1 [nth b Q []] [nth b S_ []] [nth b E []]).
Proof.
  intros HQ HS HE Hb.
  rewrite (split_at Q b []) at 1 by lia.
  rewrite (split_at S_ b []) at 1 by lia.
  rewrite (split_at E b []) at 1 by lia.
  replace BATCH with (b + (1 + (BATCH - S b)))%nat at 1 by lia.
  rewrite forward_app by (rewrite length_firstn; lia).
  rewrite forward_app by reflexivity.
  assert (Hf : forall X Y Z, length (forward b (firstn b Q) X Y) = b -> 
               nth b (forward b (firstn b Q) X Y ++ Z) [] = nth 0 Z []).
  { intros X Y Z HX. rewrite app_nth2 by lia. rewrite HX, Nat.sub_diag. reflexivity. }
  rewrite Hf by (apply length_forward; rewrite length_firstn; lia).
  pose proof (length_forward 1 [nth b Q []] [nth b S_ []] [nth b E []]
                eq_refl eq_refl eq_refl) as Hlen.
  destruct (forward 1 [nth b Q []] [nth b S_ []] [nth b E []]); [discriminate|].
  reflexivity.
Qed.

(** C6: running the notebook on two batches concatenated along the batch
    axis gives the concatenation of the logits of the two separate runs,
    and the logits of batch element b are those of the run on the batch
    that holds the inputs of b alone: they depend on no other element. *)
Theorem batch_independence :
  (forall B1 B2 (Q1 Q2 : T3) (S1 S2 E1 E2 : T4),
     length Q1 = B1 -> length S1 = B1 -> length E1 = B1 ->
     length Q2 = B2 -> length S2 = B2 -> length E2 = B2 ->
     forward (B1 + B2) (Q1 ++ Q2) (S1 ++ S2) (E1 ++ E2)
     = forward B1 Q1 S1 E1 ++ forward B2 Q2 S2 E2
     /\ length (forward B1 Q1 S1 E1) = B1
     /\ length (forward B2 Q2 S2 E2) = B2)
  /\ (forall BATCH (Q : T3) (S_ E : T4) b,
        length Q = BATCH -> length S_ = BATCH -> length E = BATCH ->
        (b < BATCH)%nat ->
        nth b (forward BATCH Q S_ E) []
        = hd [] (forward 1 [nth b Q []] [nth b S_ []] [nth b E []]))
  /\ (forall BATCH (Q Q' : T3) (S_ S' E E' : T4) b,
        length Q = BATCH -> length S_ = BATCH -> length E = BATCH ->
        length Q' = BATCH -> length S' = BATCH -> length E' = BATCH ->
        (b < BATCH)%nat ->
        nth b Q [] = nth b Q' [] -> nth b S_ [] = nth b S' [] ->
        nth b E [] = nth b E' [] ->
        nth b (forward BATCH Q S_ E) [] = nth b (forward BATCH Q' S' E') []).
Proof.
  split; [|split].
  - intros. split; [apply forward_app; assumption|].
    split; apply length_forward; assumption.
  - intros. apply forward_element; assumption.
  - intros BATCH Q Q' S_ S' E E' b HQ HS HE HQ' HS' HE' Hb H1 H2 H3.
    rewrite !forward_element by assumption. rewrite H1, H2, H3. reflexivity.
Qed.


(** ** The final classifier *)

Lemma simulation_step_reads BATCH (S_ E : T4) (r r' : T3) i p_i :
  r_i i r = r_i i r' ->
  simulation_step BATCH S_ E r i p_i = simulation_step BATCH S_ E r' i p_i.
Proof. intros H. unfold simulation_step. rewrite H. reflexivity. Qed.

Lemma p_loop_reads BATCH (S_ E : T4) (r r' : T3) :
  (forall i, (i < N)%nat -> r_i i r = r_i i r') ->
  p_loop BATCH S_ E r = p_loop BATCH S_ E r'.
Proof.
  intros H. unfold p_loop.
  assert (Hin : forall i, In i (seq 0 N) -> r_i i r = r_i i r').
  { intros i Hi. apply in_seq in Hi. apply H. lia. }
  revert Hin. generalize (p_0 BATCH). generalize (seq 0 N).
  induction l as [|i l IH]; intros p Hin; simpl; [reflexivity|].
  rewrite (simulation_step_reads BATCH S_ E r r' i p) by (apply Hin; simpl; auto).
  apply IH. intros j Hj. apply Hin. simpl; auto.
Qed.

Lemma m_nth (p_i w : mat) (S_ : T4) b :
  (b < length p_i)%nat -> (b < length w)%nat -> (b < length S_)%nat ->
  nth b (m p_i w S_) []
  = [vecmat EMBD_DIM (nth b p_i [])
       (map (fun props => vsum EMBD_DIM (map2 vscale (nth b w []) props))
            (nth b S_ []))].
Proof.
  intros H1 H2 H3. unfold m, bmm. fuse_maps.
  rewrite (nth_map2 _ _ _ _ [] [] []) by (rewrite ?length_map2; lia).
  rewrite (nth_map2 _ _ _ _ [] [] []) by lia.
  unfold matmul. simpl. rewrite map_map. reflexivity.
Qed.

Lemma length_apply_linear lin x :
  length (apply_linear lin x) = Nat.min (length (weight lin)) (length (bias lin)).
Proof. unfold apply_linear. apply length_map2. Qed.

(** C7: the classifier takes the instruction of index N, which no
    simulation step reads (the notebook's single step reads index 0, the
    steps of the loop read the indices below N); property_R_N is the
    softmax of D r_N over the rows of D with the last row dropped; m pools
    the node states weighted by property_R_N and by the final distribution;
    the logits are the second linear layer applied to the ELU of the first
    linear layer applied to m concatenated with q, with nothing applied
    after the second layer, and they have shape [BATCH, OUT_DIM]. *)
Theorem final_classifier BATCH OUT_DIM (Q : T3) (S_ E : T4) :
  length Q = BATCH -> length S_ = BATCH -> length E = BATCH ->
  length (weight classifier_2) = OUT_DIM -> length (bias classifier_2) = OUT_DIM ->
  (0 < N)%nat ->
  let V := V BATCH Q (P_i BATCH Q) in
  let r := r V in
  let q := q V in
  let p_i := p_final BATCH S_ E r in
  let w := property_R_N BATCH r in
  w = map (fun rb => removelast (softmax (map (fun row => dot row (nth N rb [])) D))) r
  /\ (forall r' : T3,
        (forall i, i <> N -> r_i i r' = r_i i r) ->
        p_final BATCH S_ E r' = p_i /\ p_loop BATCH S_ E r' = p_loop BATCH S_ E r)
  /\ (forall b, (b < BATCH)%nat ->
        nth b (m p_i w S_) []
        = [vecmat EMBD_DIM (nth b p_i [])
             (map (fun props => vsum EMBD_DIM (map2 vscale (nth b w []) props))
                  (nth b S_ []))])
  /\ forward BATCH Q S_ E
     = map (fun x => apply_linear classifier_2 (map elu (apply_linear classifier_0 x)))
           (map (hd []) (map2 (map2 (@app R)) (m p_i w S_) q))
  /\ (forall b o, (b < BATCH)%nat -> (o < OUT_DIM)%nat ->
        nth o (nth b (forward BATCH Q S_ E) []) 0
        = dot (map elu (apply_linear classifier_0
                          (hd [] (nth b (m p_i w S_) []) ++ hd [] (nth b q []))))
              (nth o (weight classifier_2) [])
          + nth o (bias classifier_2) 0)
  /\ shape2 BATCH OUT_DIM (forward BATCH Q S_ E).
Proof.
  intros HQ HS HE Hw2 Hb2 HN V0 r0 q0 p_i w.
  assert (HV : length V0 = BATCH) by (apply length_V_; auto using length_P_i).
  assert (Hr : length r0 = BATCH) by (unfold r0; rewrite length_r_; exact HV).
  assert (Hq : length q0 = BATCH) by (unfold q0; rewrite length_q_; exact HV).
  assert (Hp : length p_i = BATCH) by (apply length_p_final; assumption).
  assert (Hw : length w = BATCH) by (apply length_property_R_N; assumption).
  assert (Hm : length (m p_i w S_) = BATCH) by (rewrite length_m_; lia).
  split; [|split; [|split; [|split; [|split]]]].
  - unfold w, property_R_N. rewrite R_rows by (unfold r_i, select; list_len).
    unfold r_i, select. rewrite !map_map. reflexivity.
  - intros r' Hagree. split.
    + unfold p_i, p_final. apply simulation_step_reads, Hagree. lia.
    + apply p_loop_reads. intros i Hi. apply Hagree. lia.
  - intros b Hb. apply m_nth; lia.
  - reflexivity.
  - intros b o Hb Ho. unfold forward. fold V0. fold r0. fold q0. fold p_i. fold w.
    unfold pre_logits, classifier.
    rewrite (nth_map_lt _ _ _ [] []) by list_len.
    rewrite (nth_map_lt _ _ _ [] []) by list_len.
    rewrite (nth_map2 _ _ _ _ [] [] []) by lia.
    pose proof (m_nth p_i w S_ b) as Hmb.
    rewrite Hmb by lia.
    unfold q0, q at 1. rewrite (nth_map_lt _ _ _ [] []) at 1
      by (rewrite (proj1 (length_encoder_hidden V0)); lia).
    cbn [map2 hd].
    unfold apply_linear at 1.
    rewrite (nth_map2 _ _ _ _ [] 0 0) by lia.
    unfold q. rewrite (nth_map_lt _ _ _ [] [])
      by (rewrite (proj1 (length_encoder_hidden V0)); lia).
    reflexivity.
  - split; [apply length_forward; assumption|].
    unfold forward, pre_logits. rewrite Forall_map. apply Forall_forall.
    intros x _. unfold classifier. rewrite length_apply_linear. lia.
Qed.


(** ** The dense edge tensor and the adjacency mask *)

Lemma length_set_nth {A : Type} i (x : A) l : length (set_nth i x l) = length l.
Proof.
  revert i; induction l as [|a l IH]; intros [|i]; simpl; auto.
Qed.

Lemma nth_set_nth_eq {A : Type} i (x : A) l d :
  (i < length l)%nat -> nth i (set_nth i x l) d = x.
Proof.
  revert i; induction l as [|a l IH]; intros [|i] H; simpl in *; try lia; auto.
  apply IH; lia.
Qed.

Lemma nth_set_nth_neq {A : Type} i i' (x : A) l d :
  i <> i' -> nth i' (set_nth i x l) d = nth i' l d.
Proof.
  revert i i'; induction l as [|a l IH]; intros [|i] [|i'] H; simpl; auto;
    try congruence.
Qed.

Lemma Forall_set_nth {A : Type} (P : A -> Prop) i x l :
  Forall P l -> ((i < length l)%nat -> P x) -> Forall P (set_nth i x l).
Proof.
  intros Hl; revert i; induction Hl as [|a l Ha Hl IH]; intros [|i] Hx; simpl;
    constructor; auto.
  - apply Hx; simpl; lia.
  - apply IH. intros; apply Hx; simpl; lia.
Qed.

Lemma entry_assign_pair_other {A : Type} (d : A) i j i' j' x t b :
  (i, j) <> (i', j') ->
  entry d (assign_pair i j x t) b i' j' = entry d t b i' j'.
Proof.
  intros Hne. unfold entry, assign_pair.
  destruct (Nat.lt_ge_cases b (length t)) as [Hb|Hb].
  - rewrite (nth_map_lt _ _ _ [] []) by assumption.
    destruct (Nat.eq_dec i i') as [->|Hi].
    + destruct (Nat.lt_ge_cases i' (length (nth b t []))) as [Hi|Hi].
      * rewrite nth_set_nth_eq by assumption.
        apply nth_set_nth_neq. congruence.
      * replace (set_nth i' (set_nth j x (nth i' (nth b t []) [])) (nth b t []))
          with (nth b t []); [reflexivity|].
        clear - Hi. revert i' Hi. generalize (nth b t []).
        induction l as [|a l IH]; intros [|i'] H; simpl in *; try lia; auto.
        f_equal. apply (IH i'). lia.
    + rewrite nth_set_nth_neq by assumption. reflexivity.
  - rewrite (nth_overflow (map _ t) []) by (rewrite length_map; lia).
    rewrite (nth_overflow t []) by lia. reflexivity.
Qed.

Lemma entry_assign_pair_same {A : Type} (d : A) i j x t b n1 n2 n3 :
  shape3 n1 n2 n3 t -> (b < n1)%nat -> (i < n2)%nat -> (j < n3)%nat ->
  entry d (assign_pair i j x t) b i j = x.
Proof.
  intros [H1 H2] Hb Hi Hj. unfold entry, assign_pair.
  rewrite (nth_map_lt _ _ _ [] []) by lia.
  destruct (Forall_nth_lt _ _ b [] H2 ltac:(lia)) as [H3 H4].
  rewrite nth_set_nth_eq by lia.
  apply nth_set_nth_eq.
  rewrite (Forall_nth_lt _ _ i [] H4) by lia. assumption.
Qed.

Lemma shape3_assign_pair {A : Type} i j (x : A) t n1 n2 n3 :
  shape3 n1 n2 n3 t -> shape3 n1 n2 n3 (assign_pair i j x t).
Proof.
  intros [H1 H2]. unfold assign_pair. split; [rewrite length_map; assumption|].
  rewrite Forall_map. eapply Forall_impl; [|exact H2].
  intros tb [H3 H4]. split; [rewrite length_set_nth; assumption|].
  apply Forall_set_nth; [assumption|].
  intros Hi. rewrite length_set_nth. apply (Forall_nth_lt _ _ i [] H4 Hi).
Qed.

Lemma all3_assign_pair {A : Type} (P : A -> Prop) i j x t :
  P x -> Forall (Forall (Forall P)) t -> Forall (Forall (Forall P)) (assign_pair i j x t).
Proof.
  intros Hx Ht. unfold assign_pair. rewrite Forall_map.
  eapply Forall_impl; [|exact Ht].
  intros tb Htb. apply Forall_set_nth; [assumption|].
  intros Hi. apply Forall_set_nth; [|auto].
  apply (Forall_nth_lt _ _ i [] Htb Hi).
Qed.

Lemma shape3_repeat {A : Type} (x : A) n1 n2 n3 :
  shape3 n1 n2 n3 (repeat (repeat (repeat x n3) n2) n1).
Proof.
  split; [apply repeat_length|]. apply Forall_forall. intros tb Htb.
  apply repeat_spec in Htb. subst tb.
  split; [apply repeat_length|]. apply Forall_forall. intros row Hrow.
  apply repeat_spec in Hrow. subst row. apply repeat_length.
Qed.

Lemma entry_repeat {A : Type} (d x : A) n1 n2 n3 b i j :
  (b < n1)%nat -> (i < n2)%nat -> (j < n3)%nat ->
  entry d (repeat (repeat (repeat x n3) n2) n1) b i j = x.
Proof.
  intros Hb Hi Hj. unfold entry.
  rewrite (nth_indep _ [] (repeat (repeat x n3) n2)) by (rewrite repeat_length; lia).
  rewrite nth_repeat.
  rewrite (nth_indep _ [] (repeat x n3)) by (rewrite repeat_length; lia).
  rewrite nth_repeat.
  rewrite (nth_indep _ d x) by (rewrite repeat_length; lia).
  apply nth_repeat.
Qed.

Lemma permutations_2_distinct n i j : In (i, j) (permutations_2 n) -> i <> j.
Proof.
  unfold permutations_2. rewrite in_flat_map. intros (i' & _ & H).
  apply in_map_iff in H. destruct H as (j' & Heq & Hj').
  inversion Heq; subst. apply filter_In in Hj'. destruct Hj' as [_ Hne].
  apply negb_true_iff, Nat.eqb_neq in Hne. congruence.
Qed.


Lemma shape4_assign_pair i j (x : vec) (t : T4) n1 n2 n3 n4 :
  length x = n4 -> shape4 n1 n2 n3 n4 t -> shape4 n1 n2 n3 n4 (assign_pair i j x t).
Proof.
  intros Hx [H1 H2]. unfold assign_pair. split; [rewrite length_map; assumption|].
  rewrite Forall_map. eapply Forall_impl; [|exact H2].
  intros tb [H3 H4]. split; [rewrite length_set_nth; assumption|].
  apply Forall_set_nth; [assumption|].
  intros Hi. destruct (Forall_nth_lt _ _ i [] H4 Hi) as [H5 H6].
  split; [rewrite length_set_nth; assumption|].
  apply Forall_set_nth; auto.
Qed.

Lemma shape4_shape3 {A : Type} n1 n2 n3 n4 (t : list (list (list (list A)))) :
  shape4 n1 n2 n3 n4 t -> shape3 n1 n2 n3 t.
Proof.
  intros [H1 H2]. split; [assumption|].
  eapply Forall_impl; [|exact H2]. intros tb [H3 H4]. split; [assumption|].
  eapply Forall_impl; [|exact H4]. intros row [H5 _]. assumption.
Qed.

Lemma shape4_zeros n1 n2 n3 n4 :
  shape4 n1 n2 n3 n4 (repeat (repeat (repeat (zeros n4) n3) n2) n1).
Proof.
  split; [apply repeat_length|]. apply Forall_forall. intros tb Htb.
  apply repeat_spec in Htb. subst tb.
  split; [apply repeat_length|]. apply Forall_forall. intros row Hrow.
  apply repeat_spec in Hrow. subst row.
  split; [apply repeat_length|]. apply Forall_forall. intros v Hv.
  apply repeat_spec in Hv. subst v. apply repeat_length.
Qed.

Lemma scene_graph_inv_init relations BATCH k :
  scene_graph_inv relations BATCH []
    (repeat (repeat (repeat 0 (length nodes)) (length nodes)) BATCH,
     repeat (repeat (repeat (zeros EMBD_DIM) (length nodes)) (length nodes)) BATCH,
     k).
Proof.
  unfold scene_graph_inv. cbn [fst snd].
  split; [apply shape3_repeat|]. split; [apply shape4_zeros|].
  intros b i j Hb Hi Hj. rewrite !entry_repeat by assumption.
  split; [right; split; reflexivity|intros _; split; reflexivity].
Qed.

Lemma scene_graph_inv_step u relations BATCH visited st idx_pair :
  scene_graph_inv relations BATCH visited st ->
  scene_graph_inv relations BATCH (visited ++ [idx_pair])
    (scene_graph_step u EMBD_DIM nodes relations st idx_pair).
Proof.
  destruct st as [[mask E] k]. destruct idx_pair as [i0 j0].
  unfold scene_graph_inv, scene_graph_step. cbn [fst snd].
  intros (Hm & HE & Hent).
  destruct (pair_in (nth i0 nodes ""%string, nth j0 nodes ""%string) relations) eqn:Hin;
    cbn [fst snd].
  - split; [apply shape3_assign_pair, Hm|].
    split; [apply shape4_assign_pair; [rewrite length_map, length_seq; reflexivity|exact HE]|].
    intros b i j Hb Hi Hj.
    destruct (Nat.eq_dec i0 i) as [->|Hne]; [destruct (Nat.eq_dec j0 j) as [->|Hne]|].
    + rewrite (entry_assign_pair_same 0 i j 1 mask b _ _ _ Hm) by assumption.
      split; [left; reflexivity|].
      intros [Hnot|Hfalse]; [|congruence].
      exfalso. apply Hnot, in_or_app. right; simpl; auto.
    + rewrite !entry_assign_pair_other by congruence.
      destruct (Hent b i j Hb Hi Hj) as [H1 H2]. split; [exact H1|].
      intros [Hnot|Hfalse]; apply H2; [left|right; assumption].
      intros Hv. apply Hnot, in_or_app. left; assumption.
    + rewrite !entry_assign_pair_other by congruence.
      destruct (Hent b i j Hb Hi Hj) as [H1 H2]. split; [exact H1|].
      intros [Hnot|Hfalse]; apply H2; [left|right; assumption].
      intros Hv. apply Hnot, in_or_app. left; assumption.
  - split; [exact Hm|]. split; [exact HE|].
    intros b i j Hb Hi Hj.
    destruct (Hent b i j Hb Hi Hj) as [H1 H2]. split; [exact H1|].
    intros [Hnot|Hfalse]; apply H2; [|right; assumption].
    destruct (Nat.eq_dec i0 i) as [->|Hne]; [destruct (Nat.eq_dec j0 j) as [->|Hne]|].
    + right; assumption.
    + left. intros Hv. apply Hnot, in_or_app. left; assumption.
    + left. intros Hv. apply Hnot, in_or_app. left; assumption.
Qed.

Lemma scene_graph_inv_fold u relations BATCH ps visited st :
  scene_graph_inv relations BATCH visited st ->
  scene_graph_inv relations BATCH (visited ++ ps)
    (fold_left (scene_graph_step u EMBD_DIM nodes relations) ps st).
Proof.
  revert visited st. induction ps as [|x ps IH]; intros visited st H; simpl.
  - rewrite app_nil_r. assumption.
  - replace (visited ++ x :: ps) with ((visited ++ [x]) ++ ps)
      by (rewrite <- app_assoc; reflexivity).
    apply IH, scene_graph_inv_step, H.
Qed.

Lemma scene_graph_invariant u relations BATCH k :
  scene_graph_inv relations BATCH (permutations_2 (length nodes))
    (scene_graph u EMBD_DIM BATCH nodes relations k).
Proof.
  unfold scene_graph.
  apply (scene_graph_inv_fold u relations BATCH _ []), scene_graph_inv_init.
Qed.


Lemma dot_zeros_l d v : dot (zeros d) v = 0.
Proof.
  unfold dot, vmul, zeros. revert v.
  induction d as [|d IH]; intros [|y v]; simpl; try lra.
  rewrite IH. lra.
Qed.

Lemma vecmat_zeros cols d (M : mat) : vecmat cols (zeros d) M = zeros cols.
Proof.
  unfold vecmat. unfold zeros at 2.
  generalize 0%nat as s. induction cols as [|cols IH]; intros s; simpl; [reflexivity|].
  rewrite dot_zeros_l, IH. reflexivity.
Qed.

Lemma gamma_e_entry_zeros rb :
  length rb = EMBD_DIM -> gamma_e_entry rb (zeros EMBD_DIM) = zeros EMBD_DIM.
Proof.
  intros H. unfold gamma_e_entry. rewrite vecmat_zeros.
  subst. unfold vmul, zeros. induction rb as [|x rb IH]; simpl; [reflexivity|].
  rewrite IH. f_equal. rewrite Rmult_0_l. apply elu_0.
Qed.

Lemma gamma_i_e_entry BATCH (E : T4) r_i b i j :
  shape3 BATCH (length nodes) (length nodes) E -> length r_i = BATCH ->
  (b < BATCH)%nat -> (i < length nodes)%nat -> (j < length nodes)%nat ->
  entry [] (𝛾_i_e BATCH E r_i) b i j
  = gamma_e_entry (nth b r_i []) (entry [] E b i j).
Proof.
  intros [HE1 HE2] Hr Hb Hi Hj. unfold entry.
  rewrite gamma_i_e_rows by (assumption || lia).
  rewrite (nth_map2 _ _ _ _ [] [] []) by lia.
  destruct (Forall_nth_lt _ _ b [] HE2 ltac:(lia)) as [H3 H4].
  rewrite (nth_map_lt _ _ _ [] []) by lia.
  rewrite (nth_map_lt _ _ _ [] []); [reflexivity|].
  rewrite (Forall_nth_lt _ _ i [] H4) by lia. assumption.
Qed.

Lemma map2_id_nth {A B : Type} (f : A -> B -> B) xs ys dx dy :
  length xs = length ys ->
  (forall i, (i < length ys)%nat -> f (nth i xs dx) (nth i ys dy) = nth i ys dy) ->
  map2 f xs ys = ys.
Proof.
  revert ys; induction xs as [|x xs IH]; intros [|y ys] Hlen H; simpl in *;
    try discriminate; auto.
  f_equal.
  - apply (H 0%nat). lia.
  - apply IH; [lia|]. intros i Hi. apply (H (S i)). lia.
Qed.

Lemma masked_gamma_e_id (mask : T3) (gamma_e : T4) n1 n2 n3 :
  shape3 n1 n2 n3 mask -> shape3 n1 n2 n3 gamma_e ->
  (forall b i j, (b < n1)%nat -> (i < n2)%nat -> (j < n3)%nat ->
     vscale (entry 0 mask b i j) (entry [] gamma_e b i j) = entry [] gamma_e b i j) ->
  masked_gamma_e mask gamma_e = gamma_e.
Proof.
  intros [Hm1 Hm2] [Hg1 Hg2] H. unfold masked_gamma_e.
  apply (map2_id_nth _ _ _ [] []); [congruence|].
  intros b Hb.
  destruct (Forall_nth_lt _ _ b [] Hm2 ltac:(lia)) as [Hm3 Hm4].
  destruct (Forall_nth_lt _ _ b [] Hg2 ltac:(lia)) as [Hg3 Hg4].
  apply (map2_id_nth _ _ _ [] []); [congruence|].
  intros i Hi.
  pose proof (Forall_nth_lt _ _ i [] Hm4 ltac:(lia)) as Hm5.
  pose proof (Forall_nth_lt _ _ i [] Hg4 ltac:(lia)) as Hg5.
  simpl in Hm5, Hg5.
  apply (map2_id_nth _ _ _ 0 []); [congruence|].
  intros j Hj. apply (H b i j); lia.
Qed.

Lemma vscale_1 v : vscale 1 v = v.
Proof.
  unfold vscale. transitivity (map (fun x : R => x) v); [|apply map_id].
  apply map_ext. intros; lra.
Qed.

Lemma gamma_i_e_shape3 BATCH (E : T4) r_i :
  shape3 BATCH (length nodes) (length nodes) E -> length r_i = BATCH ->
  shape3 BATCH (length nodes) (length nodes) (𝛾_i_e BATCH E r_i).
Proof.
  intros [H1 H2] Hr. split; [rewrite length_gamma_i_e; lia|].
  apply gamma_i_e_shape, H2.
Qed.

(** C9: in the tensors the construction cell builds, every pair of node
    indices that is a self-loop or whose pair of names is not a key of
    [relations] holds the zero vector in E and the flag 0 in
    adjacency_mask; at such a pair 𝛾_i_e is ELU of the zero vector,
    the zero vector, and its term of the sum in p_i_r is the zero vector;
    and on these tensors p_i_r equals the update whose terms are
    multiplied by the adjacency flags. *)
Theorem absent_pairs_contribute_zero (u : nat -> R) (relations : relations_dict)
    (BATCH k : nat) (r_i p_i : mat) :
  shape2 BATCH EMBD_DIM r_i ->
  let adjacency_mask := fst (fst (scene_graph u EMBD_DIM BATCH nodes relations k)) in
  let E := snd (fst (scene_graph u EMBD_DIM BATCH nodes relations k)) in
  let gamma_e := 𝛾_i_e BATCH E r_i in
  shape3 BATCH (length nodes) (length nodes) adjacency_mask
  /\ shape4 BATCH (length nodes) (length nodes) EMBD_DIM E
  /\ (forall b i j, (b < BATCH)%nat -> (i < length nodes)%nat -> (j < length nodes)%nat ->
        i = j \/ pair_in (nth i nodes ""%string, nth j nodes ""%string) relations = false ->
        entry [] E b i j = zeros EMBD_DIM
        /\ entry 0 adjacency_mask b i j = 0
        /\ entry [] gamma_e b i j = map elu (zeros EMBD_DIM)
        /\ entry [] gamma_e b i j = zeros EMBD_DIM
        /\ map (fun g => g * nth i (nth b p_i []) 0) (entry [] gamma_e b i j)
           = zeros EMBD_DIM)
  /\ p_i_r gamma_e p_i = p_i_r_masked adjacency_mask gamma_e p_i.
Proof.
  intros [Hr1 Hr2] adjacency_mask E gamma_e.
  destruct (scene_graph_invariant u relations BATCH k) as (Hm & HE & Hent).
  fold adjacency_mask in Hm, Hent. fold E in HE, Hent.
  pose proof (shape4_shape3 _ _ _ _ _ HE) as HE3.
  assert (Hzero : forall b i j, (b < BATCH)%nat -> (i < length nodes)%nat ->
            (j < length nodes)%nat -> entry [] E b i j = zeros EMBD_DIM ->
            entry [] gamma_e b i j = zeros EMBD_DIM).
  { intros b i j Hb Hi Hj Hz. unfold gamma_e.
    rewrite gamma_i_e_entry by assumption. rewrite Hz.
    apply gamma_e_entry_zeros. apply (Forall_nth_lt _ _ b [] Hr2). lia. }
  split; [exact Hm|]. split; [exact HE|]. split.
  - intros b i j Hb Hi Hj Habs.
    destruct (Hent b i j Hb Hi Hj) as [_ H2].
    destruct H2 as [Hmask Hz].
    { destruct Habs as [->|Hfalse]; [left|right; assumption].
      intros Hin. apply permutations_2_distinct in Hin. congruence. }
    rewrite (Hzero b i j Hb Hi Hj Hz).
    repeat split; try assumption.
    + unfold zeros. rewrite map_repeat, elu_0. reflexivity.
    + unfold zeros. rewrite map_repeat, Rmult_0_l. reflexivity.
  - unfold p_i_r_masked. f_equal. symmetry.
    apply (masked_gamma_e_id _ _ BATCH (length nodes) (length nodes)).
    + exact Hm.
    + apply gamma_i_e_shape3; assumption.
    + intros b i j Hb Hi Hj.
      destruct (Hent b i j Hb Hi Hj) as [[H1|[H0 Hz]] _].
      * rewrite H1. apply vscale_1.
      * fold gamma_e. rewrite (Hzero b i j Hb Hi Hj Hz), H0. apply vscale_zeros.
Qed.


(** ** The relational update reads E, not the adjacency mask *)

Lemma ext3 {A : Type} (d : A) (t t' : list (list (list A))) n1 n2 n3 :
  shape3 n1 n2 n3 t -> shape3 n1 n2 n3 t' ->
  (forall b i j, (b < n1)%nat -> (i < n2)%nat -> (j < n3)%nat ->
     entry d t b i j = entry d t' b i j) ->
  t = t'.
Proof.
  intros [H1 H2] [H1' H2'] H.
  apply (nth_ext _ _ [] []); [congruence|]. intros b Hb.
  destruct (Forall_nth_lt _ _ b [] H2 ltac:(lia)) as [H3 H4].
  destruct (Forall_nth_lt _ _ b [] H2' ltac:(lia)) as [H3' H4'].
  apply (nth_ext _ _ [] []); [congruence|]. intros i Hi.
  pose proof (Forall_nth_lt _ _ i [] H4 ltac:(lia)) as H5.
  pose proof (Forall_nth_lt _ _ i [] H4' ltac:(lia)) as H5'.
  simpl in H5, H5'.
  apply (nth_ext _ _ d d); [congruence|]. intros j Hj.
  apply (H b i j); lia.
Qed.

Lemma vscale_0 (v : vec) : vscale 0 v = zeros (length v).
Proof.
  unfold vscale, zeros. induction v as [|x v IH]; cbn [map length repeat]; [reflexivity|].
  rewrite IH, Rmult_0_l. reflexivity.
Qed.

Lemma length_gamma_e_entry (rb e : vec) :
  length (gamma_e_entry rb e) = Nat.min EMBD_DIM (length rb).
Proof.
  unfold gamma_e_entry, vmul, vecmat.
  rewrite length_map, length_map2, length_map, length_seq. reflexivity.
Qed.

Lemma shape3_masked_gamma_e (mask : T3) (gamma_e : T4) n1 n2 n3 :
  shape3 n1 n2 n3 mask -> shape3 n1 n2 n3 gamma_e ->
  shape3 n1 n2 n3 (masked_gamma_e mask gamma_e).
Proof.
  intros [Hm1 Hm2] [Hg1 Hg2]. unfold masked_gamma_e.
  split; [rewrite length_map2; lia|].
  apply Forall_map2 with (P := shape2 n2 n3) (Q := shape2 n2 n3); [|exact Hm2|exact Hg2].
  intros Mb Gb [H1 H2] [H3 H4]. split; [rewrite length_map2; lia|].
  apply Forall_map2 with (P := fun row : vec => length row = n3)
                         (Q := fun row : mat => length row = n3); [|exact H2|exact H4].
  intros Mrow Grow H5 H6. rewrite length_map2. lia.
Qed.

Lemma entry_masked_gamma_e (mask : T3) (gamma_e : T4) n1 n2 n3 b i j :
  shape3 n1 n2 n3 mask -> shape3 n1 n2 n3 gamma_e ->
  (b < n1)%nat -> (i < n2)%nat -> (j < n3)%nat ->
  entry [] (masked_gamma_e mask gamma_e) b i j
  = vscale (entry 0 mask b i j) (entry [] gamma_e b i j).
Proof.
  intros [Hm1 Hm2] [Hg1 Hg2] Hb Hi Hj. unfold entry, masked_gamma_e.
  destruct (Forall_nth_lt _ _ b [] Hm2 ltac:(lia)) as [Hm3 Hm4].
  destruct (Forall_nth_lt _ _ b [] Hg2 ltac:(lia)) as [Hg3 Hg4].
  pose proof (Forall_nth_lt _ _ i [] Hm4 ltac:(lia)) as Hm5.
  pose proof (Forall_nth_lt _ _ i [] Hg4 ltac:(lia)) as Hg5.
  cbv beta in Hm5, Hg5.
  rewrite (nth_map2 _ _ _ _ [] [] []) by lia.
  rewrite (nth_map2 _ _ _ _ [] [] []) by lia.
  rewrite (nth_map2 _ _ _ _ 0 [] []) by lia. reflexivity.
Qed.

(** The code's update against the update gated by the flags, on tensors
    in which every flag is 1, or is 0 beside a zero embedding. *)
Lemma p_i_r_masked_agrees BATCH (adjacency_mask : T3) (E : T4) (r_i p_i : mat) :
  shape3 BATCH (length nodes) (length nodes) adjacency_mask ->
  shape3 BATCH (length nodes) (length nodes) E ->
  shape2 BATCH EMBD_DIM r_i ->
  (forall b i j, (b < BATCH)%nat -> (i < length nodes)%nat -> (j < length nodes)%nat ->
     entry 0 adjacency_mask b i j = 1
     \/ (entry 0 adjacency_mask b i j = 0 /\ entry [] E b i j = zeros EMBD_DIM)) ->
  p_i_r (𝛾_i_e BATCH E r_i) p_i = p_i_r_masked adjacency_mask (𝛾_i_e BATCH E r_i) p_i.
Proof.
  intros Hm HE [Hr1 Hr2] Hinv. unfold p_i_r_masked. f_equal. symmetry.
  apply (masked_gamma_e_id _ _ BATCH (length nodes) (length nodes));
    [exact Hm|apply gamma_i_e_shape3; assumption|].
  intros b i j Hb Hi Hj.
  destruct (Hinv b i j Hb Hi Hj) as [H1|[H0 Hz]].
  - rewrite H1. apply vscale_1.
  - rewrite gamma_i_e_entry by assumption.
    rewrite Hz, H0, gamma_e_entry_zeros by (apply (Forall_nth_lt _ _ b [] Hr2); lia).
    apply vscale_zeros.
Qed.

(** C3 (as the code has it): the cells of 𝛾_i_e and p_i_r never read
    adjacency_mask; a pair's contribution is gated by its stored
    embedding.  For two edge tensors that differ only at pairs whose flag
    is 0: the update gated by the flags is the same for both; the code's
    p_i_r is the same for both whenever every pair of flag 0 keeps its
    edge relevance ELU(r_i o (e W_{L+1})); the code's p_i_r is the gated
    update on a tensor whose pairs of flag 0 hold the zero vector and
    whose other flags are 1, as the construction cell builds it; and a
    pair keeps its edge relevance when its projected embedding e W_{L+1}
    changes only at coordinates where the instruction is 0. *)
Theorem absent_edge_invariance BATCH (adjacency_mask : T3) (E E' : T4) (r_i p_i : mat) :
  shape3 BATCH (length nodes) (length nodes) adjacency_mask ->
  shape3 BATCH (length nodes) (length nodes) E ->
  shape3 BATCH (length nodes) (length nodes) E' ->
  shape2 BATCH EMBD_DIM r_i ->
  (forall b i j, (b < BATCH)%nat -> (i < length nodes)%nat -> (j < length nodes)%nat ->
     entry 0 adjacency_mask b i j <> 0 -> entry [] E b i j = entry [] E' b i j) ->
  p_i_r_masked adjacency_mask (𝛾_i_e BATCH E r_i) p_i
  = p_i_r_masked adjacency_mask (𝛾_i_e BATCH E' r_i) p_i
  /\ ((forall b i j, (b < BATCH)%nat -> (i < length nodes)%nat -> (j < length nodes)%nat ->
         entry 0 adjacency_mask b i j = 0 ->
         gamma_e_entry (nth b r_i []) (entry [] E b i j)
         = gamma_e_entry (nth b r_i []) (entry [] E' b i j)) ->
      p_i_r (𝛾_i_e BATCH E r_i) p_i = p_i_r (𝛾_i_e BATCH E' r_i) p_i)
  /\ ((forall b i j, (b < BATCH)%nat -> (i < length nodes)%nat -> (j < length nodes)%nat ->
         entry 0 adjacency_mask b i j = 1
         \/ (entry 0 adjacency_mask b i j = 0 /\ entry [] E b i j = zeros EMBD_DIM)) ->
      p_i_r (𝛾_i_e BATCH E r_i) p_i
      = p_i_r_masked adjacency_mask (𝛾_i_e BATCH E r_i) p_i)
  /\ (forall b i j, (b < BATCH)%nat -> (i < length nodes)%nat -> (j < length nodes)%nat ->
        (forall c, (c < EMBD_DIM)%nat ->
           nth c (nth b r_i []) 0 = 0
           \/ nth c (vecmat EMBD_DIM (entry [] E b i j) W_L_plus_1) 0
              = nth c (vecmat EMBD_DIM (entry [] E' b i j) W_L_plus_1) 0) ->
        gamma_e_entry (nth b r_i []) (entry [] E b i j)
        = gamma_e_entry (nth b r_i []) (entry [] E' b i j)).
Proof.
  intros Hm HE HE' Hr Hsame.
  assert (Hlen : length r_i = BATCH) by apply Hr.
  pose proof (gamma_i_e_shape3 BATCH E r_i HE Hlen) as Hg.
  pose proof (gamma_i_e_shape3 BATCH E' r_i HE' Hlen) as Hg'.
  split; [|split; [|split]].
  - unfold p_i_r_masked. f_equal.
    apply (ext3 [] _ _ BATCH (length nodes) (length nodes));
      try (apply shape3_masked_gamma_e; assumption).
    intros b i j Hb Hi Hj.
    rewrite !(entry_masked_gamma_e _ _ BATCH (length nodes) (length nodes))
      by assumption.
    rewrite !gamma_i_e_entry by assumption.
    destruct (Req_dec (entry 0 adjacency_mask b i j) 0) as [H0|Hne].
    + rewrite H0, !vscale_0, !length_gamma_e_entry. reflexivity.
    + rewrite (Hsame b i j Hb Hi Hj Hne). reflexivity.
  - intros Hkeep. f_equal.
    apply (ext3 [] _ _ BATCH (length nodes) (length nodes)); try assumption.
    intros b i j Hb Hi Hj. rewrite !gamma_i_e_entry by assumption.
    destruct (Req_dec (entry 0 adjacency_mask b i j) 0) as [H0|Hne].
    + apply Hkeep; assumption.
    + rewrite (Hsame b i j Hb Hi Hj Hne). reflexivity.
  - intros Hinv. apply p_i_r_masked_agrees; assumption.
  - intros b i j Hb Hi Hj Hcoord.
    assert (Hlv : forall e, length (vecmat EMBD_DIM e W_L_plus_1) = EMBD_DIM)
      by (intros e; unfold vecmat; rewrite length_map, length_seq; reflexivity).
    assert (Hrb : length (nth b r_i []) = EMBD_DIM)
      by (apply (Forall_nth_lt _ _ b [] (proj2 Hr)); lia).
    unfold gamma_e_entry, vmul. f_equal.
    apply (nth_ext _ _ 0 0); [rewrite !length_map2, !Hlv; reflexivity|].
    intros c Hc. rewrite length_map2, Hlv, Hrb in Hc.
    rewrite !(nth_map2 _ _ _ _ 0 0 0) by (rewrite ?Hlv, ?Hrb; lia).
    destruct (Hcoord c ltac:(lia)) as [H0|Heq].
    + rewrite H0, !Rmult_0_r. reflexivity.
    + rewrite Heq. reflexivity.
Qed.


(** ** The vectorised cells against the loops of the commented-out cells *)

Lemma map2_nth_seq {A B Z : Type} (f : A -> B -> Z) xs ys dx dy k :
  length xs = k -> length ys = k ->
  map2 f xs ys = map (fun j => f (nth j xs dx) (nth j ys dy)) (seq 0 k).
Proof.
  intros Hx Hy.
  apply (nth_ext _ _ (f dx dy) (f dx dy));
    [rewrite length_map2, length_map, length_seq; lia|].
  intros i Hi. rewrite length_map2 in Hi.
  rewrite (nth_map2 _ _ _ _ dx dy) by lia.
  rewrite (nth_map_lt _ _ _ 0%nat) by (rewrite length_seq; lia).
  rewrite seq_nth by lia. reflexivity.
Qed.

Lemma nth_zeros_matrix n d s : (s < n)%nat -> nth s (repeat (zeros d) n) [] = zeros d.
Proof.
  intros H. rewrite (nth_indep _ [] (zeros d)) by (rewrite repeat_length; lia).
  apply nth_repeat.
Qed.

Lemma nth_msum n d (Ms : list mat) s :
  Forall (fun M => length M = n) Ms -> (s < n)%nat ->
  nth s (msum n d Ms) [] = vsum d (map (fun M => nth s M []) Ms).
Proof.
  intros HMs Hs. unfold msum, vsum.
  induction HMs as [|M Ms HM HMs IH]; simpl; [apply nth_zeros_matrix, Hs|].
  unfold madd at 1.
  rewrite (nth_map2 _ _ _ _ [] [] []);
    [rewrite IH; reflexivity|lia|].
  change (fold_right madd (repeat (zeros d) n) Ms) with (msum n d Ms).
  rewrite length_msum by assumption. lia.
Qed.

Lemma msum_map_rows {A : Type} n d (g : nat -> A -> vec) (rows : list A) js :
  length rows = n ->
  msum n d (map (fun j => map (g j) rows) js)
  = map (fun row => vsum d (map (fun j => g j row) js)) rows.
Proof.
  intros Hn. unfold msum, vsum. induction js as [|j js IH]; simpl.
  - subst n. clear. induction rows; simpl; congruence.
  - rewrite IH. unfold madd. rewrite map2_map_l, map2_map_r, map2_same. reflexivity.
Qed.

Lemma vmul_repeat_scale c d (a b : vec) :
  (length a <= d)%nat -> vmul (vmul b a) (repeat c d) = vscale c (vmul a b).
Proof.
  unfold vmul, vscale. revert d b.
  induction a as [|x a IH]; intros d [|y b] H; simpl in *; auto.
  destruct d as [|d]; [lia|]. simpl. rewrite IH by lia. f_equal. lra.
Qed.

Lemma length_vecmat cols x (M : mat) : length (vecmat cols x M) = cols.
Proof. unfold vecmat. rewrite length_map, length_seq. reflexivity. Qed.

(** Entry [b, s] of the vectorised 𝛾_i_s. *)
Lemma gamma_i_s_nth BATCH (S_ : T4) (property_R_i r_i : mat) b s :
  shape2 BATCH (length nodes) S_ ->
  shape2 BATCH (L + 1) property_R_i ->
  length r_i = BATCH -> length property_W = (L + 1)%nat ->
  (b < BATCH)%nat -> (s < length nodes)%nat ->
  nth s (nth b (𝛾_i_s S_ property_R_i r_i) []) []
  = map elu
      (vsum EMBD_DIM
         (map (fun j =>
                 vscale (nth j (nth b property_R_i []) 0)
                   (vmul (vecmat EMBD_DIM (nth j (nth s (nth b S_ []) []) [])
                                 (nth j property_W []))
                         (nth b r_i [])))
              (seq 0 (L + 1)))).
Proof.
  intros [HS1 HS2] [HR1 HR2] Hr HW Hb Hs. unfold 𝛾_i_s.
  pose proof (Forall_nth_lt _ _ b [] HS2 ltac:(lia)) as HSb.
  pose proof (Forall_nth_lt _ _ b [] HR2 ltac:(lia)) as HRb.
  simpl in HSb, HRb.
  rewrite (nth_map_lt (map (map elu)) _ b [] []) by list_len.
  rewrite (nth_map_lt (msum _ _) _ b [] []) by list_len.
  rewrite (nth_map2 _ _ _ b [] [] []) by list_len.
  rewrite (nth_map2 _ _ _ b [] [] []) by list_len.
  rewrite (nth_map_lt _ S_ b [] []) by lia.
  unfold transpose_2_1. rewrite map2_map_l.
  rewrite (map2_nth_seq _ _ _ 0%nat [] (L + 1)) by (rewrite ?length_seq; auto).
  rewrite map_map.
  rewrite (map2_nth_seq _ _ _ 0 [] (L + 1)) by (rewrite ?length_map, ?length_seq; auto).
  rewrite (map_ext_in _
             (fun j => map (fun props =>
                              vscale (nth j (nth b property_R_i []) 0)
                                (vmul (vecmat EMBD_DIM (nth j props [])
                                              (nth j property_W []))
                                      (nth b r_i [])))
                           (nth b S_ []))).
  2:{ intros j Hj. apply in_seq in Hj.
      rewrite (nth_map_lt _ _ _ 0%nat) by (rewrite length_seq; lia).
      rewrite !(@seq_nth (L + 1) 0 j 0%nat) by lia. cbn [Nat.add].
      unfold matmul. rewrite !map_map. apply map_ext. intros props.
      rewrite ?(@seq_nth (L + 1) 0 j 0%nat) by lia. reflexivity. }
  rewrite msum_map_rows by assumption.
  rewrite map_map, (nth_map_lt _ _ _ [] []) by lia. reflexivity.
Qed.


(** Entry [b, s] of the loop formulation of 𝛾_i_s. *)
Lemma alt_gamma_i_s_nth BATCH (S_ : T4) (property_R_i r_i : mat) b s :
  shape2 BATCH (length nodes) S_ ->
  length property_R_i = BATCH -> length r_i = BATCH ->
  (b < BATCH)%nat -> (s < length nodes)%nat ->
  nth s (nth b (alt_𝛾_i_s BATCH S_ property_R_i r_i) []) []
  = map elu
      (vsum EMBD_DIM
         (map (fun j =>
                 vmul (vmul (nth b r_i [])
                            (vecmat EMBD_DIM (nth j (nth s (nth b S_ []) []) [])
                                    (nth j property_W [])))
                      (repeat (nth j (nth b property_R_i []) 0) EMBD_DIM))
              (seq 0 (L + 1)))).
Proof.
  intros [HS1 HS2] HR Hr Hb Hs. unfold alt_𝛾_i_s.
  pose proof (Forall_nth_lt _ _ b [] HS2 ltac:(lia)) as HSb. simpl in HSb.
  rewrite (nth_map_lt _ _ _ 0%nat []) by (rewrite length_seq; lia).
  rewrite (nth_map_lt _ _ _ 0%nat []) by (rewrite length_seq; lia).
  rewrite !seq_nth by lia. cbn [Nat.add].
  f_equal. f_equal. rewrite map_map. apply map_ext. intros j.
  unfold bmm, expand, select.
  rewrite (nth_map2 _ _ _ b [] [] []) by list_len.
  rewrite (nth_map2 _ _ _ b [] [] []) by list_len.
  rewrite (nth_map2 _ _ _ b [] [] []) by list_len.
  rewrite (nth_map_lt _ S_ b [] []) by lia.
  rewrite (nth_map_lt _ property_R_i b [] []) by lia.
  rewrite (nth_indep _ [] (nth j property_W [])) by (rewrite repeat_length; lia).
  rewrite nth_repeat.
  unfold matmul. rewrite !map_map.
  rewrite (nth_map_lt _ _ _ [] []) by lia. reflexivity.
Qed.

Lemma length_alt_gamma_i_s BATCH (S_ : T4) (property_R_i r_i : mat) :
  shape2 BATCH (length nodes) (alt_𝛾_i_s BATCH S_ property_R_i r_i).
Proof.
  unfold alt_𝛾_i_s. split; [rewrite length_map, length_seq; reflexivity|].
  rewrite Forall_map. apply Forall_forall. intros b _.
  rewrite length_map, length_seq. reflexivity.
Qed.

Lemma alt_gamma_i_s_eq BATCH (S_ : T4) (property_R_i r_i : mat) :
  shape2 BATCH (length nodes) S_ ->
  shape2 BATCH (L + 1) property_R_i ->
  length r_i = BATCH -> length property_W = (L + 1)%nat ->
  alt_𝛾_i_s BATCH S_ property_R_i r_i = 𝛾_i_s S_ property_R_i r_i.
Proof.
  intros HS HR Hr HW.
  destruct (length_alt_gamma_i_s BATCH S_ property_R_i r_i) as [Ha1 Ha2].
  assert (Hg1 : length (𝛾_i_s S_ property_R_i r_i) = BATCH).
  { rewrite length_gamma_i_s. destruct HS, HR. lia. }
  pose proof (gamma_i_s_shape S_ property_R_i r_i (proj2 HS)) as Hg2.
  apply (nth_ext _ _ [] []); [congruence|]. intros b Hb. rewrite Ha1 in Hb.
  pose proof (Forall_nth_lt _ _ b [] Ha2 ltac:(lia)) as Hab.
  pose proof (Forall_nth_lt _ _ b [] Hg2 ltac:(lia)) as Hgb.
  simpl in Hab, Hgb.
  apply (nth_ext _ _ [] []); [congruence|]. intros s Hs. rewrite Hab in Hs.
  rewrite alt_gamma_i_s_nth by (try assumption; apply HR).
  rewrite (gamma_i_s_nth BATCH) by assumption.
  f_equal. f_equal. apply map_ext. intros j.
  apply vmul_repeat_scale. rewrite length_vecmat. lia.
Qed.


Lemma vadd_zeros_r d (z : vec) : length z = d -> vadd z (zeros d) = z.
Proof.
  unfold vadd, zeros. revert d. induction z as [|x z IH]; intros [|d] H;
    simpl in *; try discriminate; auto.
  rewrite IH by lia. f_equal. lra.
Qed.

Lemma vadd_zeros_l d (z : vec) : length z = d -> vadd (zeros d) z = z.
Proof.
  unfold vadd, zeros. revert d. induction z as [|x z IH]; intros [|d] H;
    simpl in *; try discriminate; auto.
  rewrite IH by lia. f_equal. lra.
Qed.

Lemma vadd_assoc (a b c : vec) : vadd (vadd a b) c = vadd a (vadd b c).
Proof.
  unfold vadd. revert b c. induction a as [|x a IH]; intros [|y b] [|z c];
    simpl; auto.
  rewrite IH. f_equal. lra.
Qed.

Lemma length_vsum d (vs : list vec) :
  Forall (fun v => length v = d) vs -> length (vsum d vs) = d.
Proof.
  unfold vsum. induction 1 as [|v vs Hv _ IH]; simpl; [apply repeat_length|].
  unfold vadd at 1. rewrite length_map2, IH, Hv. apply Nat.min_id.
Qed.

(** The loop that skips the pairs failing the indicator adds up to the
    full sum when every skipped term is the zero vector. *)
Lemma skipping_loop_sum d (a : nat -> bool) (t : nat -> vec) l z :
  length z = d ->
  (forall y, In y l -> length (t y) = d) ->
  (forall y, In y l -> a y = false -> t y = zeros d) ->
  fold_left (fun ws y => if a y then vadd ws (t y) else ws) l z
  = vadd z (vsum d (map t l)).
Proof.
  revert z. induction l as [|y l IH]; intros z Hz Hlen Hskip; simpl.
  - symmetry. apply vadd_zeros_r, Hz.
  - assert (Hstep : (if a y then vadd z (t y) else z) = vadd z (t y)).
    { destruct (a y) eqn:Hay; [reflexivity|].
      rewrite (Hskip y) by (simpl; auto). symmetry. apply vadd_zeros_r, Hz. }
    rewrite Hstep, IH.
    + apply vadd_assoc.
    + unfold vadd. rewrite length_map2, Hz, (Hlen y) by (simpl; auto).
      apply Nat.min_id.
    + intros; apply Hlen; simpl; auto.
    + intros; apply Hskip; simpl; auto.
Qed.

Lemma adj_entry (gamma_e : T4) b y x n1 n2 n3 :
  shape3 n1 n2 n3 gamma_e -> (b < n1)%nat -> (y < n2)%nat -> (x < n3)%nat ->
  nth x (nth y (nth b (adj gamma_e) []) []) false
  = if Rlt_dec 0 (sumR (entry [] gamma_e b y x)) then true else false.
Proof.
  intros [H1 H2] Hb Hy Hx. unfold adj, entry.
  destruct (Forall_nth_lt _ _ b [] H2 ltac:(lia)) as [H3 H4].
  pose proof (Forall_nth_lt _ _ y [] H4 ltac:(lia)) as H5. simpl in H5.
  rewrite (nth_map_lt _ _ _ [] []) by lia.
  rewrite (nth_map_lt _ _ _ [] []) by lia.
  rewrite (nth_map_lt _ _ _ [] false) by lia. reflexivity.
Qed.

Lemma alt_p_i_r_eq BATCH (gamma_e : T4) (p_i : mat) :
  shape4 BATCH (length nodes) (length nodes) EMBD_DIM gamma_e ->
  shape2 BATCH (length nodes) p_i ->
  (forall b y x, (b < BATCH)%nat -> (y < length nodes)%nat -> (x < length nodes)%nat ->
     sumR (entry [] gamma_e b y x) <= 0 -> entry [] gamma_e b y x = zeros EMBD_DIM) ->
  alt_p_i_r BATCH gamma_e p_i = p_i_r gamma_e p_i.
Proof.
  intros Hg [Hp1 Hp2] Hzero.
  pose proof (shape4_shape3 _ _ _ _ _ Hg) as Hg3.
  destruct Hg as [Hg1 Hg2].
  rewrite p_i_r_rows.
  rewrite (map2_nth_seq _ _ _ [] [] BATCH) by assumption.
  unfold alt_p_i_r. rewrite map_map. apply map_ext_in. intros b Hb.
  apply in_seq in Hb.
  destruct (Forall_nth_lt _ _ b [] Hg2 ltac:(lia)) as [Hgb1 Hgb2].
  pose proof (Forall_nth_lt _ _ b [] Hp2 ltac:(lia)) as Hpb. simpl in Hpb.
  unfold p_r_row. f_equal.
  rewrite (map2_nth_seq _ _ _ [] 0 (length nodes)) by assumption.
  assert (HMs : Forall (fun M : mat => length M = length nodes)
                  (map (fun j => map (map (fun g => g * nth j (nth b p_i []) 0))
                                     (nth j (nth b gamma_e []) []))
                       (seq 0 (length nodes)))).
  { rewrite Forall_map. apply Forall_forall. intros y Hy. apply in_seq in Hy.
    rewrite length_map.
    apply (Forall_nth_lt _ _ y [] Hgb2). lia. }
  apply (nth_ext _ _ 0 0).
  { rewrite !length_map, length_seq, length_msum by assumption. reflexivity. }
  intros x Hx. rewrite length_map, length_seq in Hx.
  rewrite (nth_map_lt _ _ _ 0%nat 0) by (rewrite length_seq; lia).
  rewrite seq_nth by lia. cbn [Nat.add].
  rewrite (nth_map_lt _ _ _ [] 0) by (rewrite length_msum by assumption; lia).
  f_equal. rewrite nth_msum by assumption. rewrite map_map.
  rewrite (skipping_loop_sum EMBD_DIM).
  - assert (Hent : forall y, (y < length nodes)%nat ->
              length (nth x (nth y (nth b gamma_e []) []) []) = EMBD_DIM).
    { intros y Hy.
      destruct (Forall_nth_lt _ _ y [] Hgb2 ltac:(lia)) as [H1 H2].
      apply (Forall_nth_lt _ _ x [] H2). lia. }
    rewrite vadd_zeros_l.
    + f_equal. apply map_ext_in. intros y Hy. apply in_seq in Hy.
      destruct (Forall_nth_lt _ _ y [] Hgb2 ltac:(lia)) as [H1 H2].
      rewrite (nth_map_lt _ _ _ [] []) by lia.
      unfold vscale. apply map_ext. intros g. apply Rmult_comm.
    + apply length_vsum. rewrite Forall_map. apply Forall_forall.
      intros y Hy. apply in_seq in Hy. unfold vscale. rewrite length_map.
      apply Hent. lia.
  - apply repeat_length.
  - intros y Hy. apply in_seq in Hy. unfold vscale. rewrite length_map.
    destruct (Forall_nth_lt _ _ y [] Hgb2 ltac:(lia)) as [H1 H2].
    apply (Forall_nth_lt _ _ x [] H2). lia.
  - intros y Hy Hadj. apply in_seq in Hy.
    rewrite (adj_entry gamma_e b y x _ _ _ Hg3) in Hadj by lia.
    destruct (Rlt_dec 0 (sumR (entry [] gamma_e b y x))) as [Hlt|Hge];
      [discriminate|].
    fold (entry [] gamma_e b y x).
    rewrite (Hzero b y x) by (lia || lra). apply vscale_zeros.
Qed.


(** Where the loops of the commented-out cells agree with the vectorised
    cells: the vectorised 𝛾_i_s equals the loop formulation entry for
    entry on every well-shaped input; the vectorised p_i_r equals the loop
    formulation whenever each pair that fails the indicator
    𝛾_i_e.sum(dim=3) > 0 holds the zero vector, in particular whenever
    no entry of 𝛾_i_e is negative. *)
Theorem vectorised_equals_loops BATCH (S_ : T4) (property_R_i r_i : mat)
    (gamma_e : T4) (p_i : mat) :
  shape2 BATCH (length nodes) S_ ->
  shape2 BATCH (L + 1) property_R_i ->
  length r_i = BATCH -> length property_W = (L + 1)%nat ->
  shape4 BATCH (length nodes) (length nodes) EMBD_DIM gamma_e ->
  shape2 BATCH (length nodes) p_i ->
  alt_𝛾_i_s BATCH S_ property_R_i r_i = 𝛾_i_s S_ property_R_i r_i
  /\ ((forall b y x, (b < BATCH)%nat -> (y < length nodes)%nat -> (x < length nodes)%nat ->
         sumR (entry [] gamma_e b y x) <= 0 -> entry [] gamma_e b y x = zeros EMBD_DIM) ->
      alt_p_i_r BATCH gamma_e p_i = p_i_r gamma_e p_i)
  /\ ((forall b y x, (b < BATCH)%nat -> (y < length nodes)%nat -> (x < length nodes)%nat ->
         Forall (fun g => 0 <= g) (entry [] gamma_e b y x)) ->
      alt_p_i_r BATCH gamma_e p_i = p_i_r gamma_e p_i).
Proof.
  intros HS HR Hr HW Hg Hp.
  split; [apply alt_gamma_i_s_eq; assumption|].
  split; [intros Hz; apply alt_p_i_r_eq; assumption|].
  intros Hpos. apply alt_p_i_r_eq; try assumption.
  intros b y x Hb Hy Hx Hsum.
  assert (Hlen : length (entry [] gamma_e b y x) = EMBD_DIM).
  { destruct Hg as [Hg1 Hg2]. unfold entry.
    destruct (Forall_nth_lt _ _ b [] Hg2 ltac:(lia)) as [H1 H2].
    destruct (Forall_nth_lt _ _ y [] H2 ltac:(lia)) as [H1' H3].
    apply (Forall_nth_lt _ _ x [] H3). lia. }
  specialize (Hpos b y x Hb Hy Hx).
  rewrite <- Hlen. clear Hlen. revert Hsum.
  induction Hpos as [|g v Hg0 Hv IH]; simpl; intros Hsum; [reflexivity|].
  assert (0 <= sumR v) by (clear - Hv; induction Hv; simpl; lra).
  change (zeros (S (length v))) with (0 :: zeros (length v)).
  f_equal; [lra|apply IH; lra].
Qed.


(** ** The concept vocabulary *)

Lemma mapM_to_glove u (tokens : list string) k :
  exists rows k',
    mapM (to_glove u EMBD_DIM) tokens k = Some (rows, k')
    /\ Forall2 (embeds u EMBD_DIM) tokens rows
    /\ Forall (fun row => length row = EMBD_DIM) rows.
Proof.
  revert k. induction tokens as [|t tokens IH]; intros k.
  - exists [], k. repeat split; constructor.
  - destruct (IH (k + EMBD_DIM)%nat) as (rows & k' & Hrun & Hemb & Hlen).
    exists (map u (seq k EMBD_DIM) :: rows), k'.
    split; [|split].
    + cbn [mapM]. unfold bind at 1. unfold to_glove at 1, torch_rand at 1.
      unfold bind at 1. rewrite Hrun. reflexivity.
    + constructor; [exists k; reflexivity|assumption].
    + constructor; [rewrite length_map, length_seq; reflexivity|assumption].
Qed.

Lemma mapM_concepts u (property_concepts : dict) (properties : list string) k :
  Forall (fun property => exists concepts,
            dict_get property_concepts property = Some concepts /\ concepts <> [])
         properties ->
  exists ordered_C k',
    mapM (fun property =>
            bind (getitem property_concepts property) (fun concepts =>
            bind (mapM (to_glove u EMBD_DIM) concepts) (fun rows => stack rows)))
         properties k
    = Some (ordered_C, k')
    /\ Forall2 (fun property Cp =>
                  exists concepts,
                    dict_get property_concepts property = Some concepts
                    /\ Forall2 (embeds u EMBD_DIM) concepts Cp)
               properties ordered_C
    /\ Forall (Forall (fun row => length row = EMBD_DIM)) ordered_C.
Proof.
  intros H. revert k. induction H as [|p ps (cs & Hget & Hne) _ IH]; intros k.
  - exists [], k. repeat split; constructor.
  - destruct (mapM_to_glove u cs k) as (rows & k1 & Hrun & Hemb & Hlen).
    destruct (IH k1) as (Cs & k' & Hrun' & Hemb' & Hlen').
    exists (rows :: Cs), k'. split; [|split].
    + cbn [mapM]. unfold bind at 1. unfold bind at 1. unfold getitem at 1.
      rewrite Hget. unfold ret at 1. unfold bind at 1. rewrite Hrun.
      destruct rows as [|row rows].
      * inversion Hemb; subst. congruence.
      * cbn [stack]. unfold ret at 1. unfold bind at 1. rewrite Hrun'. reflexivity.
    + constructor; [exists cs; split; assumption|assumption].
    + constructor; assumption.
Qed.

Lemma length_concat_concepts u (property_concepts : dict) properties (ordered_C : T3) :
  Forall2 (fun property Cp =>
             exists concepts,
               dict_get property_concepts property = Some concepts
               /\ Forall2 (embeds u EMBD_DIM) concepts Cp)
          properties ordered_C ->
  length (concat ordered_C) = total_concepts property_concepts properties.
Proof.
  unfold total_concepts.
  induction 1 as [|p Cp ps Cs (cs & Hget & Hemb) _ IH]; simpl; [reflexivity|].
  rewrite length_app, IH, Hget. f_equal.
  symmetry. eapply Forall2_length, Hemb.
Qed.

(** C8: the preparation cell succeeds when every property type has
    concepts; D then has one row per property type, in the order identity,
    the domain property types, relations; C is the concatenation of the
    blocks of ordered_C, one block per property type in that order and one
    row per concept, followed by the single row c_prime, so it has
    totalConcepts + 1 rows of EMBD_DIM entries; the last row of D belongs
    to "relations" and the last row of C is c_prime. *)
Theorem concept_vocabulary_layout (u : nat -> R)
    (property_types : list string) (property_concepts : dict)
    (state_identities relationships : list string) (k : nat) :
  state_identities <> [] -> relationships <> [] ->
  Forall (fun property =>
            exists concepts,
              dict_get (prepared_concepts property_concepts state_identities relationships)
                       property = Some concepts
              /\ concepts <> [])
         property_types ->
  let all_types := ("identity"%string :: property_types) ++ ["relations"%string] in
  let concepts_of := prepared_concepts property_concepts state_identities relationships in
  exists (D' : mat) (ordered_C : T3) (c_row : vec) (k' : nat),
    concept_vocabulary u EMBD_DIM property_types property_concepts
                       state_identities relationships k
    = Some ((length property_types, all_types, D', ordered_C, [c_row],
             concat ordered_C ++ [c_row]), k')
    /\ shape2 (length property_types + 2) EMBD_DIM D'
    /\ Forall2 (embeds u EMBD_DIM) all_types D'
    /\ nth 0 all_types ""%string = "identity"%string
    /\ nth (length property_types + 1) all_types ""%string = "relations"%string
    /\ embeds u EMBD_DIM "relations" (last D' [])
    /\ Forall2 (fun property Cp =>
                  exists concepts,
                    dict_get concepts_of property = Some concepts
                    /\ Forall2 (embeds u EMBD_DIM) concepts Cp)
               all_types ordered_C
    /\ shape2 (total_concepts concepts_of all_types + 1) EMBD_DIM
              (concat ordered_C ++ [c_row])
    /\ last (concat ordered_C ++ [c_row]) [] = c_row.
Proof.
  intros Hids Hrels Hpts all_types concepts_of.
  assert (Hall : Forall (fun property => exists concepts,
                           dict_get concepts_of property = Some concepts
                           /\ concepts <> [])
                        all_types).
  { unfold all_types. apply Forall_app. split.
    - constructor; [|exact Hpts]. exists state_identities. split; [reflexivity|assumption].
    - constructor; [|constructor]. exists relationships. split; [reflexivity|assumption]. }
  destruct (mapM_to_glove u all_types k) as (D' & k1 & HD & HDemb & HDlen).
  destruct (mapM_concepts u concepts_of all_types k1 Hall)
    as (ordered_C & k2 & HC & HCemb & HClen).
  exists D', ordered_C, (map u (seq k2 EMBD_DIM)), (k2 + EMBD_DIM)%nat.
  assert (HlenD : length D' = (length property_types + 2)%nat).
  { rewrite <- (Forall2_length HDemb). unfold all_types.
    rewrite length_app. simpl. lia. }
  split; [|split; [|split; [|split; [|split; [|split; [|split; [|split]]]]]]].
  - unfold concept_vocabulary. fold all_types.
    unfold prepared_concepts in concepts_of. fold concepts_of.
    unfold bind at 1. unfold bind at 1. rewrite HD.
    destruct D' as [|row D']; [simpl in HlenD; lia|].
    simpl stack. unfold ret at 1. unfold bind at 1. rewrite HC.
    unfold bind, torch_rand, ret. reflexivity.
  - split; assumption.
  - exact HDemb.
  - reflexivity.
  - unfold all_types.
    replace (length property_types + 1)%nat with (S (length property_types)) by lia.
    cbn [app nth]. rewrite app_nth2 by lia. rewrite Nat.sub_diag. reflexivity.
  - unfold all_types in HDemb.
    apply Forall2_app_inv_l in HDemb.
    destruct HDemb as (D1 & D2 & _ & H2 & ->).
    inversion H2 as [|a b l l' Hemb Hnil]; subst. inversion Hnil; subst.
    rewrite last_last. exact Hemb.
  - exact HCemb.
  - split.
    + rewrite length_app, (length_concat_concepts u concepts_of all_types) by assumption.
      reflexivity.
    + apply Forall_app. split.
      * apply Forall_concat. exact HClen.
      * constructor; [rewrite length_map, length_seq; reflexivity|constructor].
  - apply last_last.
Qed.


(** ** The construction loops, pair by pair *)

Lemma in_permutations_2 n i j :
  In (i, j) (permutations_2 n) <-> (i < n)%nat /\ (j < n)%nat /\ i <> j.
Proof.
  unfold permutations_2. rewrite in_flat_map. split.
  - intros (i' & Hi' & H). apply in_map_iff in H. destruct H as (j' & Heq & Hj').
    inversion Heq; subst. apply filter_In in Hj'. destruct Hj' as [Hj' Hne].
    apply in_seq in Hi'. apply in_seq in Hj'.
    apply negb_true_iff, Nat.eqb_neq in Hne. repeat split; (lia || congruence).
  - intros (Hi & Hj & Hne). exists i. split; [apply in_seq; lia|].
    apply in_map_iff. exists j. split; [reflexivity|].
    apply filter_In. split; [apply in_seq; lia|].
    apply negb_true_iff, Nat.eqb_neq. congruence.
Qed.

Lemma NoDup_permutations_2 n : NoDup (permutations_2 n).
Proof.
  unfold permutations_2.
  assert (H : forall l, NoDup l ->
            NoDup (flat_map (fun i => map (fun j => (i, j))
                                          (filter (fun j => negb (Nat.eqb j i)) (seq 0 n))) l)).
  { induction 1 as [|i l Hi Hl IH]; simpl; [constructor|].
    apply NoDup_app; [| exact IH |].
    - assert (Hmap : forall js, NoDup js -> NoDup (map (fun j : nat => (i, j)) js)).
      { induction 1 as [|j js Hj Hjs IHjs]; simpl; constructor; [|exact IHjs].
        intros Hin. apply in_map_iff in Hin. destruct Hin as (j' & Heq & Hj').
        inversion Heq; subst. contradiction. }
      apply Hmap, NoDup_filter, seq_NoDup.
    - intros [a b] Ha Hb. apply in_map_iff in Ha. destruct Ha as (j & Heq & _).
      inversion Heq; subst. apply in_flat_map in Hb. destruct Hb as (i' & Hi' & Hb).
      apply in_map_iff in Hb. destruct Hb as (j' & Heq' & _).
      inversion Heq'; subst. contradiction. }
  apply H, seq_NoDup.
Qed.

Lemma scene_graph_fold_exact (u : nat -> R) (relations : relations_dict) BATCH ps :
  NoDup ps ->
  (forall p, In p ps -> (fst p < length nodes)%nat /\ (snd p < length nodes)%nat) ->
  forall (mask : T3) (E : T4) k,
    shape3 BATCH (length nodes) (length nodes) mask ->
    shape3 BATCH (length nodes) (length nodes) E ->
    let st' := fold_left (scene_graph_step u EMBD_DIM nodes relations) ps (mask, E, k) in
    let hits := filter (related nodes relations) ps in
    snd st' = (k + length hits * EMBD_DIM)%nat
    /\ shape3 BATCH (length nodes) (length nodes) (fst (fst st'))
    /\ shape3 BATCH (length nodes) (length nodes) (snd (fst st'))
    /\ forall b i j, (b < BATCH)%nat ->
         (~ In (i, j) hits ->
          entry 0 (fst (fst st')) b i j = entry 0 mask b i j
          /\ entry [] (snd (fst st')) b i j = entry [] E b i j)
         /\ (forall t, nth_error hits t = Some (i, j) ->
             entry 0 (fst (fst st')) b i j = 1
             /\ entry [] (snd (fst st')) b i j = map u (seq (k + t * EMBD_DIM) EMBD_DIM)).
Proof.
  induction ps as [|x ps IH]; intros Hnd Hrange mask E k Hm HE; cbn zeta.
  - simpl. split; [lia|]. split; [exact Hm|]. split; [exact HE|].
    intros b i j Hb. split; [intros _; split; reflexivity|].
    intros t Ht. destruct t; discriminate.
  - inversion Hnd as [|x' ps' Hx Hnd']; subst.
    assert (Hrange' : forall p, In p ps -> (fst p < length nodes)%nat
                                          /\ (snd p < length nodes)%nat)
      by (intros; apply Hrange; simpl; auto).
    destruct (Hrange x (or_introl eq_refl)) as [Hx1 Hx2].
    cbn [fold_left filter].
    assert (Hstep : scene_graph_step u EMBD_DIM nodes relations (mask, E, k) x
                    = if related nodes relations x
                      then (assign_pair (fst x) (snd x) 1 mask,
                            assign_pair (fst x) (snd x) (map u (seq k EMBD_DIM)) E,
                            (k + EMBD_DIM)%nat)
                      else (mask, E, k)) by reflexivity.
    rewrite Hstep. clear Hstep.
    destruct (related nodes relations x) eqn:Hrel.
    + specialize (IH Hnd' Hrange'
                     (assign_pair (fst x) (snd x) 1 mask)
                     (assign_pair (fst x) (snd x) (map u (seq k EMBD_DIM)) E)
                     (k + EMBD_DIM)%nat
                     (shape3_assign_pair _ _ _ _ _ _ _ Hm)
                     (shape3_assign_pair _ _ _ _ _ _ _ HE)).
      cbn zeta in IH. destruct IH as (Hk & Hm' & HE' & Hent).
      split; [rewrite Hk; cbn [length]; lia|]. split; [exact Hm'|]. split; [exact HE'|].
      intros b i j Hb. destruct (Hent b i j Hb) as [Hsame Hhit]. split.
      * intros Hnot.
        assert (Hne : (fst x, snd x) <> (i, j)).
        { intros Heq. apply Hnot. left. rewrite <- Heq. destruct x; reflexivity. }
        destruct Hsame as [H1 H2]; [intros Hin; apply Hnot; right; exact Hin|].
        rewrite H1, H2, !entry_assign_pair_other by exact Hne. split; reflexivity.
      * intros [|t] Ht.
        -- simpl in Ht. inversion Ht; subst. simpl in Hx1, Hx2.
           destruct Hsame as [H1 H2].
           { intros Hin. apply filter_In in Hin. apply Hx, Hin. }
           rewrite H1, H2. simpl fst. simpl snd.
           rewrite (entry_assign_pair_same 0 i j 1 mask b _ _ _ Hm) by assumption.
           rewrite (entry_assign_pair_same [] i j _ E b _ _ _ HE) by assumption.
           split; [reflexivity|]. rewrite Nat.add_0_r. reflexivity.
        -- simpl in Ht. destruct (Hhit t Ht) as [H1 H2]. split; [exact H1|].
           rewrite H2. f_equal. f_equal. simpl. lia.
    + specialize (IH Hnd' Hrange' mask E k Hm HE). cbn zeta in IH. exact IH.
Qed.


Lemma in_related_pairs (relations : relations_dict) i j :
  In (i, j) (related_pairs nodes relations)
  <-> (i < length nodes)%nat /\ (j < length nodes)%nat /\ i <> j
      /\ pair_in (nth i nodes ""%string, nth j nodes ""%string) relations = true.
Proof.
  unfold related_pairs. rewrite filter_In, in_permutations_2. unfold related. simpl.
  split; [intros [(H1 & H2 & H3) H4]|intros (H1 & H2 & H3 & H4)]; repeat split; assumption.
Qed.

Lemma scene_graph_fold_copies (u : nat -> R) (relations : relations_dict) BATCH ps :
  forall (mask : T3) (E : T4) k,
    (exists mb, mask = repeat mb BATCH) -> (exists Eb, E = repeat Eb BATCH) ->
    let st' := fold_left (scene_graph_step u EMBD_DIM nodes relations) ps (mask, E, k) in
    (exists mb, fst (fst st') = repeat mb BATCH)
    /\ (exists Eb, snd (fst st') = repeat Eb BATCH).
Proof.
  induction ps as [|x ps IH]; intros mask E k Hm HE; cbn zeta; [simpl; split; assumption|].
  cbn [fold_left].
  assert (Hstep : scene_graph_step u EMBD_DIM nodes relations (mask, E, k) x
                  = if related nodes relations x
                    then (assign_pair (fst x) (snd x) 1 mask,
                          assign_pair (fst x) (snd x) (map u (seq k EMBD_DIM)) E,
                          (k + EMBD_DIM)%nat)
                    else (mask, E, k)) by reflexivity.
  rewrite Hstep. clear Hstep.
  destruct (related nodes relations x).
  - apply (IH _ _ (k + EMBD_DIM)%nat).
    + destruct Hm as [mb ->]. unfold assign_pair. rewrite map_repeat. eexists; reflexivity.
    + destruct HE as [Eb ->]. unfold assign_pair. rewrite map_repeat. eexists; reflexivity.
  - apply (IH _ _ k); assumption.
Qed.

(** X1: what the cell building adjacency_mask and E leaves behind.  The
    index pairs that get an embedding are the ordered pairs of distinct
    node indices whose pair of names is a key of [relations]; the t-th of
    them, in the order of permutations(range(n), 2), has flag 1 and holds
    the t-th block of EMBD_DIM scalars drawn; every other pair has flag 0
    and the zero vector; EMBD_DIM scalars are drawn per such pair; and all
    batch elements hold the same mask and the same embeddings. *)
Theorem scene_graph_exact (u : nat -> R) (relations : relations_dict) (BATCH k : nat) :
  let st := scene_graph u EMBD_DIM BATCH nodes relations k in
  let adjacency_mask := fst (fst st) in
  let E := snd (fst st) in
  let pairs := related_pairs nodes relations in
  snd st = (k + length pairs * EMBD_DIM)%nat
  /\ (forall i j,
        In (i, j) pairs
        <-> (i < length nodes)%nat /\ (j < length nodes)%nat /\ i <> j
            /\ pair_in (nth i nodes ""%string, nth j nodes ""%string) relations = true)
  /\ (forall b i j, (b < BATCH)%nat -> (i < length nodes)%nat -> (j < length nodes)%nat ->
        (In (i, j) pairs -> entry 0 adjacency_mask b i j = 1)
        /\ (~ In (i, j) pairs ->
            entry 0 adjacency_mask b i j = 0 /\ entry [] E b i j = zeros EMBD_DIM)
        /\ (forall t, nth_error pairs t = Some (i, j) ->
              entry [] E b i j = map u (seq (k + t * EMBD_DIM) EMBD_DIM)))
  /\ (forall b b', (b < BATCH)%nat -> (b' < BATCH)%nat ->
        nth b adjacency_mask [] = nth b' adjacency_mask []
        /\ nth b E [] = nth b' E []).
Proof.
  intros st adjacency_mask E pairs.
  assert (Hrange : forall p, In p (permutations_2 (length nodes)) ->
                     (fst p < length nodes)%nat /\ (snd p < length nodes)%nat).
  { intros [i j] Hp. apply in_permutations_2 in Hp. simpl. split; apply Hp. }
  destruct (scene_graph_fold_exact u relations BATCH (permutations_2 (length nodes))
              (NoDup_permutations_2 _) Hrange
              (repeat (repeat (repeat 0 (length nodes)) (length nodes)) BATCH)
              (repeat (repeat (repeat (zeros EMBD_DIM) (length nodes)) (length nodes)) BATCH)
              k (shape3_repeat _ _ _ _) (shape3_repeat _ _ _ _))
    as (Hk & _ & _ & Hent).
  destruct (scene_graph_fold_copies u relations BATCH (permutations_2 (length nodes))
              (repeat (repeat (repeat 0 (length nodes)) (length nodes)) BATCH)
              (repeat (repeat (repeat (zeros EMBD_DIM) (length nodes)) (length nodes)) BATCH)
              k (ex_intro _ _ eq_refl) (ex_intro _ _ eq_refl))
    as [[mb Hmb] [Eb HEb]].
  fold (scene_graph u EMBD_DIM BATCH nodes relations k) in Hk, Hent, Hmb, HEb.
  fold st in Hk, Hent, Hmb, HEb. fold adjacency_mask in Hent, Hmb. fold E in Hent, HEb.
  fold (related_pairs nodes relations) in Hk, Hent. fold pairs in Hk, Hent.
  split; [exact Hk|]. split; [intros i j; apply in_related_pairs|]. split.
  - intros b i j Hb Hi Hj. destruct (Hent b i j Hb) as [Hsame Hhit].
    split; [|split].
    + intros Hin. apply In_nth_error in Hin. destruct Hin as [t Ht].
      apply (Hhit t Ht).
    + intros Hnot. destruct (Hsame Hnot) as [H1 H2].
      rewrite H1, H2, !entry_repeat by assumption. split; reflexivity.
    + intros t Ht. apply (Hhit t Ht).
  - intros b b' Hb Hb'. rewrite Hmb, HEb.
    rewrite !(nth_indep _ [] mb), !(nth_indep _ [] Eb) by (rewrite repeat_length; lia).
    rewrite !nth_repeat. split; reflexivity.
Qed.


Lemma scene_graph_flag_iff (u : nat -> R) (relations : relations_dict) BATCH k b i j :
  (b < BATCH)%nat -> (i < length nodes)%nat -> (j < length nodes)%nat ->
  entry 0 (fst (fst (scene_graph u EMBD_DIM BATCH nodes relations k))) b i j = 1
  <-> In (i, j) (related_pairs nodes relations).
Proof.
  intros Hb Hi Hj.
  assert (Hrange : forall p, In p (permutations_2 (length nodes)) ->
                     (fst p < length nodes)%nat /\ (snd p < length nodes)%nat).
  { intros [i' j'] Hp. apply in_permutations_2 in Hp. simpl. split; apply Hp. }
  destruct (scene_graph_fold_exact u relations BATCH (permutations_2 (length nodes))
              (NoDup_permutations_2 _) Hrange
              (repeat (repeat (repeat 0 (length nodes)) (length nodes)) BATCH)
              (repeat (repeat (repeat (zeros EMBD_DIM) (length nodes)) (length nodes)) BATCH)
              k (shape3_repeat _ _ _ _) (shape3_repeat _ _ _ _))
    as (_ & _ & _ & Hent).
  fold (scene_graph u EMBD_DIM BATCH nodes relations k) in Hent.
  fold (related_pairs nodes relations) in Hent.
  destruct (Hent b i j Hb) as [Hsame Hhit]. split.
  - intros H1.
    destruct (in_dec (fun p q : nat * nat =>
                        ltac:(decide equality; apply Nat.eq_dec) : {p = q} + {p <> q})
                     (i, j) (related_pairs nodes relations)) as [Hin|Hnot];
      [exact Hin|].
    destruct (Hsame Hnot) as [H0 _]. rewrite entry_repeat in H0 by assumption.
    rewrite H0 in H1. lra.
  - intros Hin. apply In_nth_error in Hin. destruct Hin as [t Ht]. apply (Hhit t Ht).
Qed.

Lemma sparse_fold_exact (u : nat -> R) (relations : relations_dict) ps :
  forall indices (values : mat) k,
    fold_left (sparse_step u EMBD_DIM nodes relations) ps (indices, values, k)
    = (indices ++ filter (related nodes relations) ps,
       values ++ map (fun t => map u (seq (k + t * EMBD_DIM) EMBD_DIM))
                     (seq 0 (length (filter (related nodes relations) ps))),
       (k + length (filter (related nodes relations) ps) * EMBD_DIM)%nat).
Proof.
  induction ps as [|x ps IH]; intros indices values k.
  - simpl. rewrite !app_nil_r, Nat.add_0_r. reflexivity.
  - cbn [fold_left filter].
    assert (Hstep : sparse_step u EMBD_DIM nodes relations (indices, values, k) x
                    = if related nodes relations x
                      then (indices ++ [x], values ++ [map u (seq k EMBD_DIM)],
                            (k + EMBD_DIM)%nat)
                      else (indices, values, k)) by reflexivity.
    rewrite Hstep. clear Hstep.
    destruct (related nodes relations x); [|apply IH].
    rewrite IH. cbn [length]. rewrite <- cons_seq, <- seq_shift. cbn [map].
    rewrite map_map, <- !app_assoc. cbn [app]. rewrite Nat.add_0_r.
    f_equal; [f_equal|lia].
    f_equal. f_equal. apply map_ext. intros t. f_equal. f_equal. lia.
Qed.

(** X2: the sparse cell, run after the dense one.  It raises exactly when
    no ordered pair of distinct nodes has a relation or BATCH is 0 (the
    dense cell never raises).  When it succeeds E_sparse has the shape of
    E, every copy lists as indices exactly the index pairs whose dense
    adjacency flag is 1, in the order of the loop, and holds one value row
    of EMBD_DIM entries per index; the rows are drawn afresh, after the
    scalars the dense cell consumed, so they are not the embeddings of E. *)
Theorem sparse_scene_graph_exact (u : nat -> R) (relations : relations_dict)
    (BATCH k : nat) :
  let dense := scene_graph u EMBD_DIM BATCH nodes relations k in
  let adjacency_mask := fst (fst dense) in
  let E := snd (fst dense) in
  let pairs := related_pairs nodes relations in
  let sparse := sparse_scene_graph u EMBD_DIM BATCH nodes relations (snd dense) in
  let sparse_adj :=
    {| sp_indices := [map fst pairs; map snd pairs];
       sp_values := map (fun t => map u (seq (k + (length pairs + t) * EMBD_DIM)
                                             EMBD_DIM))
                        (seq 0 (length pairs));
       sp_size := [length nodes; length nodes; EMBD_DIM] |} in
  (sparse = None <-> pairs = [] \/ BATCH = 0%nat)
  /\ shape4 BATCH (length nodes) (length nodes) EMBD_DIM E
  /\ forall E_sparse k', sparse = Some (E_sparse, k') ->
       sparse_shape E_sparse = [BATCH; length nodes; length nodes; EMBD_DIM]
       /\ k' = (k + 2 * length pairs * EMBD_DIM)%nat
       /\ E_sparse = repeat sparse_adj BATCH
       /\ (forall b i j, (b < BATCH)%nat -> (i < length nodes)%nat ->
             (j < length nodes)%nat ->
             (In (i, j) pairs <-> entry 0 adjacency_mask b i j = 1))
       /\ (forall t i j, nth_error pairs t = Some (i, j) ->
             forall b, (b < BATCH)%nat ->
               entry [] E b i j = map u (seq (k + t * EMBD_DIM) EMBD_DIM)
               /\ nth t (sp_values (nth b E_sparse sparse_adj)) []
                  = map u (seq (k + (length pairs + t) * EMBD_DIM) EMBD_DIM)).
Proof.
  intros dense adjacency_mask E pairs sparse sparse_adj.
  assert (Hrange : forall p, In p (permutations_2 (length nodes)) ->
                     (fst p < length nodes)%nat /\ (snd p < length nodes)%nat).
  { intros [i' j'] Hp. apply in_permutations_2 in Hp. simpl. split; apply Hp. }
  destruct (scene_graph_fold_exact u relations BATCH (permutations_2 (length nodes))
              (NoDup_permutations_2 _) Hrange
              (repeat (repeat (repeat 0 (length nodes)) (length nodes)) BATCH)
              (repeat (repeat (repeat (zeros EMBD_DIM) (length nodes)) (length nodes)) BATCH)
              k (shape3_repeat _ _ _ _) (shape3_repeat _ _ _ _))
    as (Hk & _ & _ & Hent).
  fold (scene_graph u EMBD_DIM BATCH nodes relations k) in Hk, Hent.
  fold dense in Hk, Hent. fold E in Hent.
  fold (related_pairs nodes relations) in Hk, Hent. fold pairs in Hk, Hent.
  assert (Hflag : forall b i j, (b < BATCH)%nat -> (i < length nodes)%nat ->
                    (j < length nodes)%nat ->
                    (In (i, j) pairs <-> entry 0 adjacency_mask b i j = 1)).
  { intros b i j Hb Hi Hj. symmetry.
    apply (scene_graph_flag_iff u relations BATCH k); assumption. }
  assert (Hsparse :
    sparse = if (Nat.eqb (length pairs) 0 || Nat.eqb BATCH 0)%bool then None
             else Some (repeat sparse_adj BATCH, (k + 2 * length pairs * EMBD_DIM)%nat)).
  { unfold sparse, sparse_scene_graph. rewrite sparse_fold_exact. cbn [fst snd app].
    fold (related_pairs nodes relations). fold pairs. rewrite Hk.
    rewrite (map_ext (fun t => map u (seq (k + length pairs * EMBD_DIM + t * EMBD_DIM)
                                          EMBD_DIM))
                     (fun t => map u (seq (k + (length pairs + t) * EMBD_DIM) EMBD_DIM)))
      by (intros t; f_equal; f_equal; lia).
    unfold index_matrix, sparse_adj.
    replace (k + length pairs * EMBD_DIM + length pairs * EMBD_DIM)%nat
      with (k + 2 * length pairs * EMBD_DIM)%nat by lia.
    set (vals := map _ (seq 0 (length pairs))).
    assert (Hlen : length vals = length pairs)
      by (unfold vals; rewrite length_map, length_seq; reflexivity).
    rewrite <- Hlen. clearbody vals.
    destruct vals as [|v vals]; [reflexivity|].
    cbn [torch_stack length Nat.eqb orb].
    destruct BATCH as [|B]; reflexivity. }
  assert (Hshape : shape4 BATCH (length nodes) (length nodes) EMBD_DIM E)
    by apply (scene_graph_invariant u relations BATCH k).
  clearbody sparse pairs dense.
  split; [|split].
  - rewrite Hsparse. rewrite <- length_zero_iff_nil, <- !Nat.eqb_eq.
    destruct (Nat.eqb (length pairs) 0), (Nat.eqb BATCH 0); cbn [orb]; split;
      intros H; auto; try discriminate.
    destruct H; discriminate.
  - exact Hshape.
  - intros E_sparse k' Hsome. rewrite Hsparse in Hsome.
    destruct (Nat.eqb BATCH 0) eqn:HB;
      [rewrite Bool.orb_true_r in Hsome; discriminate|].
    destruct (Nat.eqb (length pairs) 0) eqn:HP; [discriminate|]. cbn [orb] in Hsome.
    injection Hsome as HE Hk'. subst E_sparse k'.
    apply Nat.eqb_neq in HB.
    split.
    { unfold sparse_shape. rewrite repeat_length.
      destruct BATCH as [|B]; [contradiction HB; reflexivity|reflexivity]. }
    split; [reflexivity|]. split; [reflexivity|]. split; [exact Hflag|].
    intros t i j Ht b Hb. split; [apply (Hent b i j Hb), Ht|].
    rewrite nth_repeat. cbn [sp_values sparse_adj].
    assert (Hlt : (t < length pairs)%nat)
      by (apply nth_error_Some; rewrite Ht; discriminate).
    rewrite (nth_map_lt _ _ _ 0%nat) by (rewrite length_seq; exact Hlt).
    rewrite seq_nth by exact Hlt. reflexivity.
Qed.


(** ** The vocabulary and question cells, scalar by scalar *)

Lemma rows_from_S (u : nat -> R) k n :
  rows_from u EMBD_DIM k (S n)
  = map u (seq k EMBD_DIM) :: rows_from u EMBD_DIM (k + EMBD_DIM) n.
Proof.
  unfold rows_from. rewrite <- cons_seq, <- seq_shift. cbn [map].
  rewrite map_map, Nat.add_0_r. f_equal.
  apply map_ext. intros t. f_equal. f_equal. lia.
Qed.

Lemma rows_from_app (u : nat -> R) n1 n2 : forall k,
  rows_from u EMBD_DIM k (n1 + n2)
  = rows_from u EMBD_DIM k n1 ++ rows_from u EMBD_DIM (k + n1 * EMBD_DIM) n2.
Proof.
  induction n1 as [|n1 IH]; intros k.
  - cbn [Nat.add Nat.mul]. rewrite Nat.add_0_r. reflexivity.
  - cbn [Nat.add]. rewrite !rows_from_S, IH. cbn [app]. f_equal. f_equal. f_equal. lia.
Qed.

Lemma length_rows_from (u : nat -> R) k n : length (rows_from u EMBD_DIM k n) = n.
Proof. unfold rows_from. rewrite length_map, length_seq. reflexivity. Qed.

Lemma nth_rows_from (u : nat -> R) k n t :
  (t < n)%nat ->
  nth t (rows_from u EMBD_DIM k n) [] = map u (seq (k + t * EMBD_DIM) EMBD_DIM).
Proof.
  intros Ht. unfold rows_from.
  rewrite (nth_map_lt _ _ _ 0%nat) by (rewrite length_seq; exact Ht).
  rewrite seq_nth by exact Ht. reflexivity.
Qed.

Lemma mapM_to_glove_rows (u : nat -> R) (tokens : list string) : forall k,
  mapM (to_glove u EMBD_DIM) tokens k
  = Some (rows_from u EMBD_DIM k (length tokens), (k + length tokens * EMBD_DIM)%nat).
Proof.
  induction tokens as [|t tokens IH]; intros k.
  - cbn. rewrite Nat.add_0_r. reflexivity.
  - cbn [mapM length]. unfold bind at 1. unfold to_glove at 1, torch_rand at 1.
    unfold bind at 1. rewrite IH, rows_from_S. unfold ret. f_equal. f_equal. lia.
Qed.

(** One block of ordered_C: the rows of the concepts of one property type. *)
Lemma concepts_block (u : nat -> R) (d : dict) (property : string) k :
  bind (getitem d property) (fun concepts =>
  bind (mapM (to_glove u EMBD_DIM) concepts) (fun rows => stack rows)) k
  = match dict_get d property with
    | Some (c :: concepts) =>
        Some (rows_from u EMBD_DIM k (S (length concepts)),
              (k + S (length concepts) * EMBD_DIM)%nat)
    | _ => None
    end.
Proof.
  unfold bind at 1. unfold getitem. destruct (dict_get d property) as [[|c cs]|].
  - reflexivity.
  - unfold ret at 1. unfold bind. rewrite mapM_to_glove_rows. cbn [length].
    rewrite rows_from_S. reflexivity.
  - reflexivity.
Qed.

Lemma mapM_concepts_rows (u : nat -> R) (d : dict) (properties : list string) : forall k,
  match mapM (fun property =>
                bind (getitem d property) (fun concepts =>
                bind (mapM (to_glove u EMBD_DIM) concepts) (fun rows => stack rows)))
             properties k with
  | None =>
      Exists (fun property => dict_get d property = None \/ dict_get d property = Some [])
             properties
  | Some (ordered_C, k') =>
      Forall (fun property => exists c concepts, dict_get d property = Some (c :: concepts))
             properties
      /\ concat ordered_C = rows_from u EMBD_DIM k (total_concepts d properties)
      /\ map (@length vec) ordered_C
         = map (fun property => match dict_get d property with
                                | Some concepts => length concepts
                                | None => 0%nat
                                end) properties
      /\ k' = (k + total_concepts d properties * EMBD_DIM)%nat
  end.
Proof.
  induction properties as [|p ps IH]; intros k.
  - cbn. rewrite Nat.add_0_r. repeat split; constructor.
  - cbn [mapM]. unfold bind at 1. rewrite concepts_block.
    destruct (dict_get d p) as [[|c cs]|] eqn:Hget.
    + apply Exists_cons_hd. right. exact Hget.
    + specialize (IH (k + S (length cs) * EMBD_DIM)%nat).
      unfold bind at 1.
      destruct (mapM _ ps (k + S (length cs) * EMBD_DIM)%nat) as [[Cs k']|].
      * destruct IH as (Hall & Hcat & Hlens & Hk). unfold ret.
        unfold total_concepts in *. cbn [map list_sum concat]. rewrite Hget.
        split; [constructor; [exists c, cs; exact Hget|exact Hall]|].
        match goal with
        | |- context [list_sum (?a :: ?l)] =>
            change (list_sum (a :: l)) with (S (length cs) + list_sum l)%nat
        end.
        split; [rewrite (rows_from_app u (S (length cs))), Hcat; reflexivity|].
        split; [rewrite length_rows_from, Hlens; reflexivity|].
        rewrite Hk. lia.
      * apply Exists_cons_tl. exact IH.
    + apply Exists_cons_hd. left. exact Hget.
Qed.

Lemma dict_get_prepared (property_concepts : dict) (state_identities relationships : list string)
    (property : string) :
  dict_get (prepared_concepts property_concepts state_identities relationships) property
  = if String.eqb "relations" property then Some relationships
    else if String.eqb "identity" property then Some state_identities
    else dict_get property_concepts property.
Proof. reflexivity. Qed.

Lemma concept_vocabulary_run (u : nat -> R)
    (property_types : list string) (property_concepts : dict)
    (state_identities relationships : list string) (k : nat) :
  let all_types := ("identity"%string :: property_types) ++ ["relations"%string] in
  let d := prepared_concepts property_concepts state_identities relationships in
  let k1 := (k + (length property_types + 2) * EMBD_DIM)%nat in
  concept_vocabulary u EMBD_DIM property_types property_concepts
                     state_identities relationships k
  = match mapM (fun property =>
                  bind (getitem d property) (fun concepts =>
                  bind (mapM (to_glove u EMBD_DIM) concepts) (fun rows => stack rows)))
               all_types k1 with
    | None => None
    | Some (ordered_C, k2) =>
        Some ((length property_types, all_types,
               rows_from u EMBD_DIM k (length property_types + 2), ordered_C,
               [map u (seq k2 EMBD_DIM)],
               concat ordered_C ++ [map u (seq k2 EMBD_DIM)]),
              (k2 + EMBD_DIM)%nat)
    end.
Proof.
  intros all_types d k1. unfold concept_vocabulary.
  fold all_types. fold (prepared_concepts property_concepts state_identities relationships).
  fold d. unfold bind at 1. unfold bind at 1. rewrite mapM_to_glove_rows.
  assert (Hlen : length all_types = (length property_types + 2)%nat).
  { unfold all_types. rewrite length_app. cbn [length]. lia. }
  rewrite Hlen. fold k1.
  replace (length property_types + 2)%nat with (S (length property_types + 1)) at 1 by lia.
  rewrite rows_from_S. cbn [stack]. unfold ret at 1.
  rewrite <- rows_from_S.
  replace (S (length property_types + 1)) with (length property_types + 2)%nat by lia.
  unfold bind at 1.
  destruct (mapM _ all_types k1) as [[ordered_C k2]|]; reflexivity.
Qed.

(** X3: the preparation cell raises exactly when state_identities is
    empty, relationships is empty, or some listed property type other than
    identity and relations has no entry in property_concepts (KeyError) or
    an empty list of concepts (torch.stack of an empty list).  What
    property_concepts holds under the keys identity and relations plays no
    part: both are overwritten before they are read. *)
Theorem concept_vocabulary_raises (u : nat -> R)
    (property_types : list string) (property_concepts : dict)
    (state_identities relationships : list string) (k : nat) :
  concept_vocabulary u EMBD_DIM property_types property_concepts
                     state_identities relationships k = None
  <-> state_identities = [] \/ relationships = []
      \/ exists property,
           In property property_types
           /\ property <> "identity"%string /\ property <> "relations"%string
           /\ (dict_get property_concepts property = None
               \/ dict_get property_concepts property = Some []).
Proof.
  rewrite concept_vocabulary_run.
  set (d := prepared_concepts property_concepts state_identities relationships).
  set (all_types := ("identity"%string :: property_types) ++ ["relations"%string]).
  pose proof (mapM_concepts_rows u d all_types
                (k + (length property_types + 2) * EMBD_DIM)%nat) as Hrun.
  assert (Hbad : Exists (fun property => dict_get d property = None
                                         \/ dict_get d property = Some []) all_types
                 <-> state_identities = [] \/ relationships = []
                     \/ exists property,
                          In property property_types
                          /\ property <> "identity"%string /\ property <> "relations"%string
                          /\ (dict_get property_concepts property = None
                              \/ dict_get property_concepts property = Some [])).
  { unfold all_types. rewrite Exists_exists. split.
    - intros (p & Hin & Hp). unfold d in Hp. rewrite dict_get_prepared in Hp.
      destruct (String.eqb_spec "relations" p) as [Hr|Hr].
      { right. left. destruct Hp as [Hp|Hp]; congruence. }
      destruct (String.eqb_spec "identity" p) as [Hi|Hi].
      { left. destruct Hp as [Hp|Hp]; congruence. }
      right. right. exists p. cbn [app] in Hin.
      destruct Hin as [Hin|Hin]; [congruence|].
      apply in_app_or in Hin. destruct Hin as [Hin|[Hin|[]]]; [|congruence].
      split; [exact Hin|]. split; [congruence|]. split; [congruence|exact Hp].
    - intros [Hs|[Hr|(p & Hin & Hi & Hr & Hp)]].
      + exists "identity"%string. split; [left; reflexivity|].
        right. unfold d. rewrite dict_get_prepared. cbn. congruence.
      + exists "relations"%string. split; [apply in_or_app; right; left; reflexivity|].
        right. unfold d. rewrite dict_get_prepared. cbn. congruence.
      + exists p. split; [right; apply in_or_app; left; exact Hin|].
        unfold d. rewrite dict_get_prepared.
        destruct (String.eqb_spec "relations" p) as [Hr'|_]; [congruence|].
        destruct (String.eqb_spec "identity" p) as [Hi'|_]; [congruence|exact Hp]. }
  rewrite <- Hbad.
  destruct (mapM _ all_types _) as [[ordered_C k2]|].
  - split; [discriminate|]. intros Hex. exfalso.
    destruct Hrun as (Hall & _). apply Exists_exists in Hex.
    destruct Hex as (p & Hin & Hp). rewrite Forall_forall in Hall.
    destruct (Hall p Hin) as (c & cs & Hget). destruct Hp as [Hp|Hp]; congruence.
  - split; [intros _; exact Hrun|reflexivity].
Qed.

(** X4: to_glove never reads its token, so the tensors of the vocabulary
    are the random stream cut into rows of EMBD_DIM scalars in the order of
    the calls: D is the first L + 2 rows, C the rows that follow, one per
    concept in the order identity, property types, relations, and then
    c_prime; the block of ordered_C of a property type has as many rows as
    the type has concepts, and the cell consumes (L + 3 + number of
    concepts) * EMBD_DIM scalars. *)
Theorem concept_vocabulary_stream (u : nat -> R)
    (property_types : list string) (property_concepts : dict)
    (state_identities relationships : list string) (k : nat)
    L' all_types (D' : mat) (ordered_C : T3) (c_prime C' : mat) (k' : nat) :
  concept_vocabulary u EMBD_DIM property_types property_concepts
                     state_identities relationships k
  = Some ((L', all_types, D', ordered_C, c_prime, C'), k') ->
  let d := prepared_concepts property_concepts state_identities relationships in
  let total := total_concepts d all_types in
  L' = length property_types
  /\ all_types = ("identity"%string :: property_types) ++ ["relations"%string]
  /\ D' ++ C' = rows_from u EMBD_DIM k (L' + 2 + total + 1)
  /\ D' = rows_from u EMBD_DIM k (L' + 2)
  /\ C' = rows_from u EMBD_DIM (k + (L' + 2) * EMBD_DIM) (total + 1)
  /\ c_prime = [last C' []]
  /\ map (@length vec) ordered_C
     = map (fun property => match dict_get d property with
                            | Some concepts => length concepts
                            | None => 0%nat
                            end) all_types
  /\ k' = (k + (L' + 3 + total) * EMBD_DIM)%nat.
Proof.
  rewrite concept_vocabulary_run.
  pose proof (mapM_concepts_rows u
                (prepared_concepts property_concepts state_identities relationships)
                (("identity"%string :: property_types) ++ ["relations"%string])
                (k + (length property_types + 2) * EMBD_DIM)%nat) as Hrun.
  destruct (mapM _ _ _) as [[Cs k2]|]; [|discriminate].
  intros Heq d total. injection Heq as HL Hall HD HC Hc HC' Hk'.
  destruct Hrun as (_ & Hcat & Hlens & Hk2).
  subst L' all_types D' ordered_C c_prime C' k'. fold d in Hcat, Hlens, Hk2. fold total in Hcat, Hk2.
  split; [reflexivity|]. split; [reflexivity|].
  assert (HC : concat Cs ++ [map u (seq k2 EMBD_DIM)]
               = rows_from u EMBD_DIM (k + (length property_types + 2) * EMBD_DIM)
                           (total + 1)).
  { rewrite rows_from_app, Hcat. f_equal.
    change [map u (seq k2 EMBD_DIM)] with ([] ++ [map u (seq k2 EMBD_DIM)]).
    rewrite (rows_from_S u _ 0). unfold rows_from at 1. cbn [seq map app].
    rewrite Hk2. reflexivity. }
  split; [rewrite HC, <- Nat.add_assoc,
                  (rows_from_app u (length property_types + 2)); reflexivity|].
  split; [reflexivity|]. split; [exact HC|].
  split; [rewrite last_last; reflexivity|].
  split; [exact Hlens|].
  change (total_concepts d _) with total in Hk2. rewrite Hk2. lia.
Qed.


Lemma question_block (u : nat -> R) (question : list string) k :
  bind (mapM (to_glove u EMBD_DIM) question) (fun rows => stack rows) k
  = match question with
    | [] => None
    | _ :: _ => Some (rows_from u EMBD_DIM k (length question),
                      (k + length question * EMBD_DIM)%nat)
    end.
Proof.
  unfold bind. rewrite mapM_to_glove_rows. destruct question as [|w ws]; [reflexivity|].
  cbn [length]. rewrite rows_from_S. reflexivity.
Qed.

Lemma mapM_questions (u : nat -> R) (questions : list (list string)) : forall k,
  match mapM (fun question =>
                bind (mapM (to_glove u EMBD_DIM) question) (fun rows => stack rows))
             questions k with
  | None => In [] questions
  | Some (out, k') =>
      ~ In [] questions
      /\ map (@length vec) out = map (@length string) questions
      /\ concat out = rows_from u EMBD_DIM k (list_sum (map (@length string) questions))
      /\ k' = (k + list_sum (map (@length string) questions) * EMBD_DIM)%nat
  end.
Proof.
  induction questions as [|q0 qs IH]; intros k.
  - cbn. rewrite Nat.add_0_r. split; [intros []|]. repeat split.
  - cbn [mapM]. unfold bind at 1. rewrite question_block.
    destruct q0 as [|w ws]; [left; reflexivity|].
    specialize (IH (k + length (w :: ws) * EMBD_DIM)%nat). unfold bind at 1.
    destruct (mapM _ qs _) as [[out k']|]; [|right; exact IH].
    destruct IH as (Hne & Hlens & Hcat & Hk). unfold ret.
    cbn [map concat].
    match goal with
    | |- context [list_sum (?a :: ?l)] =>
        change (list_sum (a :: l)) with (a + list_sum l)%nat
    end.
    split; [intros [Hin|Hin]; [discriminate|exact (Hne Hin)]|].
    split; [rewrite length_rows_from, Hlens; reflexivity|].
    split; [rewrite (rows_from_app u (length (w :: ws))), Hcat; reflexivity|].
    rewrite Hk. lia.
Qed.

Lemma nth_concat_uniform {A : Type} (T : nat) (dflt : A) (out : list (list A)) :
  Forall (fun rows => length rows = T) out ->
  forall b w, (b < length out)%nat -> (w < T)%nat ->
    nth w (nth b out []) dflt = nth (b * T + w) (concat out) dflt.
Proof.
  induction 1 as [|rows out Hrows _ IH]; intros b w Hb Hw; [inversion Hb|].
  cbn [concat]. destruct b as [|b].
  - cbn [nth Nat.mul Nat.add]. rewrite app_nth1 by lia. reflexivity.
  - cbn [nth length] in *. rewrite app_nth2 by (rewrite Hrows; cbn [Nat.mul]; lia).
    rewrite IH by lia. f_equal. rewrite Hrows. cbn [Nat.mul]. lia.
Qed.

Lemma embed_questions_spec (u : nat -> R) (questions : list (list string)) (k : nat) :
  (embed_questions u EMBD_DIM questions k = None
   <-> questions = [] \/ In [] questions
       \/ exists q1 q2, In q1 questions /\ In q2 questions /\ length q1 <> length q2)
  /\ forall embd_questions k',
       embed_questions u EMBD_DIM questions k = Some (embd_questions, k') ->
       exists T,
         (0 < T)%nat
         /\ Forall (fun question => length question = T) questions
         /\ shape3 (length questions) T EMBD_DIM embd_questions
         /\ concat embd_questions = rows_from u EMBD_DIM k (length questions * T)
         /\ (forall b w, (b < length questions)%nat -> (w < T)%nat ->
               nth w (nth b embd_questions []) []
               = map u (seq (k + (b * T + w) * EMBD_DIM) EMBD_DIM))
         /\ k' = (k + length questions * T * EMBD_DIM)%nat.
Proof.
  unfold embed_questions. unfold bind at 1. unfold bind at 2.
  pose proof (mapM_questions u questions k) as Hrun.
  destruct (mapM _ questions k) as [[out k1]|].
  2:{ split; [split; [intros _; right; left; exact Hrun|reflexivity]|discriminate]. }
  destruct Hrun as (Hne & Hlens & Hcat & Hk1).
  destruct out as [|first rest].
  { destruct questions as [|q0 qs]; [|discriminate Hlens].
    split; [split; [intros _; left; reflexivity|reflexivity]|discriminate]. }
  destruct questions as [|q0 qs]; [discriminate Hlens|].
  cbn [map] in Hlens. injection Hlens as Hfirst Hrest.
  assert (Hq0 : (0 < length q0)%nat).
  { destruct q0; [exfalso; apply Hne; left; reflexivity|cbn; lia]. }
  destruct (forallb (fun t => Nat.eqb (length t) (length first)) rest) eqn:Hall.
  - assert (Hqs : Forall (fun question => length question = length q0) (q0 :: qs)).
    { constructor; [reflexivity|]. rewrite forallb_forall in Hall.
      apply Forall_forall. intros q' Hin.
      assert (Hin' : In (length q') (map (@length vec) rest))
        by (rewrite Hrest; apply in_map, Hin).
      apply in_map_iff in Hin'. destruct Hin' as (t & Ht & Hint).
      apply Hall in Hint. apply Nat.eqb_eq in Hint. congruence. }
    assert (Hout : Forall (fun rows : mat => length rows = length q0) (first :: rest)).
    { constructor; [exact Hfirst|]. rewrite forallb_forall in Hall.
      apply Forall_forall. intros t Hin. apply Hall in Hin.
      apply Nat.eqb_eq in Hin. congruence. }
    assert (Hsum : list_sum (map (@length string) (q0 :: qs))
                   = (length (q0 :: qs) * length q0)%nat).
    { clear - Hqs. induction Hqs as [|q' qs' Hq' _ IH]; [reflexivity|].
      change (list_sum (map _ (q' :: qs')))
        with (length q' + list_sum (map (@length string) qs'))%nat.
      rewrite IH, Hq'. reflexivity. }
    assert (Hlen : length (first :: rest) = length (q0 :: qs)).
    { cbn [length]. f_equal.
      rewrite <- (length_map (@length vec) rest), Hrest, length_map. reflexivity. }
    split.
    + split; [discriminate|]. intros [H|[H|(q1 & q2 & H1 & H2 & Hd)]].
      * discriminate.
      * contradiction.
      * rewrite Forall_forall in Hqs. rewrite (Hqs q1 H1), (Hqs q2 H2) in Hd.
        contradiction Hd; reflexivity.
    + intros embd k' Heq. unfold ret in Heq. injection Heq as <- <-.
      exists (length q0). rewrite Hsum in Hcat, Hk1.
      split; [exact Hq0|]. split; [exact Hqs|].
      assert (Hrow : forall b w, (b < length (q0 :: qs))%nat -> (w < length q0)%nat ->
                       nth w (nth b (first :: rest) []) []
                       = map u (seq (k + (b * length q0 + w) * EMBD_DIM) EMBD_DIM)).
      { intros b w Hb Hw.
        rewrite (nth_concat_uniform (length q0) [] (first :: rest) Hout) by lia.
        rewrite Hcat. apply nth_rows_from.
        apply Nat.lt_le_trans with (b * length q0 + length q0)%nat; [lia|].
        change (b * length q0 + length q0)%nat with (b * length q0 + length q0)%nat.
        rewrite <- (Nat.mul_succ_l b). apply Nat.mul_le_mono_r. lia. }
      split.
      { split; [exact Hlen|]. apply Forall_nth. intros b d0 Hb.
        rewrite (nth_indep _ d0 []) by exact Hb.
        assert (Hb' : length (nth b (first :: rest) []) = length q0).
        { rewrite Forall_forall in Hout. apply Hout, nth_In, Hb. }
        split; [exact Hb'|]. apply Forall_nth. intros w d1 Hw.
        rewrite (nth_indep _ d1 []) by exact Hw.
        rewrite Hrow by (rewrite <- ?Hlen, <- ?Hb'; assumption).
        rewrite length_map, length_seq. reflexivity. }
      split; [exact Hcat|]. split; [exact Hrow|exact Hk1].
  - split; [|discriminate]. split; [|reflexivity]. intros _. right. right.
    assert (Hex : exists t, In t rest /\ length t <> length first).
    { clear - Hall. induction rest as [|t rest IH]; [discriminate|].
      cbn [forallb] in Hall. apply Bool.andb_false_iff in Hall.
      destruct Hall as [Ht|Hr].
      - exists t. split; [left; reflexivity|]. apply Nat.eqb_neq, Ht.
      - destruct (IH Hr) as (t' & Hin & Hd). exists t'. split; [right; exact Hin|exact Hd]. }
    destruct Hex as (t & Hin & Hd).
    assert (Hin' : In (length t) (map (@length string) qs))
      by (rewrite <- Hrest; apply in_map, Hin).
    apply in_map_iff in Hin'. destruct Hin' as (q' & Hq' & Hinq).
    exists q', q0. split; [right; exact Hinq|]. split; [left; reflexivity|]. congruence.
Qed.

(** X5: the cell embedding the questions raises exactly when there is no
    question, some question has no word, or two questions differ in
    length (torch.stack of an empty list or of tensors of unequal shape).
    Otherwise embd_questions has shape [number of questions, T, EMBD_DIM]
    for the common length T, and word w of question b is the row of the
    random stream at position b * T + w after the start: the words
    themselves are never read, so equal questions get unequal rows. *)
Theorem embed_questions_exact (u : nat -> R) (questions : list (list string)) (k : nat) :
  (embed_questions u EMBD_DIM questions k = None
   <-> questions = [] \/ In [] questions
       \/ exists q1 q2, In q1 questions /\ In q2 questions /\ length q1 <> length q2)
  /\ forall embd_questions k',
       embed_questions u EMBD_DIM questions k = Some (embd_questions, k') ->
       exists T,
         (0 < T)%nat
         /\ Forall (fun question => length question = T) questions
         /\ shape3 (length questions) T EMBD_DIM embd_questions
         /\ concat embd_questions = rows_from u EMBD_DIM k (length questions * T)
         /\ (forall b w, (b < length questions)%nat -> (w < T)%nat ->
               nth w (nth b embd_questions []) []
               = map u (seq (k + (b * T + w) * EMBD_DIM) EMBD_DIM))
         /\ k' = (k + length questions * T * EMBD_DIM)%nat.
Proof. apply embed_questions_spec. Qed.


(** ** Identity initialisation of the bilinear projections *)

Lemma dot_indicator (x : vec) : forall s c,
  dot x (map (fun i => if Nat.eqb i c then 1 else 0) (seq s (length x)))
  = if Nat.leb s c then nth (c - s) x 0 else 0.
Proof.
  unfold dot, vmul.
  induction x as [|a x IH]; intros s c.
  - cbn. destruct (Nat.leb s c), (c - s)%nat; reflexivity.
  - cbn [length seq map map2 sumR fold_right]. fold (sumR (map2 Rmult x
      (map (fun i => if Nat.eqb i c then 1 else 0) (seq (S s) (length x))))).
    rewrite IH.
    destruct (Nat.eqb_spec s c) as [->|Hsc].
    + rewrite Nat.leb_refl, Nat.sub_diag.
      destruct (Nat.leb_spec (S c) c); [lia|]. cbn [nth]. lra.
    + destruct (Nat.leb_spec s c) as [Hle|Hgt].
      * destruct (Nat.leb_spec (S s) c); [|lia].
        replace (c - s)%nat with (S (c - S s)) by lia. cbn [nth]. lra.
      * destruct (Nat.leb_spec (S s) c); [lia|]. lra.
Qed.

Lemma col_eye d c :
  (c < d)%nat -> col c (eye d) = map (fun i => if Nat.eqb i c then 1 else 0) (seq 0 d).
Proof.
  intros Hc. unfold col, eye. rewrite map_map. apply map_ext. intros i.
  rewrite (nth_map_lt _ _ _ 0%nat) by (rewrite length_seq; exact Hc).
  rewrite seq_nth by exact Hc. reflexivity.
Qed.

Lemma vecmat_eye d (x : vec) : length x = d -> vecmat d x (eye d) = x.
Proof.
  intros Hx. apply nth_ext with (d := 0) (d' := 0).
  - rewrite length_vecmat. symmetry. exact Hx.
  - intros c Hc. rewrite length_vecmat in Hc. unfold vecmat.
    rewrite (nth_map_lt _ _ _ 0%nat) by (rewrite length_seq; exact Hc).
    rewrite seq_nth by exact Hc. cbn [Nat.add]. rewrite col_eye by exact Hc.
    rewrite <- Hx at 1. rewrite dot_indicator. cbn [Nat.leb].
    rewrite Nat.sub_0_r. reflexivity.
Qed.

Lemma col_transpose (M : mat) c :
  Forall (fun row => length row = EMBD_DIM) M -> (c < length M)%nat ->
  col c (transpose EMBD_DIM M) = nth c M [].
Proof.
  intros HM Hc. unfold transpose, col. rewrite map_map.
  apply nth_ext with (d := 0) (d' := 0).
  - rewrite length_map, length_seq. symmetry. apply (Forall_nth_lt _ _ c [] HM Hc).
  - intros j Hj. rewrite length_map, length_seq in Hj.
    rewrite (nth_map_lt _ _ _ 0%nat) by (rewrite length_seq; exact Hj).
    rewrite seq_nth by exact Hj. cbn [Nat.add].
    rewrite (nth_map_lt _ _ _ []) by exact Hc. reflexivity.
Qed.

(** X6: with the bilinear projections at the values the notebook gives
    them (torch.eye for W, for W_L_plus_1 and for each of the L + 1
    matrices of property_W), the projections drop out: 𝛾_i_e at a pair is
    ELU of the elementwise product of the pair's embedding and the
    instruction, 𝛾_i_s at a node is ELU of the sum over the property
    types j of R_i(j) times the product of the node's j-th state and the
    instruction, and the logits of P_i are the inner products of a word
    with the rows of C. *)
Theorem identity_initialisation BATCH T (S_ E : T4) (embd_questions : T3)
    (property_R_i r_i : mat) :
  W = eye EMBD_DIM -> W_L_plus_1 = eye EMBD_DIM ->
  property_W = repeat (eye EMBD_DIM) (L + 1) ->
  shape4 BATCH (length nodes) (length nodes) EMBD_DIM E ->
  shape4 BATCH (length nodes) (L + 1) EMBD_DIM S_ ->
  shape2 BATCH (L + 1) property_R_i -> length r_i = BATCH ->
  shape3 BATCH T EMBD_DIM embd_questions ->
  Forall (fun row => length row = EMBD_DIM) C ->
  (forall b i j, (b < BATCH)%nat -> (i < length nodes)%nat -> (j < length nodes)%nat ->
     entry [] (𝛾_i_e BATCH E r_i) b i j
     = map elu (vmul (entry [] E b i j) (nth b r_i [])))
  /\ (forall b s, (b < BATCH)%nat -> (s < length nodes)%nat ->
        nth s (nth b (𝛾_i_s S_ property_R_i r_i) []) []
        = map elu
            (vsum EMBD_DIM
               (map (fun j => vscale (nth j (nth b property_R_i []) 0)
                                (vmul (nth j (nth s (nth b S_ []) []) []) (nth b r_i [])))
                    (seq 0 (L + 1)))))
  /\ (forall b t, (b < BATCH)%nat -> (t < T)%nat ->
        nth t (nth b (P_i BATCH embd_questions) []) []
        = softmax (map (fun concept => dot (nth t (nth b embd_questions []) []) concept) C)).
Proof.
  intros HW HWL HpW [HE1 HE2] [HS1 HS2] HR Hr [HQ1 HQ2] HC.
  split; [|split].
  - intros b i j Hb Hi Hj.
    assert (HE3 : shape3 BATCH (length nodes) (length nodes) E).
    { split; [exact HE1|]. eapply Forall_impl; [|exact HE2].
      intros Eb [H1 H2]. split; [exact H1|].
      eapply Forall_impl; [|exact H2]. intros row [H3 _]. exact H3. }
    rewrite gamma_i_e_entry by assumption. unfold gamma_e_entry.
    rewrite HWL, vecmat_eye; [reflexivity|].
    unfold entry.
    destruct (Forall_nth_lt _ _ b [] HE2 ltac:(lia)) as [H1 H2].
    destruct (Forall_nth_lt _ _ i [] H2 ltac:(lia)) as [H3 H4].
    apply (Forall_nth_lt _ _ j [] H4). lia.
  - intros b s Hb Hs.
    assert (HS3 : shape2 BATCH (length nodes) S_).
    { split; [exact HS1|]. eapply Forall_impl; [|exact HS2].
      intros Sb [H1 _]. exact H1. }
    rewrite (gamma_i_s_nth BATCH) by (assumption || (rewrite HpW; apply repeat_length)).
    f_equal. f_equal. apply map_ext_in. intros j Hj. apply in_seq in Hj.
    rewrite HpW, nth_repeat_lt by lia. rewrite vecmat_eye; [reflexivity|].
    destruct (Forall_nth_lt _ _ b [] HS2 ltac:(lia)) as [H1 H2].
    destruct (Forall_nth_lt _ _ s [] H2 ltac:(lia)) as [H3 H4].
    apply (Forall_nth_lt _ _ j [] H4). lia.
  - intros b t Hb Ht. unfold P_i, bmm, expand.
    rewrite map2_repeat_r by list_len. fuse_maps.
    rewrite map2_repeat_r by list_len.
    rewrite (nth_map_lt _ _ _ []) by lia.
    destruct (Forall_nth_lt _ _ b [] HQ2 ltac:(lia)) as [H1 H2].
    unfold matmul. fuse_maps.
    rewrite (nth_map_lt _ _ _ []) by lia.
    rewrite HW, vecmat_eye by (apply (Forall_nth_lt _ _ t [] H2); lia).
    f_equal. unfold vecmat.
    apply nth_ext with (d := 0) (d' := 0); [rewrite !length_map, length_seq; reflexivity|].
    intros c Hc. rewrite length_map, length_seq in Hc.
    rewrite (nth_map_lt _ _ _ 0%nat) by (rewrite length_seq; exact Hc).
    rewrite seq_nth by exact Hc. cbn [Nat.add].
    rewrite (nth_map_lt _ _ _ []) by exact Hc.
    rewrite col_transpose by assumption. reflexivity.
Qed.


(** ** The instruction generator: shapes and ranges *)

Lemma map2_diag {A Z : Type} (f : A -> A -> Z) (l : list A) :
  map2 f l l = map (fun x => f x x) l.
Proof. induction l as [|a l IH]; cbn; [reflexivity|]. rewrite IH. reflexivity. Qed.

Lemma V_rows BATCH (Q : T3) :
  (length Q <= BATCH)%nat ->
  V BATCH Q (P_i BATCH Q) = map (map V_word) Q.
Proof.
  intros HQ. unfold V, P_i, bmm, expand.
  rewrite !map2_repeat_r by list_len. fuse_maps.
  rewrite ?map2_repeat_r by list_len. fuse_maps.
  rewrite map2_diag. fuse_maps. rewrite map2_diag.
  apply map_ext. intros X. unfold matmul. fuse_maps.
  rewrite map2_diag. fuse_maps. rewrite map2_diag. reflexivity.
Qed.

Lemma P_i_rows BATCH (Q : T3) :
  (length Q <= BATCH)%nat ->
  P_i BATCH Q
  = map (map (fun w => softmax (vecmat (length C) (vecmat EMBD_DIM w W)
                                       (transpose EMBD_DIM C)))) Q.
Proof.
  intros HQ. unfold P_i, bmm, expand.
  rewrite !map2_repeat_r by list_len. fuse_maps.
  rewrite ?map2_repeat_r by list_len. fuse_maps.
  apply map_ext. intros X. unfold matmul. fuse_maps. reflexivity.
Qed.

Lemma weighted_bounds (p x : vec) lo hi :
  length p = length x ->
  Forall (fun w => 0 <= w) p -> Forall (fun v => lo <= v <= hi) x ->
  lo * sumR p <= dot p x <= hi * sumR p.
Proof.
  unfold dot, vmul. revert x.
  induction p as [|a p IH]; intros [|b x] Hlen Hp Hx; try discriminate.
  - cbn. lra.
  - inversion Hp; subst. inversion Hx; subst. cbn [length] in Hlen.
    specialize (IH x ltac:(lia) ltac:(assumption) ltac:(assumption)).
    change (sumR (a :: p)) with (a + sumR p).
    change (sumR (map2 Rmult (a :: p) (b :: x))) with (a * b + sumR (map2 Rmult p x)).
    nra.
Qed.

Lemma Forall_removelast {A : Type} (P : A -> Prop) (l : list A) :
  Forall P l -> Forall P (removelast l).
Proof.
  intros H. destruct l as [|a l]; [constructor|].
  destruct (exists_last (l := a :: l)) as (l' & z & Hl); [discriminate|].
  rewrite Hl in *. rewrite removelast_last. apply Forall_app in H. apply H.
Qed.

Lemma length_removelast {A : Type} (l : list A) :
  length (removelast l) = (length l - 1)%nat.
Proof.
  destruct l as [|a l]; [reflexivity|].
  destruct (exists_last (l := a :: l)) as (l' & z & Hl); [discriminate|].
  rewrite Hl, removelast_last, length_app. cbn [length]. lia.
Qed.

Lemma col_bounds (M : mat) e lo hi :
  Forall (fun row => (e < length row)%nat) M ->
  Forall (Forall (fun v => lo <= v <= hi)) M ->
  Forall (fun v => lo <= v <= hi) (col e M).
Proof.
  intros Hlen Hrng. unfold col. rewrite Forall_map.
  rewrite Forall_forall in *. intros row Hin.
  apply (Forall_nth_lt _ _ e 0 (Hrng row Hin)), Hlen, Hin.
Qed.

Lemma nth_vecmat cols (x : vec) (M : mat) e :
  (e < cols)%nat -> nth e (vecmat cols x M) 0 = dot x (col e M).
Proof.
  intros He. unfold vecmat.
  rewrite (nth_map_lt _ _ _ 0%nat) by (rewrite length_seq; exact He).
  rewrite seq_nth by exact He. reflexivity.
Qed.

Lemma V_word_bounds (w : vec) lo hi :
  C <> [] ->
  Forall (fun row => length row = EMBD_DIM) C ->
  Forall (Forall (fun v => lo <= v <= hi)) (removelast C) ->
  length w = EMBD_DIM -> Forall (fun v => lo <= v <= hi) w ->
  length (V_word w) = EMBD_DIM /\ Forall (fun v => lo <= v <= hi) (V_word w).
Proof.
  intros HC Hrows Hrng Hw Hwr. unfold V_word.
  set (z := vecmat (length C) (vecmat EMBD_DIM w W) (transpose EMBD_DIM C)).
  assert (Hz : z <> []).
  { intros Hnil. apply (f_equal (@length R)) in Hnil. unfold z in Hnil.
    rewrite length_vecmat in Hnil. destruct C; [congruence|discriminate]. }
  assert (Hlen : length (vadd (vscale (last (softmax z) 0) w)
                              (vecmat EMBD_DIM (removelast (softmax z)) (removelast C)))
                 = EMBD_DIM).
  { unfold vadd, vscale. rewrite length_map2, length_map, length_vecmat. lia. }
  split; [exact Hlen|].
  apply Forall_nth. intros e d0 He. rewrite Hlen in He.
  rewrite (nth_indep _ d0 0) by (rewrite Hlen; exact He).
  unfold vadd. rewrite (nth_map2 _ _ _ _ 0 0 0)
    by (unfold vscale; rewrite ?length_map, ?length_vecmat; lia).
  unfold vscale. rewrite (nth_map_lt _ _ _ 0) by lia.
  rewrite nth_vecmat by exact He.
  pose proof (last_softmax_bounds z) as Ha.
  pose proof (softmax_sum z Hz) as Hsum.
  assert (Hs : softmax z <> []).
  { intros Hnil. apply (f_equal (@length R)) in Hnil.
    rewrite length_softmax in Hnil. destruct z; [congruence|discriminate]. }
  pose proof (sumR_removelast (softmax z) Hs) as Hrem.
  assert (Hb : lo * sumR (removelast (softmax z))
               <= dot (removelast (softmax z)) (col e (removelast C))
               <= hi * sumR (removelast (softmax z))).
  { apply weighted_bounds.
    - unfold col. rewrite length_map, !length_removelast, length_softmax.
      unfold z. rewrite length_vecmat. reflexivity.
    - apply Forall_removelast. eapply Forall_impl; [|apply softmax_entries].
      intros x Hx. cbv beta in Hx. lra.
    - apply col_bounds; [|exact Hrng].
      apply Forall_removelast. eapply Forall_impl; [|exact Hrows].
      intros row Hrow. cbv beta in Hrow. lia. }
  pose proof (Forall_nth_lt _ _ e 0 Hwr ltac:(lia)) as Hwe. cbv beta in Hwe.
  rewrite Hrem, Hsum in Hb. nra.
Qed.

Lemma length_lstm_seq cell (xs : list vec) : forall hc,
  length (fst (lstm_seq cell xs hc)) = length xs.
Proof.
  induction xs as [|x xs IH]; intros hc; cbn [lstm_seq fst length]; [reflexivity|].
  rewrite IH. reflexivity.
Qed.

Lemma h_rows (V0 : T3) : Forall (fun hb => length hb = (N + 1)%nat) (h V0).
Proof.
  unfold h, nn_LSTM. cbn [fst]. rewrite Forall_map.
  apply Forall_map2 with (P := fun xs : mat => length xs = (N + 1)%nat)
                         (Q := fun _ : vec * vec => True).
  - intros xs hc Hxs _. rewrite length_lstm_seq. exact Hxs.
  - rewrite Forall_map. apply Forall_forall. intros qb _. apply repeat_length.
  - apply Forall_forall. intros; exact I.
Qed.

Lemma r_nth (V0 : T3) b :
  (b < length V0)%nat ->
  nth b (r V0) []
  = map (fun hrow =>
           vecmat EMBD_DIM
             (softmax (vecmat (length (nth b V0 [])) hrow
                              (transpose EMBD_DIM (nth b V0 []))))
             (nth b V0 []))
        (nth b (h V0) []).
Proof.
  intros Hb. unfold r. pose proof (length_h_ V0) as Hh.
  rewrite (nth_map2 _ _ _ _ [] [] []) by list_len.
  rewrite (nth_map_lt _ _ _ []) by list_len.
  rewrite (nth_map2 _ _ _ _ [] [] []) by list_len.
  unfold matmul. rewrite !map_map. reflexivity.
Qed.

Lemma instructions_bounds BATCH T (embd_questions : T3) lo hi :
  (0 < T)%nat -> C <> [] ->
  shape3 BATCH T EMBD_DIM embd_questions ->
  Forall (fun row => length row = EMBD_DIM) C ->
  Forall (Forall (Forall (fun v => lo <= v <= hi))) embd_questions ->
  Forall (Forall (fun v => lo <= v <= hi)) (removelast C) ->
  let P := P_i BATCH embd_questions in
  let V0 := V BATCH embd_questions P in
  shape3 BATCH T (length C) P
  /\ Forall (Forall is_distribution) P
  /\ shape3 BATCH T EMBD_DIM V0
  /\ Forall (Forall (Forall (fun v => lo <= v <= hi))) V0
  /\ shape3 BATCH (N + 1) EMBD_DIM (r V0)
  /\ Forall (Forall (Forall (fun v => lo <= v <= hi))) (r V0).
Proof.
  intros HT HC [HQ1 HQ2] Hrows HQr HCr P V0.
  assert (HP : P = map (map (fun w => softmax (vecmat (length C) (vecmat EMBD_DIM w W)
                                                     (transpose EMBD_DIM C))))
                       embd_questions)
    by (apply P_i_rows; lia).
  assert (HV : V0 = map (map V_word) embd_questions) by (apply V_rows; lia).
  assert (HlC : (0 < length C)%nat) by (destruct C; [congruence|cbn; lia]).
  assert (HVs : shape3 BATCH T EMBD_DIM V0
                /\ Forall (Forall (Forall (fun v => lo <= v <= hi))) V0).
  { rewrite HV. split; [split; [rewrite length_map; exact HQ1|]|].
    - rewrite Forall_map. eapply Forall_impl; [|exact HQ2].
      intros Qb [H1 H2]. split; [rewrite length_map; exact H1|].
      rewrite Forall_map. rewrite Forall_forall in *. intros w Hw.
      (* the range hypothesis is not needed for the length *)
      unfold V_word, vadd, vscale.
      rewrite length_map2, length_map, length_vecmat, (H2 w Hw). lia.
    - rewrite Forall_map. rewrite Forall_forall in *. intros Qb HQb.
      rewrite Forall_map. rewrite Forall_forall. intros w Hw.
      destruct (HQ2 Qb HQb) as [_ H2]. rewrite Forall_forall in H2.
      pose proof (HQr Qb HQb) as H3. rewrite Forall_forall in H3.
      apply (V_word_bounds w lo hi HC); try assumption.
      + apply Forall_forall. exact Hrows.
      + apply Forall_forall. exact HCr.
      + apply H2, Hw.
      + apply H3, Hw. }
  destruct HVs as [[HV1 HV2] HVr].
  split; [|split; [|split; [exact (conj HV1 HV2)|split; [exact HVr|]]]].
  - rewrite HP. split; [rewrite length_map; exact HQ1|].
    rewrite Forall_map. eapply Forall_impl; [|exact HQ2].
    intros Qb [H1 _]. split; [rewrite length_map; exact H1|].
    rewrite Forall_map. apply Forall_forall. intros w _.
    rewrite length_softmax, length_vecmat. reflexivity.
  - rewrite HP. rewrite Forall_map. apply Forall_forall. intros Qb _.
    rewrite Forall_map. apply Forall_forall. intros w _.
    apply softmax_distribution. intros Hnil.
    apply (f_equal (@length R)) in Hnil. rewrite length_vecmat in Hnil.
    cbn [length] in Hnil. lia.
  - assert (Hrow : forall b, (b < BATCH)%nat ->
              shape2 (N + 1) EMBD_DIM (nth b (r V0) [])
              /\ Forall (Forall (fun v => lo <= v <= hi)) (nth b (r V0) [])).
    { intros b Hb. rewrite r_nth by lia.
      destruct (Forall_nth_lt _ _ b [] HV2 ltac:(lia)) as [HVb1 HVb2].
      pose proof (Forall_nth_lt _ _ b [] HVr ltac:(lia)) as HVbr. cbv beta in HVbr.
      pose proof (Forall_nth_lt _ _ b [] (h_rows V0)
                    ltac:(rewrite length_h_; lia)) as Hhb. cbv beta in Hhb.
      split; [split; [rewrite length_map; exact Hhb|]|].
      - rewrite Forall_map. apply Forall_forall. intros hrow _. apply length_vecmat.
      - rewrite Forall_map. apply Forall_forall. intros hrow _.
        set (z := vecmat (length (nth b V0 [])) hrow (transpose EMBD_DIM (nth b V0 []))).
        assert (Hz : z <> []).
        { intros Hnil. apply (f_equal (@length R)) in Hnil. unfold z in Hnil.
          rewrite length_vecmat, HVb1 in Hnil. cbn [length] in Hnil. lia. }
        apply Forall_nth. intros e d0 He. rewrite length_vecmat in He.
        rewrite (nth_indep _ d0 0) by (rewrite length_vecmat; exact He).
        rewrite nth_vecmat by exact He.
        assert (Hb' : lo * sumR (softmax z) <= dot (softmax z) (col e (nth b V0 []))
                      <= hi * sumR (softmax z)).
        { apply weighted_bounds.
          - unfold col. rewrite length_map, length_softmax. unfold z.
            rewrite length_vecmat. reflexivity.
          - eapply Forall_impl; [|apply softmax_entries].
            intros x Hx. cbv beta in Hx. lra.
          - apply col_bounds; [|exact HVbr].
            eapply Forall_impl; [|exact HVb2].
            intros row Hrw. cbv beta in Hrw. lia. }
        rewrite (softmax_sum z Hz) in Hb'. lra. }
    assert (Hlr : length (r V0) = BATCH) by (rewrite length_r_; exact HV1).
    split; [split; [exact Hlr|]|].
    + apply Forall_nth. intros b d0 Hb. rewrite (nth_indep _ d0 []) by exact Hb.
      apply Hrow. lia.
    + apply Forall_nth. intros b d0 Hb. rewrite (nth_indep _ d0 []) by exact Hb.
      apply Hrow. lia.
Qed.

(** X8: the instruction generator.  Every row of P_i is a probability
    distribution over the rows of C.  Every row of V is a convex
    combination of the word's embedding and the rows of C other than
    c_prime, and every instruction a convex combination of the rows of V:
    when the words and the concepts have their entries in an interval
    [lo, hi] (as the outputs of torch.rand have in [0, 1]), so have V and
    r, whatever W and the two LSTMs are.  V has the shape of the embedded
    questions and r the shape [BATCH, N + 1, EMBD_DIM]: the steps 0 .. N - 1
    and the final read r[:, N, :] are in range. *)
Theorem instructions_shape_and_range BATCH T (embd_questions : T3) lo hi :
  (0 < T)%nat -> C <> [] ->
  shape3 BATCH T EMBD_DIM embd_questions ->
  Forall (fun row => length row = EMBD_DIM) C ->
  Forall (Forall (Forall (fun v => lo <= v <= hi))) embd_questions ->
  Forall (Forall (fun v => lo <= v <= hi)) (removelast C) ->
  let P := P_i BATCH embd_questions in
  let V0 := V BATCH embd_questions P in
  shape3 BATCH T (length C) P
  /\ Forall (Forall is_distribution) P
  /\ shape3 BATCH T EMBD_DIM V0
  /\ Forall (Forall (Forall (fun v => lo <= v <= hi))) V0
  /\ shape3 BATCH (N + 1) EMBD_DIM (r V0)
  /\ Forall (Forall (Forall (fun v => lo <= v <= hi))) (r V0).
Proof. apply instructions_bounds. Qed.


(** ** The alternative cells on the notebook's own tensors *)

Lemma scene_graph_entry_values (u : nat -> R) (relations : relations_dict) BATCH k b i j :
  (b < BATCH)%nat -> (i < length nodes)%nat -> (j < length nodes)%nat ->
  let E := snd (fst (scene_graph u EMBD_DIM BATCH nodes relations k)) in
  entry [] E b i j = zeros EMBD_DIM
  \/ exists t, entry [] E b i j = map u (seq (k + t * EMBD_DIM) EMBD_DIM).
Proof.
  intros Hb Hi Hj E.
  assert (Hrange : forall p, In p (permutations_2 (length nodes)) ->
                     (fst p < length nodes)%nat /\ (snd p < length nodes)%nat).
  { intros [i' j'] Hp. apply in_permutations_2 in Hp. simpl. split; apply Hp. }
  destruct (scene_graph_fold_exact u relations BATCH (permutations_2 (length nodes))
              (NoDup_permutations_2 _) Hrange
              (repeat (repeat (repeat 0 (length nodes)) (length nodes)) BATCH)
              (repeat (repeat (repeat (zeros EMBD_DIM) (length nodes)) (length nodes)) BATCH)
              k (shape3_repeat _ _ _ _) (shape3_repeat _ _ _ _))
    as (_ & _ & _ & Hent).
  fold (scene_graph u EMBD_DIM BATCH nodes relations k) in Hent. fold E in Hent.
  destruct (Hent b i j Hb) as [Hsame Hhit].
  destruct (in_dec (fun p q : nat * nat =>
                      ltac:(decide equality; apply Nat.eq_dec) : {p = q} + {p <> q})
                   (i, j) (filter (related nodes relations)
                                  (permutations_2 (length nodes)))) as [Hin|Hnot].
  - right. apply In_nth_error in Hin. destruct Hin as [t Ht].
    exists t. apply (Hhit t Ht).
  - left. destruct (Hsame Hnot) as [_ H0]. rewrite H0.
    apply entry_repeat; assumption.
Qed.

Lemma elu_nonneg x : 0 <= x -> 0 <= elu x.
Proof.
  intros Hx. unfold elu. destruct (Rlt_dec 0 x) as [H|H]; [lra|].
  replace x with 0 by lra. rewrite exp_0. lra.
Qed.

Lemma gamma_e_entry_nonneg (rb e : vec) :
  W_L_plus_1 = eye EMBD_DIM -> length e = EMBD_DIM ->
  Forall (fun x => 0 <= x) rb -> Forall (fun x => 0 <= x) e ->
  Forall (fun x => 0 <= x) (gamma_e_entry rb e).
Proof.
  intros HW He Hrb Hpos. unfold gamma_e_entry. rewrite HW, vecmat_eye by exact He.
  rewrite Forall_map. unfold vmul.
  apply Forall_map2 with (P := fun x => 0 <= x) (Q := fun x => 0 <= x);
    [|exact Hpos|exact Hrb].
  intros x y Hx Hy. apply elu_nonneg. nra.
Qed.

Lemma gamma_i_e_shape4 BATCH (E : T4) (r_i : mat) :
  shape3 BATCH (length nodes) (length nodes) E -> shape2 BATCH EMBD_DIM r_i ->
  shape4 BATCH (length nodes) (length nodes) EMBD_DIM (𝛾_i_e BATCH E r_i).
Proof.
  intros [HE1 HE2] [Hr1 Hr2]. rewrite gamma_i_e_rows by (assumption || lia).
  split; [rewrite length_map2; lia|].
  apply Forall_map2 with (P := shape2 (length nodes) (length nodes))
                         (Q := fun rb : vec => length rb = EMBD_DIM);
    [|exact HE2|exact Hr2].
  intros Eb rb [H1 H2] Hrb. split; [rewrite length_map; exact H1|].
  rewrite Forall_map. eapply Forall_impl; [|exact H2].
  intros row Hrow. split; [rewrite length_map; exact Hrow|].
  rewrite Forall_map. apply Forall_forall. intros e _.
  unfold gamma_e_entry, vmul. rewrite length_map, length_map2, length_vecmat. lia.
Qed.

Lemma sumR_nonneg_zero (v : vec) :
  Forall (fun x => 0 <= x) v -> sumR v <= 0 -> v = zeros (length v).
Proof.
  induction 1 as [|g v Hg0 Hv IH]; simpl; intros Hsum; [reflexivity|].
  assert (0 <= sumR v) by (clear - Hv; induction Hv; simpl; lra).
  change (zeros (S (length v))) with (0 :: zeros (length v)).
  f_equal; [lra|apply IH; lra].
Qed.

Lemma alternative_agrees_nonneg (u : nat -> R) (relations : relations_dict)
    (BATCH k : nat) (r_i p_i : mat) :
  W_L_plus_1 = eye EMBD_DIM ->
  (forall n, 0 <= u n) ->
  shape2 BATCH EMBD_DIM r_i -> Forall (Forall (fun x => 0 <= x)) r_i ->
  shape2 BATCH (length nodes) p_i ->
  let st := scene_graph u EMBD_DIM BATCH nodes relations k in
  let adjacency_mask := fst (fst st) in
  let E := snd (fst st) in
  let gamma_e := 𝛾_i_e BATCH E r_i in
  (forall b y x, (b < BATCH)%nat -> (y < length nodes)%nat -> (x < length nodes)%nat ->
     Forall (fun g => 0 <= g) (entry [] gamma_e b y x)
     /\ (nth x (nth y (nth b (adj gamma_e) []) []) false = true ->
         entry 0 adjacency_mask b y x = 1))
  /\ alt_p_i_r BATCH gamma_e p_i = p_i_r gamma_e p_i.
Proof.
  intros HW Hu Hr Hrpos Hp st adjacency_mask E gamma_e.
  destruct (scene_graph_invariant u relations BATCH k) as (Hm & HE4 & Hinv).
  fold st in Hm, HE4, Hinv. fold adjacency_mask in Hm, Hinv. fold E in HE4, Hinv.
  assert (HE3 : shape3 BATCH (length nodes) (length nodes) E).
  { destruct HE4 as [H1 H2]. split; [exact H1|]. eapply Forall_impl; [|exact H2].
    intros Eb [H3 H4]. split; [exact H3|].
    eapply Forall_impl; [|exact H4]. intros row [H5 _]. exact H5. }
  pose proof (gamma_i_e_shape4 BATCH E r_i HE3 Hr) as Hg4. fold gamma_e in Hg4.
  assert (Hg3 : shape3 BATCH (length nodes) (length nodes) gamma_e).
  { destruct Hg4 as [H1 H2]. split; [exact H1|]. eapply Forall_impl; [|exact H2].
    intros Gb [H3 H4]. split; [exact H3|].
    eapply Forall_impl; [|exact H4]. intros row [H5 _]. exact H5. }
  destruct Hr as [Hr1 Hr2].
  assert (Hentry : forall b y x, (b < BATCH)%nat -> (y < length nodes)%nat ->
                     (x < length nodes)%nat ->
                     Forall (fun g => 0 <= g) (entry [] gamma_e b y x)).
  { intros b y x Hb Hy Hx. unfold gamma_e.
    rewrite gamma_i_e_entry by assumption.
    pose proof (Forall_nth_lt _ _ b [] Hrpos ltac:(lia)) as Hrb. cbv beta in Hrb.
    destruct (scene_graph_entry_values u relations BATCH k b y x Hb Hy Hx) as [Hz|[t Ht]];
      fold st in Hz || fold st in Ht; fold E in Hz || fold E in Ht.
    - rewrite Hz. apply gamma_e_entry_nonneg; try assumption.
      + apply repeat_length.
      + apply Forall_forall. intros g Hg. apply repeat_spec in Hg. lra.
    - rewrite Ht. apply gamma_e_entry_nonneg; try assumption.
      + rewrite length_map, length_seq. reflexivity.
      + rewrite Forall_map. apply Forall_forall. intros n _. apply Hu. }
  split.
  - intros b y x Hb Hy Hx. split; [apply Hentry; assumption|].
    rewrite (adj_entry gamma_e b y x _ _ _ Hg3) by assumption.
    destruct (Rlt_dec 0 (sumR (entry [] gamma_e b y x))) as [Hpos|_]; [|discriminate].
    intros _. destruct (Hinv b y x Hb Hy Hx) as [[H1|[_ Hz]] _]; [exact H1|].
    exfalso. unfold gamma_e in Hpos. rewrite gamma_i_e_entry in Hpos by assumption.
    rewrite Hz, gamma_e_entry_zeros in Hpos
      by (apply (Forall_nth_lt _ _ b [] Hr2); lia).
    unfold zeros in Hpos. rewrite sumR_repeat in Hpos. lra.
  - apply alt_p_i_r_eq; try assumption.
    intros b y x Hb Hy Hx Hsum.
    assert (Hlen : length (entry [] gamma_e b y x) = EMBD_DIM).
    { destruct Hg4 as [Hg1 Hg2]. unfold entry.
      destruct (Forall_nth_lt _ _ b [] Hg2 ltac:(lia)) as [H1 H2].
      destruct (Forall_nth_lt _ _ y [] H2 ltac:(lia)) as [H1' H3].
      apply (Forall_nth_lt _ _ x [] H3). lia. }
    rewrite <- Hlen. apply sumR_nonneg_zero; [apply Hentry; assumption|exact Hsum].
Qed.

(** X9: on the tensors the notebook itself builds, the assertion of the
    commented-out cell holds.  With W_L_plus_1 the identity, E built by
    the scene graph cell from random scalars that are not negative, and an
    instruction without negative entries, no entry of 𝛾_i_e is negative,
    so the loop that skips the pairs failing 𝛾_i_e.sum(dim=3) > 0
    computes the same p_i_r as the vectorised cell; and the adjacency adj
    recovered from 𝛾_i_e never reports a pair whose flag in
    adjacency_mask is 0. *)
Theorem notebook_alternative_agrees (u : nat -> R) (relations : relations_dict)
    (BATCH k : nat) (r_i p_i : mat) :
  W_L_plus_1 = eye EMBD_DIM ->
  (forall n, 0 <= u n) ->
  shape2 BATCH EMBD_DIM r_i -> Forall (Forall (fun x => 0 <= x)) r_i ->
  shape2 BATCH (length nodes) p_i ->
  let st := scene_graph u EMBD_DIM BATCH nodes relations k in
  let adjacency_mask := fst (fst st) in
  let E := snd (fst st) in
  let gamma_e := 𝛾_i_e BATCH E r_i in
  (forall b y x, (b < BATCH)%nat -> (y < length nodes)%nat -> (x < length nodes)%nat ->
     Forall (fun g => 0 <= g) (entry [] gamma_e b y x)
     /\ (nth x (nth y (nth b (adj gamma_e) []) []) false = true ->
         entry 0 adjacency_mask b y x = 1))
  /\ alt_p_i_r BATCH gamma_e p_i = p_i_r gamma_e p_i.
Proof. apply alternative_agrees_nonneg. Qed.


(** ** The update cells, entry by entry *)

Lemma p_i_r_nth BATCH (gamma_e : T4) (p_i : mat) b :
  shape4 BATCH (length nodes) (length nodes) EMBD_DIM gamma_e ->
  shape2 BATCH (length nodes) p_i -> (b < BATCH)%nat ->
  nth b (p_i_r gamma_e p_i) []
  = softmax
      (map (fun x =>
              dot (vsum EMBD_DIM
                     (map (fun y => vscale (nth y (nth b p_i []) 0)
                                           (entry [] gamma_e b y x))
                          (seq 0 (length nodes))))
                  W_r)
           (seq 0 (length nodes))).
Proof.
  intros [Hg1 Hg2] [Hp1 Hp2] Hb.
  rewrite p_i_r_rows. rewrite (nth_map2 _ _ _ _ [] [] []) by lia.
  destruct (Forall_nth_lt _ _ b [] Hg2 ltac:(lia)) as [Hgb1 Hgb2].
  pose proof (Forall_nth_lt _ _ b [] Hp2 ltac:(lia)) as Hpb. simpl in Hpb.
  unfold p_r_row. f_equal.
  rewrite (map2_nth_seq _ _ _ [] 0 (length nodes)) by assumption.
  assert (HMs : Forall (fun M : mat => length M = length nodes)
                  (map (fun j => map (map (fun g => g * nth j (nth b p_i []) 0))
                                     (nth j (nth b gamma_e []) []))
                       (seq 0 (length nodes)))).
  { rewrite Forall_map. apply Forall_forall. intros y Hy. apply in_seq in Hy.
    rewrite length_map.
    apply (Forall_nth_lt _ _ y [] Hgb2). lia. }
  apply (nth_ext _ _ 0 0).
  { rewrite !length_map, length_seq, length_msum by assumption. reflexivity. }
  intros x Hx. rewrite length_map, length_msum in Hx by assumption.
  rewrite (nth_map_lt _ _ _ [] 0) by (rewrite length_msum by assumption; lia).
  rewrite (nth_map_lt _ _ _ 0%nat 0) by (rewrite length_seq; lia).
  rewrite seq_nth by lia. cbn [Nat.add].
  f_equal. rewrite nth_msum by assumption. rewrite map_map.
  f_equal. apply map_ext_in. intros y Hy. apply in_seq in Hy.
  destruct (Forall_nth_lt _ _ y [] Hgb2 ltac:(lia)) as [H1 H2].
  rewrite (nth_map_lt _ _ _ [] []) by lia.
  unfold vscale, entry. apply map_ext. intros g. apply Rmult_comm.
Qed.

(** X10: what the four update cells compute, entry by entry, on
    well-shaped tensors.  𝛾_i_e at the pair (y, x) is ELU of the
    instruction times the pair's embedding multiplied, as a row vector, by
    W_L_plus_1; 𝛾_i_s at node s is ELU of the sum over the property types
    j of R_i(j) times the instruction times the j-th state of s multiplied
    by property_W[j]; the logit of p_i_r at node x is W_r applied to the
    sum over the first node index y of p_i(y) times 𝛾_i_e(y, x), so mass
    flows from y to x and the softmax runs over the target x; the logit of
    p_i_s at node s is W_s applied to 𝛾_i_s(s). *)
Theorem update_cells_entrywise BATCH (S_ E gamma_e : T4) (gamma_s : T3)
    (property_R_i r_i p_i : mat) :
  shape3 BATCH (length nodes) (length nodes) E ->
  shape2 BATCH (length nodes) S_ ->
  shape2 BATCH (L + 1) property_R_i ->
  length r_i = BATCH -> length property_W = (L + 1)%nat ->
  shape4 BATCH (length nodes) (length nodes) EMBD_DIM gamma_e ->
  shape2 BATCH (length nodes) gamma_s ->
  shape2 BATCH (length nodes) p_i ->
  (forall b y x, (b < BATCH)%nat -> (y < length nodes)%nat -> (x < length nodes)%nat ->
     entry [] (𝛾_i_e BATCH E r_i) b y x
     = map elu (vmul (vecmat EMBD_DIM (entry [] E b y x) W_L_plus_1) (nth b r_i [])))
  /\ (forall b s, (b < BATCH)%nat -> (s < length nodes)%nat ->
        nth s (nth b (𝛾_i_s S_ property_R_i r_i) []) []
        = map elu
            (vsum EMBD_DIM
               (map (fun j =>
                       vscale (nth j (nth b property_R_i []) 0)
                         (vmul (vecmat EMBD_DIM (nth j (nth s (nth b S_ []) []) [])
                                       (nth j property_W []))
                               (nth b r_i [])))
                    (seq 0 (L + 1)))))
  /\ (forall b x, (b < BATCH)%nat -> (x < length nodes)%nat ->
        nth x (nth b (p_i_r gamma_e p_i) []) 0
        = nth x (softmax
                   (map (fun x' =>
                           dot (vsum EMBD_DIM
                                  (map (fun y => vscale (nth y (nth b p_i []) 0)
                                                        (entry [] gamma_e b y x'))
                                       (seq 0 (length nodes))))
                               W_r)
                        (seq 0 (length nodes)))) 0)
  /\ (forall b s, (b < BATCH)%nat -> (s < length nodes)%nat ->
        nth s (nth b (p_i_s gamma_s) []) 0
        = nth s (softmax
                   (map (fun s' => dot (nth s' (nth b gamma_s []) []) W_s)
                        (seq 0 (length nodes)))) 0).
Proof.
  intros HE HS HR Hr HpW Hg [Hs1 Hs2] Hp.
  split; [|split; [|split]].
  - intros b y x Hb Hy Hx. rewrite gamma_i_e_entry by assumption. reflexivity.
  - intros b s Hb Hs. apply (gamma_i_s_nth BATCH); assumption.
  - intros b x Hb Hx. rewrite (p_i_r_nth BATCH) by assumption. reflexivity.
  - intros b s Hb Hs. unfold p_i_s. rewrite map_map.
    rewrite (nth_map_lt _ _ _ []) by lia. f_equal. f_equal.
    pose proof (Forall_nth_lt _ _ b [] Hs2 ltac:(lia)) as Hlen. cbv beta in Hlen.
    apply (nth_ext _ _ 0 0); [rewrite !length_map, length_seq; exact Hlen|].
    intros s' Hs'. rewrite length_map in Hs'.
    rewrite (nth_map_lt _ _ _ [] 0) by exact Hs'.
    rewrite (nth_map_lt _ _ _ 0%nat 0) by (rewrite length_seq; lia).
    rewrite seq_nth by lia. reflexivity.
Qed.

Lemma vsum_zeros d (l : list nat) (f : nat -> vec) :
  (forall y, In y l -> f y = zeros d) -> vsum d (map f l) = zeros d.
Proof.
  intros H. induction l as [|y l IH]; [reflexivity|].
  cbn [map vsum fold_right]. fold (vsum d (map f l)).
  rewrite IH by (intros; apply H; right; assumption).
  rewrite (H y) by (left; reflexivity).
  apply vadd_zeros_l. apply repeat_length.
Qed.

Lemma softmax_constant c n : (0 < n)%nat -> softmax (repeat c n) = repeat (1 / INR n) n.
Proof.
  intros Hn. unfold softmax. rewrite !map_repeat, sumR_repeat.
  f_equal. field. split.
  - apply not_0_INR. lia.
  - pose proof (exp_pos c). lra.
Qed.

(** X11: when no ordered pair of distinct nodes has a relation (the
    case in which the sparse cell raises), E is zero everywhere and the
    relational update is the uniform distribution, equal to the initial
    p_0, whatever the instruction, the previous distribution and the
    weights W_L_plus_1 and W_r are: the relational branch then carries no
    information. *)
Theorem relational_update_without_relations (u : nat -> R) (relations : relations_dict)
    (BATCH k : nat) (r_i p_i : mat) :
  related_pairs nodes relations = [] ->
  shape2 BATCH EMBD_DIM r_i -> shape2 BATCH (length nodes) p_i ->
  let E := snd (fst (scene_graph u EMBD_DIM BATCH nodes relations k)) in
  (forall b y x, (b < BATCH)%nat -> (y < length nodes)%nat -> (x < length nodes)%nat ->
     entry [] E b y x = zeros EMBD_DIM)
  /\ p_i_r (𝛾_i_e BATCH E r_i) p_i = p_0 BATCH.
Proof.
  intros Hnone Hr Hp E.
  destruct (scene_graph_invariant u relations BATCH k) as (_ & HE4 & Hinv).
  fold E in HE4, Hinv.
  pose proof (shape4_shape3 _ _ _ _ _ HE4) as HE3.
  assert (Hzero : forall b y x, (b < BATCH)%nat -> (y < length nodes)%nat ->
                    (x < length nodes)%nat -> entry [] E b y x = zeros EMBD_DIM).
  { intros b y x Hb Hy Hx. destruct (Hinv b y x Hb Hy Hx) as [_ Habs].
    apply Habs.
    destruct (Nat.eq_dec y x) as [->|Hne].
    - left. intros Hin. apply in_permutations_2 in Hin.
      destruct Hin as (_ & _ & Hd). apply Hd. reflexivity.
    - right.
      destruct (pair_in (nth y nodes ""%string, nth x nodes ""%string) relations)
        eqn:Hrel; [|reflexivity].
      exfalso. assert (Hin : In (y, x) (related_pairs nodes relations)).
      { apply in_related_pairs. repeat split; assumption. }
      rewrite Hnone in Hin. exact Hin. }
  split; [exact Hzero|].
  pose proof (gamma_i_e_shape4 BATCH E r_i HE3 Hr) as Hg4.
  destruct Hr as [Hr1 Hr2]. destruct Hp as [Hp1 Hp2].
  apply (nth_ext _ _ [] []).
  { unfold p_i_r, p_0. rewrite !length_map, length_map2, length_gamma_i_e, repeat_length.
    destruct HE4 as [HE1 _]. lia. }
  intros b Hb.
  assert (Hb' : (b < BATCH)%nat).
  { unfold p_i_r in Hb. rewrite !length_map, length_map2, length_gamma_i_e in Hb. lia. }
  rewrite (p_i_r_nth BATCH) by (assumption || (split; assumption)).
  unfold p_0. rewrite (nth_map_lt _ _ _ []) by (rewrite repeat_length; exact Hb').
  rewrite nth_repeat_lt by exact Hb'. rewrite map_repeat.
  destruct (length nodes) as [|n] eqn:Hn; [reflexivity|].
  rewrite <- Hn in *.
  rewrite (map_ext_in _ (fun _ => 0)).
  - rewrite map_const, length_seq.
    rewrite softmax_constant by lia. reflexivity.
  - intros x Hx. apply in_seq in Hx. rewrite vsum_zeros; [apply dot_zeros_l|].
    intros y Hy. apply in_seq in Hy.
    rewrite gamma_i_e_entry by (assumption || lia).
    rewrite Hzero by lia. rewrite gamma_e_entry_zeros
      by (apply (Forall_nth_lt _ _ b [] Hr2); lia).
    apply vscale_zeros.
Qed.


(** ** The notebook's data flow, from the random stream to the update *)

Lemma stream_row_bounds (u : nat -> R) lo hi k :
  (forall n, lo <= u n <= hi) ->
  length (map u (seq k EMBD_DIM)) = EMBD_DIM
  /\ Forall (fun v => lo <= v <= hi) (map u (seq k EMBD_DIM)).
Proof.
  intros Hu. split; [rewrite length_map, length_seq; reflexivity|].
  rewrite Forall_map. apply Forall_forall. intros n _. apply Hu.
Qed.

Lemma rows_from_bounds (u : nat -> R) lo hi k n :
  (forall n, lo <= u n <= hi) ->
  Forall (fun row => length row = EMBD_DIM /\ Forall (fun v => lo <= v <= hi) row)
         (rows_from u EMBD_DIM k n).
Proof.
  intros Hu. unfold rows_from. rewrite Forall_map. apply Forall_forall.
  intros t _. apply stream_row_bounds, Hu.
Qed.

Lemma concept_vocabulary_C_bounds (u : nat -> R) lo hi
    (property_types : list string) (property_concepts : dict)
    (state_identities relationships : list string) (k : nat)
    L' all_types (D' : mat) (ordered_C : T3) (c_prime C' : mat) (k' : nat) :
  (forall n, lo <= u n <= hi) ->
  concept_vocabulary u EMBD_DIM property_types property_concepts
                     state_identities relationships k
  = Some ((L', all_types, D', ordered_C, c_prime, C'), k') ->
  C' <> []
  /\ Forall (fun row => length row = EMBD_DIM /\ Forall (fun v => lo <= v <= hi) row) C'.
Proof.
  intros Hu. rewrite concept_vocabulary_run.
  pose proof (mapM_concepts_rows u
                (prepared_concepts property_concepts state_identities relationships)
                (("identity"%string :: property_types) ++ ["relations"%string])
                (k + (length property_types + 2) * EMBD_DIM)%nat) as Hrun.
  destruct (mapM _ _ _) as [[Cs k2]|]; [|discriminate].
  intros Heq. injection Heq as _ _ _ _ _ HC' _.
  destruct Hrun as (_ & Hcat & _ & _). subst C'. rewrite Hcat.
  split; [intros Hnil; apply app_eq_nil in Hnil; destruct Hnil; discriminate|].
  apply Forall_app. split; [apply rows_from_bounds, Hu|].
  constructor; [apply stream_row_bounds, Hu|constructor].
Qed.

(** X12: the notebook's own data flow keeps the assertion of the
    commented-out cell.  When torch.rand yields scalars in [0, 1], C comes
    from the vocabulary cell, the embedded questions from the question
    cell, E from the scene graph cell and W_L_plus_1 is the identity, then
    for every step i in 0 .. N the instruction r[:, i, :] has its entries
    in [0, 1], whatever W and the two LSTMs are, and the loop
    formulation of p_i_r equals the vectorised one for every p_i. *)
Theorem notebook_pipeline_assertion (u : nat -> R)
    (property_types : list string) (property_concepts : dict)
    (state_identities relationships : list string)
    (questions : list (list string)) (relations : relations_dict)
    (k_C k_Q k_E : nat)
    L' all_types (D' : mat) (ordered_C : T3) (c_prime : mat) (k_C' : nat)
    (embd_questions : T3) (k_Q' : nat) (p_i : mat) (i : nat) :
  (forall n, 0 <= u n <= 1) ->
  W_L_plus_1 = eye EMBD_DIM ->
  concept_vocabulary u EMBD_DIM property_types property_concepts
                     state_identities relationships k_C
  = Some ((L', all_types, D', ordered_C, c_prime, C), k_C') ->
  embed_questions u EMBD_DIM questions k_Q = Some (embd_questions, k_Q') ->
  (i <= N)%nat ->
  shape2 (length questions) (length nodes) p_i ->
  let BATCH := length questions in
  let r := r (V BATCH embd_questions (P_i BATCH embd_questions)) in
  let E := snd (fst (scene_graph u EMBD_DIM BATCH nodes relations k_E)) in
  let gamma_e := 𝛾_i_e BATCH E (r_i i r) in
  shape2 BATCH EMBD_DIM (r_i i r)
  /\ Forall (Forall (fun v => 0 <= v <= 1)) (r_i i r)
  /\ alt_p_i_r BATCH gamma_e p_i = p_i_r gamma_e p_i.
Proof.
  intros Hu HW Hvoc Hq Hi Hp BATCH r0 E gamma_e.
  destruct (concept_vocabulary_C_bounds u 0 1 _ _ _ _ _ _ _ _ _ _ _ _ Hu Hvoc)
    as [HC HCb].
  destruct (embed_questions_spec u questions k_Q) as [_ Hspec].
  destruct (Hspec _ _ Hq) as (T & HT & _ & HQ & _ & Hrow & _). fold BATCH in HQ, Hrow.
  assert (HQb : Forall (Forall (Forall (fun v => 0 <= v <= 1))) embd_questions).
  { destruct HQ as [HQ1 HQ2].
    apply Forall_nth. intros b d0 Hb. rewrite (nth_indep _ d0 []) by exact Hb.
    destruct (Forall_nth_lt _ _ b [] HQ2 Hb) as [HT' _].
    apply Forall_nth. intros w d1 Hw. rewrite (nth_indep _ d1 []) by exact Hw.
    rewrite Hrow by lia. apply stream_row_bounds, Hu. }
  destruct (instructions_bounds BATCH T embd_questions 0 1 HT HC HQ)
    as (_ & _ & _ & _ & [Hr1 Hr2] & Hrb); try assumption.
  { eapply Forall_impl; [|exact HCb]. intros row [H _]. exact H. }
  { apply Forall_removelast. eapply Forall_impl; [|exact HCb].
    intros row [_ H]. exact H. }
  fold r0 in Hr1, Hr2, Hrb.
  assert (Hri : shape2 BATCH EMBD_DIM (r_i i r0)
                /\ Forall (Forall (fun v => 0 <= v <= 1)) (r_i i r0)).
  { unfold r_i, select. split; [split; [rewrite length_map; exact Hr1|]|].
    - rewrite Forall_map. eapply Forall_impl; [|exact Hr2].
      intros rb [H1 H2]. apply (Forall_nth_lt _ _ i [] H2). lia.
    - rewrite Forall_map. rewrite Forall_forall in *. intros rb Hrb'.
      destruct (Hr2 rb Hrb') as [H1 _].
      apply (Forall_nth_lt _ _ i [] (Hrb rb Hrb')). lia. }
  destruct Hri as [Hshape Hrange].
  split; [exact Hshape|]. split; [exact Hrange|].
  apply (alternative_agrees_nonneg u relations BATCH k_E (r_i i r0) p_i);
    try assumption.
  - intros n. apply Hu.
  - eapply Forall_impl; [|exact Hrange]. intros rb Hrb'.
    eapply Forall_impl; [|exact Hrb']. intros v Hv. cbv beta in Hv. lra.
Qed.

End NSM.

(** ** Running the cells on the small instance *)

Lemma elu_pos x : 0 < x -> elu x = x.
Proof. intros H. unfold elu. destruct (Rlt_dec 0 x); [reflexivity|contradiction]. Qed.

Lemma elu_nonpos x : x <= 0 -> elu x = exp x - 1.
Proof. intros H. unfold elu. destruct (Rlt_dec 0 x); [lra|reflexivity]. Qed.

Lemma exp_gt_1 x : 0 < x -> 1 < exp x.
Proof. intros H. rewrite <- exp_0. apply exp_increasing, H. Qed.


Lemma half_softmax_differs e : e <> 1 -> 0 < e -> 1 / (1 + (1 + 0)) <> 1 / (1 + (e + 0)).
Proof.
  intros Hne Hpos Heq. apply Hne.
  apply (f_equal (fun x => / x)) in Heq.
  unfold Rdiv in Heq. rewrite !Rmult_1_l, !Rinv_inv in Heq. lra.
Qed.

(** Run the list functions of a cell on explicit tensors, leaving the
    real arithmetic in place. *)
Ltac run_cells :=
  cbn -[elu exp Rmult Rplus Rdiv Rminus Ropp Rinv].

(** Replace [elu x] and [exp x] by their values where [x] is 0. *)
Ltac at_zero :=
  repeat match goal with
         | |- context [elu ?x] =>
             tryif constr_eq x 0 then fail else (replace x with 0 by lra)
         | |- context [elu 0] => rewrite elu_0
         | |- context [exp ?x] =>
             tryif constr_eq x 0 then fail else (replace x with 0 by lra)
         | |- context [exp 0] => rewrite exp_0
         end.

(** Replace [elu x] by its branch where the sign of [x] is known. *)
Ltac elu_branch :=
  repeat match goal with
         | |- context [elu ?x] =>
             first [rewrite (elu_pos x) by lra | rewrite (elu_nonpos x) by lra]
         end.

(** C3, counterexample: the pair (kitten, shirt) has no relation, its flag
    is 0 and its embedding 0 in the tensors the construction cell builds;
    storing 1 there instead changes p_i_r. *)
Lemma absent_edge_perturbation_changes_p_i_r :
  scene_graph (fun _ => 0) 1 1 ex_nodes ex_relations 0 = (ex_mask, ex_E, 0%nat)
  /\ entry 0 ex_mask 0 0 1 = 0
  /\ ex_E_perturbed = assign_pair 0 1 [1] ex_E
  /\ p_i_r 1 ex_nodes ex_W_r (𝛾_i_e 1 ex_nodes ex_W 1 ex_E (r_i 0 ex_r))
           (p_0 ex_nodes 1)
     <> p_i_r 1 ex_nodes ex_W_r
              (𝛾_i_e 1 ex_nodes ex_W 1 ex_E_perturbed (r_i 0 ex_r))
              (p_0 ex_nodes 1).
Proof.
  split; [reflexivity|]. split; [reflexivity|]. split; [reflexivity|].
  unfold p_i_r, 𝛾_i_e, p_0, r_i, ex_nodes, ex_W_r, ex_W, ex_E, ex_E_perturbed, ex_r.
  run_cells. at_zero. elu_branch.
  intros Heq. injection Heq as Heq _.
  revert Heq. apply half_softmax_differs; [|apply exp_pos].
  apply Rgt_not_eq, exp_gt_1. lra.
Qed.



Lemma inv_lt_half e : 1 < e -> 1 / (e + (1 + 0)) < 1 / 2.
Proof.
  intros He. apply (Rmult_lt_reg_r (e + (1 + 0))); [lra|].
  unfold Rdiv. rewrite Rmult_assoc, Rinv_l by lra. lra.
Qed.

(** C1, the notebook as it is written, on the small instance with N = 3:
    the distribution that reaches the classifier is the result of the one
    step of index 0; it is the same when r_1 and r_2 are replaced; and it
    differs from the distribution after the three steps of the loop, which
    is uniform here because r_1 and r_2 carry no weight. *)
Lemma notebook_executes_single_step :
  p_final 1 0 ex_nodes ex_D ex_property_W ex_W ex_W_r ex_W_s 1 ex_S ex_E ex_r
  = simulation_step 1 0 ex_nodes ex_D ex_property_W ex_W ex_W_r ex_W_s 1 ex_S ex_E ex_r
      0 (p_0 ex_nodes 1)
  /\ p_final 1 0 ex_nodes ex_D ex_property_W ex_W ex_W_r ex_W_s 1 ex_S ex_E ex_r'
     = p_final 1 0 ex_nodes ex_D ex_property_W ex_W ex_W_r ex_W_s 1 ex_S ex_E ex_r
  /\ p_loop 1 3 0 ex_nodes ex_D ex_property_W ex_W ex_W_r ex_W_s 1 ex_S ex_E ex_r
     = [[1 / 2; 1 / 2]]
  /\ p_final 1 0 ex_nodes ex_D ex_property_W ex_W ex_W_r ex_W_s 1 ex_S ex_E ex_r
     <> p_loop 1 3 0 ex_nodes ex_D ex_property_W ex_W ex_W_r ex_W_s 1 ex_S ex_E ex_r.
Proof.
  assert (Hloop :
     p_loop 1 3 0 ex_nodes ex_D ex_property_W ex_W ex_W_r ex_W_s 1 ex_S ex_E ex_r
     = [[1 / 2; 1 / 2]]).
  { unfold p_loop, simulation_step, blend, bcast_mul, r_i_prime, property_R_i, R_i, p_i_s,
      𝛾_i_s, p_i_r, 𝛾_i_e, p_0, r_i, ex_nodes, ex_W_r, ex_W_s, ex_W, ex_E,
      ex_S, ex_D, ex_property_W, ex_r.
    run_cells. at_zero. f_equal. f_equal; [lra|f_equal; lra]. }
  split; [reflexivity|]. split; [reflexivity|]. split; [exact Hloop|].
  rewrite Hloop.
  unfold p_final, simulation_step, blend, bcast_mul, r_i_prime, property_R_i, R_i, p_i_s,
    𝛾_i_s, p_i_r, 𝛾_i_e, p_0, r_i, ex_nodes, ex_W_r, ex_W_s, ex_W, ex_E,
    ex_S, ex_D, ex_property_W, ex_r.
  run_cells. at_zero. elu_branch.
  intros Heq. injection Heq as _ Heq.
  pose proof (inv_lt_half
                (exp ((1 / (1 + (1 + 0)) * ((1 * 1 + 0) * 1) + 0) * 1 + 0))) as Hlt.
  assert (He : 1 < exp ((1 / (1 + (1 + 0)) * ((1 * 1 + 0) * 1) + 0) * 1 + 0))
    by (apply exp_gt_1; lra).
  specialize (Hlt He). lra.
Qed.

(** ** The theorems at the small instance *)

Ltac shapes := repeat constructor.

Lemma p_i_is_distribution_witness :
  (ex_nodes <> []
   /\ shape3 1 (length ex_nodes) (length ex_nodes) ex_E
   /\ shape2 1 (length ex_nodes) ex_S
   /\ length ex_r = 1%nat)
  /\ Forall is_distribution
       (p_final 1 0 ex_nodes ex_D ex_property_W ex_W ex_W_r ex_W_s 1 ex_S ex_E ex_r).
Proof.
  assert (H1 : ex_nodes <> []) by discriminate.
  assert (H2 : shape3 1 (length ex_nodes) (length ex_nodes) ex_E) by shapes.
  assert (H3 : shape2 1 (length ex_nodes) ex_S) by shapes.
  assert (H4 : length ex_r = 1%nat) by reflexivity.
  split; [exact (conj H1 (conj H2 (conj H3 H4)))|].
  exact (proj1 (proj2 (proj2 (proj2
           (p_i_is_distribution 1 3 0 ex_nodes ex_D ex_property_W ex_W ex_W_r ex_W_s
              1 ex_S ex_E ex_r H1 H2 H3 H4))))).
Defined.

Lemma blend_property_witness :
  (shape3 1 (length ex_nodes) (length ex_nodes) ex_E
   /\ shape2 1 (length ex_nodes) ex_S
   /\ length ex_r = 1%nat
   /\ length (p_0 ex_nodes 1) = 1%nat)
  /\ forall b s, (b < 1)%nat -> (s < length ex_nodes)%nat ->
       nth s (nth b (simulation_step 1 0 ex_nodes ex_D ex_property_W ex_W ex_W_r ex_W_s
                       1 ex_S ex_E ex_r 0 (p_0 ex_nodes 1)) []) 0
       = last (nth b (R_i ex_D 1 (r_i 0 ex_r)) []) 0
         * nth s (nth b (p_i_r 1 ex_nodes ex_W_r
                           (𝛾_i_e 1 ex_nodes ex_W 1 ex_E (r_i 0 ex_r))
                           (p_0 ex_nodes 1)) []) 0
         + (1 - last (nth b (R_i ex_D 1 (r_i 0 ex_r)) []) 0)
           * nth s (nth b (p_i_s ex_W_s
                             (𝛾_i_s 1 0 ex_nodes ex_property_W ex_S
                                (property_R_i (R_i ex_D 1 (r_i 0 ex_r)))
                                (r_i 0 ex_r))) []) 0.
Proof.
  assert (H1 : shape3 1 (length ex_nodes) (length ex_nodes) ex_E) by shapes.
  assert (H2 : shape2 1 (length ex_nodes) ex_S) by shapes.
  assert (H3 : length ex_r = 1%nat) by reflexivity.
  assert (H4 : length (p_0 ex_nodes 1) = 1%nat) by reflexivity.
  split; [exact (conj H1 (conj H2 (conj H3 H4)))|].
  exact (proj1 (blend_property 1 0 ex_nodes ex_D ex_property_W ex_W ex_W_r ex_W_s
                  1 ex_S ex_E ex_r 0 (p_0 ex_nodes 1) H1 H2 H3 H4)).
Defined.

Lemma batch_independence_witness :
  (length ex_question = 1%nat /\ length ex_S = 1%nat /\ length ex_E = 1%nat)
  /\ forward 1 3 0 ex_nodes ex_D ex_property_W ex_W ex_W_r ex_W_s
       ex_classifier_0 ex_classifier_2 ex_C ex_W ex_cell ex_cell
       (1 + 1) (ex_question ++ ex_question) (ex_S ++ ex_S) (ex_E ++ ex_E_perturbed)
     = forward 1 3 0 ex_nodes ex_D ex_property_W ex_W ex_W_r ex_W_s
         ex_classifier_0 ex_classifier_2 ex_C ex_W ex_cell ex_cell
         1 ex_question ex_S ex_E
       ++ forward 1 3 0 ex_nodes ex_D ex_property_W ex_W ex_W_r ex_W_s
            ex_classifier_0 ex_classifier_2 ex_C ex_W ex_cell ex_cell
            1 ex_question ex_S ex_E_perturbed.
Proof.
  split; [repeat split; reflexivity|].
  exact (proj1 (proj1 (batch_independence 1 3 0 ex_nodes ex_D ex_property_W ex_W
                         ex_W_r ex_W_s ex_classifier_0 ex_classifier_2 ex_C ex_W
                         ex_cell ex_cell)
                      1%nat 1%nat ex_question ex_question ex_S ex_S ex_E ex_E_perturbed
                      eq_refl eq_refl eq_refl eq_refl eq_refl eq_refl)).
Defined.

Lemma final_classifier_witness :
  (length ex_question = 1%nat /\ length ex_S = 1%nat /\ length ex_E = 1%nat
   /\ length (weight ex_classifier_2) = 1%nat /\ length (bias ex_classifier_2) = 1%nat
   /\ (0 < 3)%nat)
  /\ shape2 1 1
       (forward 1 3 0 ex_nodes ex_D ex_property_W ex_W ex_W_r ex_W_s
          ex_classifier_0 ex_classifier_2 ex_C ex_W ex_cell ex_cell
          1 ex_question ex_S ex_E).
Proof.
  assert (HN : (0 < 3)%nat) by lia.
  split; [repeat split; (reflexivity || exact HN)|].
  exact (proj2 (proj2 (proj2 (proj2 (proj2
           (final_classifier 1 3 0 ex_nodes ex_D ex_property_W ex_W ex_W_r ex_W_s
              ex_classifier_0 ex_classifier_2 ex_C ex_W ex_cell ex_cell
              1 1 ex_question ex_S ex_E
              eq_refl eq_refl eq_refl eq_refl eq_refl HN)))))).
Defined.

Lemma property_R_N_mass_witness :
  length ex_D = (0 + 2)%nat
  /\ Forall (fun w => length w = (0 + 1)%nat /\ Forall (fun x => 0 < x) w
                      /\ 0 < sumR w < 1)
            (property_R_N 3 ex_D 1 ex_r).
Proof.
  split; [reflexivity|].
  exact (proj1 (proj2 (proj2 (property_R_N_mass 1 3 0 ex_D 1 ex_r eq_refl)))).
Defined.

Lemma absent_pairs_contribute_zero_witness :
  shape2 1 1 (r_i 0 ex_r)
  /\ p_i_r 1 ex_nodes ex_W_r
       (𝛾_i_e 1 ex_nodes ex_W 1
          (snd (fst (scene_graph (fun _ => 0) 1 1 ex_nodes ex_relations 0)))
          (r_i 0 ex_r))
       (p_0 ex_nodes 1)
     = p_i_r_masked 1 ex_nodes ex_W_r
         (fst (fst (scene_graph (fun _ => 0) 1 1 ex_nodes ex_relations 0)))
         (𝛾_i_e 1 ex_nodes ex_W 1
            (snd (fst (scene_graph (fun _ => 0) 1 1 ex_nodes ex_relations 0)))
            (r_i 0 ex_r))
         (p_0 ex_nodes 1).
Proof.
  assert (H : shape2 1 1 (r_i 0 ex_r)) by shapes.
  split; [exact H|].
  exact (proj2 (proj2 (proj2
           (absent_pairs_contribute_zero 1 ex_nodes ex_W ex_W_r (fun _ => 0)
              ex_relations 1 0 (r_i 0 ex_r) (p_0 ex_nodes 1) H)))).
Defined.

Lemma absent_edge_invariance_witness :
  (shape3 1 (length ex_nodes) (length ex_nodes) ex2_mask
   /\ shape3 1 (length ex_nodes) (length ex_nodes) ex2_E
   /\ shape3 1 (length ex_nodes) (length ex_nodes) ex2_E_perturbed
   /\ shape2 1 2 ex2_r_i
   /\ (forall b i j, (b < 1)%nat -> (i < length ex_nodes)%nat -> (j < length ex_nodes)%nat ->
         entry 0 ex2_mask b i j <> 0 -> entry [] ex2_E b i j = entry [] ex2_E_perturbed b i j)
   /\ (forall b i j, (b < 1)%nat -> (i < length ex_nodes)%nat -> (j < length ex_nodes)%nat ->
         forall c, (c < 2)%nat ->
           nth c (nth b ex2_r_i []) 0 = 0
           \/ nth c (vecmat 2 (entry [] ex2_E b i j) ex2_W) 0
              = nth c (vecmat 2 (entry [] ex2_E_perturbed b i j) ex2_W) 0)
   /\ (forall b i j, (b < 1)%nat -> (i < length ex_nodes)%nat -> (j < length ex_nodes)%nat ->
         entry 0 ex2_mask b i j = 1
         \/ (entry 0 ex2_mask b i j = 0 /\ entry [] ex2_E b i j = zeros 2)))
  /\ entry 0 ex2_mask 0 0 1 = 0
  /\ entry [] ex2_E 0 0 1 <> entry [] ex2_E_perturbed 0 0 1
  /\ p_i_r_masked 2 ex_nodes ex2_W_r ex2_mask
       (𝛾_i_e 2 ex_nodes ex2_W 1 ex2_E ex2_r_i) (p_0 ex_nodes 1)
     = p_i_r_masked 2 ex_nodes ex2_W_r ex2_mask
         (𝛾_i_e 2 ex_nodes ex2_W 1 ex2_E_perturbed ex2_r_i) (p_0 ex_nodes 1)
  /\ p_i_r 2 ex_nodes ex2_W_r (𝛾_i_e 2 ex_nodes ex2_W 1 ex2_E ex2_r_i) (p_0 ex_nodes 1)
     = p_i_r 2 ex_nodes ex2_W_r (𝛾_i_e 2 ex_nodes ex2_W 1 ex2_E_perturbed ex2_r_i)
         (p_0 ex_nodes 1)
  /\ p_i_r 2 ex_nodes ex2_W_r (𝛾_i_e 2 ex_nodes ex2_W 1 ex2_E ex2_r_i) (p_0 ex_nodes 1)
     = p_i_r_masked 2 ex_nodes ex2_W_r ex2_mask
         (𝛾_i_e 2 ex_nodes ex2_W 1 ex2_E ex2_r_i) (p_0 ex_nodes 1).
Proof.
  assert (H1 : shape3 1 (length ex_nodes) (length ex_nodes) ex2_mask) by shapes.
  assert (H2 : shape3 1 (length ex_nodes) (length ex_nodes) ex2_E) by shapes.
  assert (H3 : shape3 1 (length ex_nodes) (length ex_nodes) ex2_E_perturbed) by shapes.
  assert (H4 : shape2 1 2 ex2_r_i) by shapes.
  assert (H5 : forall b i j, (b < 1)%nat -> (i < length ex_nodes)%nat ->
                 (j < length ex_nodes)%nat ->
                 entry 0 ex2_mask b i j <> 0 ->
                 entry [] ex2_E b i j = entry [] ex2_E_perturbed b i j).
  { intros b i j Hb Hi Hj. simpl in Hi, Hj.
    destruct b as [|b]; [|lia].
    destruct i as [|[|i]]; [| |lia]; (destruct j as [|[|j]]; [| |lia]);
      intros Hflag; try reflexivity.
    contradiction Hflag. reflexivity. }
  assert (H6 : forall b i j, (b < 1)%nat -> (i < length ex_nodes)%nat ->
                 (j < length ex_nodes)%nat ->
                 forall c, (c < 2)%nat ->
                   nth c (nth b ex2_r_i []) 0 = 0
                   \/ nth c (vecmat 2 (entry [] ex2_E b i j) ex2_W) 0
                      = nth c (vecmat 2 (entry [] ex2_E_perturbed b i j) ex2_W) 0).
  { intros b i j Hb Hi Hj c Hc. simpl in Hi, Hj.
    destruct b as [|b]; [|lia].
    destruct c as [|[|c]]; [| |lia]; [|left; reflexivity].
    right.
    destruct i as [|[|i]]; [| |lia]; (destruct j as [|[|j]]; [| |lia]);
      try reflexivity.
    unfold vecmat, entry, ex2_W, ex2_E, ex2_E_perturbed. run_cells.
    unfold dot, vmul. run_cells. lra. }
  assert (H7 : forall b i j, (b < 1)%nat -> (i < length ex_nodes)%nat ->
                 (j < length ex_nodes)%nat ->
                 entry 0 ex2_mask b i j = 1
                 \/ (entry 0 ex2_mask b i j = 0 /\ entry [] ex2_E b i j = zeros 2)).
  { intros b i j Hb Hi Hj. simpl in Hi, Hj.
    destruct b as [|b]; [|lia].
    destruct i as [|[|i]]; [| |lia]; (destruct j as [|[|j]]; [| |lia]);
      try (right; split; reflexivity).
    left. reflexivity. }
  assert (Hflag : entry 0 ex2_mask 0 0 1 = 0) by reflexivity.
  assert (Hdiff : entry [] ex2_E 0 0 1 <> entry [] ex2_E_perturbed 0 0 1).
  { unfold entry, ex2_E, ex2_E_perturbed. run_cells. intros Heq.
    injection Heq as Heq. lra. }
  split; [exact (conj H1 (conj H2 (conj H3 (conj H4 (conj H5 (conj H6 H7))))))|].
  split; [exact Hflag|]. split; [exact Hdiff|].
  destruct (absent_edge_invariance 2 ex_nodes ex2_W ex2_W_r 1 ex2_mask ex2_E
              ex2_E_perturbed ex2_r_i (p_0 ex_nodes 1) H1 H2 H3 H4 H5)
    as (Hgated & Hcode & Hagree & Hcoord).
  refine (conj Hgated (conj (Hcode _) (Hagree H7))).
  intros b i j Hb Hi Hj _. apply Hcoord; try assumption. apply H6; assumption.
Defined.

Lemma vectorised_equals_loops_witness :
  (shape2 1 (length ex_nodes) ex_S
   /\ shape2 1 (0 + 1) (property_R_i (R_i ex_D 1 (r_i 0 ex_r)))
   /\ length (r_i 0 ex_r) = 1%nat
   /\ length ex_property_W = (0 + 1)%nat
   /\ shape4 1 (length ex_nodes) (length ex_nodes) 1 ex_E_edge
   /\ shape2 1 (length ex_nodes) (p_0 ex_nodes 1))
  /\ alt_𝛾_i_s 1 0 ex_nodes ex_property_W 1 ex_S
       (property_R_i (R_i ex_D 1 (r_i 0 ex_r))) (r_i 0 ex_r)
     = 𝛾_i_s 1 0 ex_nodes ex_property_W ex_S
         (property_R_i (R_i ex_D 1 (r_i 0 ex_r))) (r_i 0 ex_r).
Proof.
  assert (H1 : shape2 1 (length ex_nodes) ex_S) by shapes.
  assert (H2 : shape2 1 (0 + 1) (property_R_i (R_i ex_D 1 (r_i 0 ex_r)))) by shapes.
  assert (H3 : length (r_i 0 ex_r) = 1%nat) by reflexivity.
  assert (H4 : length ex_property_W = (0 + 1)%nat) by reflexivity.
  assert (H5 : shape4 1 (length ex_nodes) (length ex_nodes) 1 ex_E_edge) by shapes.
  assert (H6 : shape2 1 (length ex_nodes) (p_0 ex_nodes 1)) by shapes.
  split; [exact (conj H1 (conj H2 (conj H3 (conj H4 (conj H5 H6)))))|].
  exact (proj1 (vectorised_equals_loops 1 0 ex_nodes ex_property_W ex_W_r 1 ex_S
                  (property_R_i (R_i ex_D 1 (r_i 0 ex_r))) (r_i 0 ex_r)
                  ex_E_edge (p_0 ex_nodes 1) H1 H2 H3 H4 H5 H6)).
Defined.

Lemma concept_vocabulary_layout_witness :
  (ex_state_identities <> [] /\ ex_relationships <> [])
  /\ exists (D' C' : mat) (k' : nat),
       (exists ordered_C c_row,
          concept_vocabulary (fun _ => 0) 7 ex_property_types ex_property_concepts
                             ex_state_identities ex_relationships 0%nat
          = Some ((2%nat,
                   ["identity"; "color"; "material"; "relations"]%string,
                   D', ordered_C, [c_row], C'), k'))
       /\ shape2 4 7 D' /\ shape2 10 7 C'.
Proof.
  assert (H1 : ex_state_identities <> []) by discriminate.
  assert (H2 : ex_relationships <> []) by discriminate.
  assert (H3 : Forall (fun property =>
                         exists concepts,
                           dict_get (prepared_concepts ex_property_concepts
                                       ex_state_identities ex_relationships)
                                    property = Some concepts
                           /\ concepts <> [])
                      ex_property_types).
  { repeat constructor; eexists; (split; [reflexivity|discriminate]). }
  split; [exact (conj H1 H2)|].
  destruct (concept_vocabulary_layout 7 (fun _ => 0) ex_property_types
              ex_property_concepts ex_state_identities ex_relationships 0 H1 H2 H3)
    as (D' & ordered_C & c_row & k' & Hrun & HD & _ & _ & _ & _ & _ & HC & _).
  exists D', (concat ordered_C ++ [c_row]), k'.
  split; [exists ordered_C, c_row; exact Hrun|].
  split; [exact HD|exact HC].
Defined.

(** ** The construction cells and the update cells on the small instance *)

Lemma sparse_scene_graph_exact_witness :
  sparse_scene_graph (fun _ => 1) 1 1 ex_nodes ex_relations_edge
    (snd (scene_graph (fun _ => 1) 1 1 ex_nodes ex_relations_edge 0))
  = Some ([{| sp_indices := [[0%nat]; [1%nat]]; sp_values := [[1]];
              sp_size := [2%nat; 2%nat; 1%nat] |}], 2%nat)
  /\ sparse_shape [{| sp_indices := [[0%nat]; [1%nat]]; sp_values := [[1]];
                      sp_size := [2%nat; 2%nat; 1%nat] |}]
     = [1%nat; length ex_nodes; length ex_nodes; 1%nat].
Proof.
  assert (H : sparse_scene_graph (fun _ => 1) 1 1 ex_nodes ex_relations_edge
                (snd (scene_graph (fun _ => 1) 1 1 ex_nodes ex_relations_edge 0))
              = Some ([{| sp_indices := [[0%nat]; [1%nat]]; sp_values := [[1]];
                          sp_size := [2%nat; 2%nat; 1%nat] |}], 2%nat))
    by reflexivity.
  split; [exact H|].
  exact (proj1 (proj2 (proj2 (sparse_scene_graph_exact 1 ex_nodes (fun _ => 1)
                                ex_relations_edge 1 0)) _ _ H)).
Defined.

Lemma concept_vocabulary_stream_witness :
  concept_vocabulary (fun _ => 1) 1 [] [] ["cat"%string] ["holding"%string] 0%nat
  = Some ((0%nat, ["identity"%string; "relations"%string], [[1]; [1]],
           [[[1]]; [[1]]], [[1]], ex_C_drawn), 5%nat)
  /\ [[1]; [1]] ++ ex_C_drawn
     = rows_from (fun _ => 1) 1 0
         (0 + 2 + total_concepts
                    (prepared_concepts [] ["cat"%string] ["holding"%string])
                    ["identity"%string; "relations"%string] + 1).
Proof.
  assert (H : concept_vocabulary (fun _ => 1) 1 [] [] ["cat"%string] ["holding"%string] 0%nat
              = Some ((0%nat, ["identity"%string; "relations"%string], [[1]; [1]],
                       [[[1]]; [[1]]], [[1]], ex_C_drawn), 5%nat))
    by reflexivity.
  split; [exact H|].
  exact (proj1 (proj2 (proj2 (concept_vocabulary_stream 1 (fun _ => 1) [] []
                                ["cat"%string] ["holding"%string] 0 _ _ _ _ _ _ _ H)))).
Defined.

Lemma embed_questions_exact_witness :
  embed_questions (fun _ => 1) 1 ex_questions 0%nat = Some ([[[1]; [1]]], 2%nat)
  /\ exists T,
       (0 < T)%nat
       /\ Forall (fun question : list string => length question = T) ex_questions
       /\ shape3 (length ex_questions) T 1 [[[1]; [1]]].
Proof.
  assert (H : embed_questions (fun _ => 1) 1 ex_questions 0%nat = Some ([[[1]; [1]]], 2%nat))
    by reflexivity.
  split; [exact H|].
  destruct (proj2 (embed_questions_exact 1 (fun _ => 1) ex_questions 0) _ _ H)
    as (T & H1 & H2 & H3 & _).
  exists T. exact (conj H1 (conj H2 H3)).
Defined.

Lemma identity_initialisation_witness :
  (ex_W = eye 1 /\ ex_property_W = repeat (eye 1) (0 + 1)
   /\ shape4 1 (length ex_nodes) (length ex_nodes) 1 ex_E_edge
   /\ shape4 1 (length ex_nodes) (0 + 1) 1 ex_S
   /\ shape2 1 (0 + 1) ex_property_R_i /\ length (r_i 0 ex_r) = 1%nat
   /\ shape3 1 1 1 ex_question
   /\ Forall (fun row : vec => length row = 1%nat) ex_C)
  /\ entry [] (𝛾_i_e 1 ex_nodes ex_W 1 ex_E_edge (r_i 0 ex_r)) 0 0 1
     = map elu (vmul (entry [] ex_E_edge 0 0 1) (nth 0 (r_i 0 ex_r) [])).
Proof.
  assert (H1 : ex_W = eye 1) by reflexivity.
  assert (H2 : ex_property_W = repeat (eye 1) (0 + 1)) by reflexivity.
  assert (H3 : shape4 1 (length ex_nodes) (length ex_nodes) 1 ex_E_edge) by shapes.
  assert (H4 : shape4 1 (length ex_nodes) (0 + 1) 1 ex_S) by shapes.
  assert (H5 : shape2 1 (0 + 1) ex_property_R_i) by shapes.
  assert (H6 : length (r_i 0 ex_r) = 1%nat) by reflexivity.
  assert (H7 : shape3 1 1 1 ex_question) by shapes.
  assert (H8 : Forall (fun row : vec => length row = 1%nat) ex_C) by shapes.
  split; [exact (conj H1 (conj H2 (conj H3 (conj H4 (conj H5 (conj H6 (conj H7 H8)))))))|].
  refine (proj1 (identity_initialisation 1 0 ex_nodes ex_property_W ex_W ex_C ex_W 1 1
                   ex_S ex_E_edge ex_question ex_property_R_i (r_i 0 ex_r)
                   H1 H1 H2 H3 H4 H5 H6 H7 H8) 0%nat 0%nat 1%nat _ _ _);
    cbn; lia.
Defined.

Lemma instructions_shape_and_range_witness :
  ((0 < 1)%nat /\ ex_C <> []
   /\ shape3 1 1 1 ex_question
   /\ Forall (fun row : vec => length row = 1%nat) ex_C
   /\ Forall (Forall (Forall (fun v => 0 <= v <= 1))) ex_question
   /\ Forall (Forall (fun v => 0 <= v <= 1)) (removelast ex_C))
  /\ shape3 1 (3 + 1) 1
       (r 1 3 ex_cell ex_cell (V 1 ex_C 1 ex_question (P_i 1 ex_C ex_W 1 ex_question)))
  /\ Forall (Forall (Forall (fun v => 0 <= v <= 1)))
       (r 1 3 ex_cell ex_cell (V 1 ex_C 1 ex_question (P_i 1 ex_C ex_W 1 ex_question))).
Proof.
  assert (H1 : (0 < 1)%nat) by lia.
  assert (H2 : ex_C <> []) by discriminate.
  assert (H3 : shape3 1 1 1 ex_question) by shapes.
  assert (H4 : Forall (fun row : vec => length row = 1%nat) ex_C) by shapes.
  assert (H5 : Forall (Forall (Forall (fun v => 0 <= v <= 1))) ex_question)
    by (repeat constructor; lra).
  assert (H6 : Forall (Forall (fun v => 0 <= v <= 1)) (removelast ex_C)) by constructor.
  split; [exact (conj H1 (conj H2 (conj H3 (conj H4 (conj H5 H6)))))|].
  exact (proj2 (proj2 (proj2 (proj2
           (instructions_shape_and_range 1 3 ex_C ex_W ex_cell ex_cell 1 1 ex_question
              0 1 H1 H2 H3 H4 H5 H6))))).
Defined.

Lemma notebook_alternative_agrees_witness :
  (ex_W = eye 1 /\ (forall n : nat, 0 <= (fun _ : nat => 1) n)
   /\ shape2 1 1 (r_i 0 ex_r)
   /\ Forall (Forall (fun x => 0 <= x)) (r_i 0 ex_r)
   /\ shape2 1 (length ex_nodes) (p_0 ex_nodes 1))
  /\ alt_p_i_r 1 ex_nodes ex_W_r 1
       (𝛾_i_e 1 ex_nodes ex_W 1
          (snd (fst (scene_graph (fun _ => 1) 1 1 ex_nodes ex_relations_edge 0)))
          (r_i 0 ex_r))
       (p_0 ex_nodes 1)
     = p_i_r 1 ex_nodes ex_W_r
         (𝛾_i_e 1 ex_nodes ex_W 1
            (snd (fst (scene_graph (fun _ => 1) 1 1 ex_nodes ex_relations_edge 0)))
            (r_i 0 ex_r))
         (p_0 ex_nodes 1).
Proof.
  assert (H1 : ex_W = eye 1) by reflexivity.
  assert (H2 : forall n : nat, 0 <= (fun _ : nat => 1) n) by (intros n; cbv beta; lra).
  assert (H3 : shape2 1 1 (r_i 0 ex_r)) by shapes.
  assert (H4 : Forall (Forall (fun x => 0 <= x)) (r_i 0 ex_r))
    by (repeat constructor; lra).
  assert (H5 : shape2 1 (length ex_nodes) (p_0 ex_nodes 1)) by shapes.
  split; [exact (conj H1 (conj H2 (conj H3 (conj H4 H5))))|].
  exact (proj2 (notebook_alternative_agrees 1 ex_nodes ex_W ex_W_r (fun _ => 1)
                  ex_relations_edge 1 0 (r_i 0 ex_r) (p_0 ex_nodes 1) H1 H2 H3 H4 H5)).
Defined.

Lemma update_cells_entrywise_witness :
  (shape3 1 (length ex_nodes) (length ex_nodes) ex_E_edge
   /\ shape2 1 (length ex_nodes) ex_S
   /\ shape2 1 (0 + 1) ex_property_R_i
   /\ length (r_i 0 ex_r) = 1%nat /\ length ex_property_W = (0 + 1)%nat
   /\ shape4 1 (length ex_nodes) (length ex_nodes) 1 ex_E_edge
   /\ shape2 1 (length ex_nodes) ex_gamma_s
   /\ shape2 1 (length ex_nodes) (p_0 ex_nodes 1))
  /\ nth 1 (nth 0 (p_i_r 1 ex_nodes ex_W_r ex_E_edge (p_0 ex_nodes 1)) []) 0
     = nth 1 (softmax
                (map (fun x' =>
                        dot (vsum 1
                               (map (fun y => vscale (nth y (nth 0 (p_0 ex_nodes 1) []) 0)
                                                     (entry [] ex_E_edge 0 y x'))
                                    (seq 0 (length ex_nodes))))
                            ex_W_r)
                     (seq 0 (length ex_nodes)))) 0.
Proof.
  assert (H1 : shape3 1 (length ex_nodes) (length ex_nodes) ex_E_edge) by shapes.
  assert (H2 : shape2 1 (length ex_nodes) ex_S) by shapes.
  assert (H3 : shape2 1 (0 + 1) ex_property_R_i) by shapes.
  assert (H4 : length (r_i 0 ex_r) = 1%nat) by reflexivity.
  assert (H5 : length ex_property_W = (0 + 1)%nat) by reflexivity.
  assert (H6 : shape4 1 (length ex_nodes) (length ex_nodes) 1 ex_E_edge) by shapes.
  assert (H7 : shape2 1 (length ex_nodes) ex_gamma_s) by shapes.
  assert (H8 : shape2 1 (length ex_nodes) (p_0 ex_nodes 1)) by shapes.
  split; [exact (conj H1 (conj H2 (conj H3 (conj H4 (conj H5 (conj H6 (conj H7 H8)))))))|].
  refine (proj1 (proj2 (proj2
            (update_cells_entrywise 1 0 ex_nodes ex_property_W ex_W ex_W_r ex_W_s 1
               ex_S ex_E_edge ex_E_edge ex_gamma_s ex_property_R_i (r_i 0 ex_r)
               (p_0 ex_nodes 1) H1 H2 H3 H4 H5 H6 H7 H8))) 0%nat 1%nat _ _);
    cbn; lia.
Defined.

Lemma relational_update_without_relations_witness :
  (related_pairs ex_nodes ex_relations = []
   /\ shape2 1 1 (r_i 0 ex_r)
   /\ shape2 1 (length ex_nodes) (p_0 ex_nodes 1))
  /\ p_i_r 1 ex_nodes ex_W_r
       (𝛾_i_e 1 ex_nodes ex_W 1
          (snd (fst (scene_graph (fun _ => 1) 1 1 ex_nodes ex_relations 0)))
          (r_i 0 ex_r))
       (p_0 ex_nodes 1)
     = p_0 ex_nodes 1.
Proof.
  assert (H1 : related_pairs ex_nodes ex_relations = []) by reflexivity.
  assert (H2 : shape2 1 1 (r_i 0 ex_r)) by shapes.
  assert (H3 : shape2 1 (length ex_nodes) (p_0 ex_nodes 1)) by shapes.
  split; [exact (conj H1 (conj H2 H3))|].
  exact (proj2 (relational_update_without_relations 1 ex_nodes ex_W ex_W_r (fun _ => 1)
                  ex_relations 1 0 (r_i 0 ex_r) (p_0 ex_nodes 1) H1 H2 H3)).
Defined.

Lemma notebook_pipeline_assertion_witness :
  ((forall n : nat, 0 <= (fun _ : nat => 1) n <= 1)
   /\ ex_W = eye 1
   /\ concept_vocabulary (fun _ => 1) 1 [] [] ["cat"%string] ["holding"%string] 0%nat
      = Some ((0%nat, ["identity"%string; "relations"%string], [[1]; [1]],
               [[[1]]; [[1]]], [[1]], ex_C_drawn), 5%nat)
   /\ embed_questions (fun _ => 1) 1 ex_questions 5%nat = Some ([[[1]; [1]]], 7%nat)
   /\ (0 <= 3)%nat
   /\ shape2 (length ex_questions) (length ex_nodes) (p_0 ex_nodes 1))
  /\ alt_p_i_r 1 ex_nodes ex_W_r 1
       (𝛾_i_e 1 ex_nodes ex_W 1
          (snd (fst (scene_graph (fun _ => 1) 1 1 ex_nodes ex_relations_edge 7)))
          (r_i 0 (r 1 3 ex_cell ex_cell
                    (V 1 ex_C_drawn 1 [[[1]; [1]]]
                       (P_i 1 ex_C_drawn ex_W 1 [[[1]; [1]]])))))
       (p_0 ex_nodes 1)
     = p_i_r 1 ex_nodes ex_W_r
         (𝛾_i_e 1 ex_nodes ex_W 1
            (snd (fst (scene_graph (fun _ => 1) 1 1 ex_nodes ex_relations_edge 7)))
            (r_i 0 (r 1 3 ex_cell ex_cell
                      (V 1 ex_C_drawn 1 [[[1]; [1]]]
                         (P_i 1 ex_C_drawn ex_W 1 [[[1]; [1]]])))))
         (p_0 ex_nodes 1).
Proof.
  assert (H1 : forall n : nat, 0 <= (fun _ : nat => 1) n <= 1)
    by (intros n; cbv beta; lra).
  assert (H2 : ex_W = eye 1) by reflexivity.
  assert (H3 : concept_vocabulary (fun _ => 1) 1 [] [] ["cat"%string] ["holding"%string] 0%nat
               = Some ((0%nat, ["identity"%string; "relations"%string], [[1]; [1]],
                        [[[1]]; [[1]]], [[1]], ex_C_drawn), 5%nat)) by reflexivity.
  assert (H4 : embed_questions (fun _ => 1) 1 ex_questions 5%nat = Some ([[[1]; [1]]], 7%nat))
    by reflexivity.
  assert (H5 : (0 <= 3)%nat) by lia.
  assert (H6 : shape2 (length ex_questions) (length ex_nodes) (p_0 ex_nodes 1)) by shapes.
  split; [exact (conj H1 (conj H2 (conj H3 (conj H4 (conj H5 H6)))))|].
  exact (proj2 (proj2
           (notebook_pipeline_assertion 1 3 ex_nodes ex_W ex_W_r ex_C_drawn ex_W
              ex_cell ex_cell (fun _ => 1) [] [] ["cat"%string] ["holding"%string]
              ex_questions ex_relations_edge 0 5 7 _ _ _ _ _ _ _ _ (p_0 ex_nodes 1) 0
              H1 H2 H3 H4 H5 H6))).
Defined.
